(** * JSON-Editor: the schema-driven conversion engine

    A shallow embedding of [src/schema_manager.py] (schema inference,
    schema mutation, JSON -> table projection, table -> JSON
    reconstruction) and of the places of [app.py] that belong to the
    same engine: the "Create Schema" handler, the JSON import handler
    and the schema-column sync that follows an import.

    Conventions of the model.
    - A Python [str] is a [string] whose characters are code points
      below 256.
    - A Python exception is a value of [exn]; a function that can raise
      returns a [result].
    - A finite Python [float] is the decimal number its [repr] shows,
      [(-1)^neg * m * 10^e]; infinities and NaN are separate values.
      Rounding to binary64 and its overflow are not modelled: the
      round trip (C1) and the numeric coercion (C6) give the value of
      a number for integers of magnitude at most 2^53 and for numerals
      of at most 15 digits, which a binary64 float holds without loss.
    - A pandas frame keeps in each cell the Python object it was given;
      the column dtypes pandas would infer are not modelled: the
      columns of the table (C2) are stated with the cells of the keys
      a record lacks, not with the cells of the other records in the
      same column. *)

From Stdlib Require Import ZArith NArith String Ascii List Lia.
From Stdlib Require Import Decimal DecimalString DecimalPos DecimalZ.
From stdpp Require Import gmap strings list.

Local Open Scope Z_scope.

(** ** Exceptions *)

Inductive exn : Type :=
  | KeyError
  | AttributeError
  | ValueError
  | TypeError
  | OverflowError.

Inductive result (A : Type) : Type :=
  | Ok (a : A)
  | Raise (e : exn).

Arguments Ok {A} a.
Arguments Raise {A} e.

Global Instance result_ret : MRet result := fun _ a => Ok a.
Global Instance result_bind : MBind result := fun _ _ k m =>
  match m with
  | Ok a => k a
  | Raise e => Raise e
  end.

(** [try: m except: d], a bare [except] clause. *)
Definition try_except {A : Type} (m : result A) (d : A) : A :=
  match m with
  | Ok a => a
  | Raise _ => d
  end.

(** ** Strings *)

Module Str.

Definition code (c : ascii) : N := N_of_ascii c.

(** [str.isspace] on one character: what [str.strip()] removes. *)
Definition is_space (c : ascii) : bool :=
  let n := code c in
  ((9 <=? n) && (n <=? 13) || (28 <=? n) && (n <=? 32)
   || (n =? 133) || (n =? 160))%N.

Definition is_digit (c : ascii) : bool :=
  let n := code c in ((48 <=? n) && (n <=? 57))%N.

Definition digit_val (c : ascii) : N := (code c - 48)%N.

Definition eqb_ascii (a b : ascii) : bool := (code a =? code b)%N.

Definition comma : ascii := ","%char.

Fixpoint lstrip (s : string) : string :=
  match s with
  | EmptyString => EmptyString
  | String c s' => if is_space c then lstrip s' else s
  end.

Fixpoint rstrip (s : string) : string :=
  match s with
  | EmptyString => EmptyString
  | String c s' =>
      match rstrip s' with
      | EmptyString => if is_space c then EmptyString else String c EmptyString
      | r => String c r
      end
  end.

(** [s.strip()] *)
Definition strip (s : string) : string := rstrip (lstrip s).

Definition is_empty (s : string) : bool :=
  match s with
  | EmptyString => true
  | String _ _ => false
  end.

(** [s.strip() == ''] *)
Definition is_blank (s : string) : bool := is_empty (strip s).

(** [s.split(sep)] for a separator of one character; the result is
    never empty. *)
Fixpoint split (sep : ascii) (s : string) : list string :=
  match s with
  | EmptyString => [EmptyString]
  | String c s' =>
      if eqb_ascii c sep then EmptyString :: split sep s'
      else match split sep s' with
           | p :: ps => String c p :: ps
           | [] => [String c EmptyString]
           end
  end.

(** [sep.join(l)] *)
Fixpoint join (sep : string) (l : list string) : string :=
  match l with
  | [] => EmptyString
  | [x] => x
  | x :: l' => x +:+ sep +:+ join sep l'
  end.

Definition lower_char (c : ascii) : ascii :=
  let n := code c in
  if ((65 <=? n) && (n <=? 90)
      || (192 <=? n) && (n <=? 222) && negb (n =? 215))%N
  then ascii_of_N (n + 32) else c.

(** [s.lower()] *)
Fixpoint lower (s : string) : string :=
  match s with
  | EmptyString => EmptyString
  | String c s' => String (lower_char c) (lower s')
  end.

Fixpoint contains (c : ascii) (s : string) : bool :=
  match s with
  | EmptyString => false
  | String a s' => eqb_ascii a c || contains c s'
  end.

Fixpoint repeat (c : ascii) (n : nat) : string :=
  match n with
  | O => EmptyString
  | S k => String c (repeat c k)
  end.

Fixpoint take (n : nat) (s : string) : string :=
  match n, s with
  | S k, String c s' => String c (take k s')
  | _, _ => EmptyString
  end.

Fixpoint drop (n : nat) (s : string) : string :=
  match n, s with
  | S k, String _ s' => drop k s'
  | _, _ => s
  end.

Definition hex_digit (n : N) : ascii :=
  if (n <? 10)%N then ascii_of_N (48 + n) else ascii_of_N (87 + n).

Definition squote : ascii := "'"%char.
Definition dquote : ascii := ascii_of_N 34.
Definition backslash : ascii := ascii_of_N 92.

(** One character of [repr(s)], [q] being the quote chosen. *)
Definition repr_char (q : ascii) (c : ascii) : string :=
  let n := code c in
  if eqb_ascii c q || eqb_ascii c backslash then String backslash (String c EmptyString)
  else if (n =? 9)%N then String backslash "t"
  else if (n =? 10)%N then String backslash "n"
  else if (n =? 13)%N then String backslash "r"
  else if ((n <? 32) || (n =? 127) || (127 <? n) && (n <? 161) || (n =? 173))%N
  then String backslash (String "x"%char
         (String (hex_digit (n / 16)) (String (hex_digit (n mod 16)) EmptyString)))
  else String c EmptyString.

Fixpoint repr_body (q : ascii) (s : string) : string :=
  match s with
  | EmptyString => EmptyString
  | String c s' => repr_char q c +:+ repr_body q s'
  end.

(** [repr(s)] of a [str]: single quotes unless the string has a
    single quote and no double quote. *)
Definition repr (s : string) : string :=
  let q := if contains squote s && negb (contains dquote s) then dquote else squote in
  String q (repr_body q s +:+ String q EmptyString).

(** [str(z)] of an [int]. *)
Definition of_Z (z : Z) : string := NilZero.string_of_int (Z.to_int z).

(** The decimal digits of a natural number. *)
Definition of_N (n : N) : string := NilZero.string_of_uint (N.to_uint n).

End Str.

(** ** Floats *)

Inductive pyfloat : Type :=
  | FNan
  | FInf (neg : bool)
  | FFin (neg : bool) (m : N) (e : Z).

Module Float.

(** Drops the factors 10 of the mantissa, so that a value has one
    representation. *)
Fixpoint strip10 (fuel : nat) (m : N) (e : Z) : N * Z :=
  match fuel with
  | O => (m, e)
  | S k =>
      if (m =? 0)%N then (0%N, 0)
      else if (m mod 10 =? 0)%N then strip10 k (m / 10)%N (e + 1)
      else (m, e)
  end.

Definition make (neg : bool) (m : N) (e : Z) : pyfloat :=
  let '(m', e') := strip10 (S (N.to_nat (N.log2 m))) m e in
  FFin neg m' e'.

(** [float(z)] of an [int]. *)
Definition of_Z (z : Z) : pyfloat := make (z <? 0) (Z.abs_N z) 0.

Definition signed (neg : bool) (n : N) : Z :=
  if neg then - Z.of_N n else Z.of_N n.

(** [int(f)]: truncation towards zero; raises on infinities and NaN. *)
Definition to_int (f : pyfloat) : result Z :=
  match f with
  | FNan => Raise ValueError
  | FInf _ => Raise OverflowError
  | FFin neg m e =>
      if 0 <=? e then Ok (signed neg (m * 10 ^ Z.to_N e))
      else Ok (signed neg (m / 10 ^ Z.to_N (- e)))
  end.

(** [f == z] between a [float] and an [int]: exact comparison. *)
Definition eqb_int (f : pyfloat) (z : Z) : bool :=
  match f with
  | FNan | FInf _ => false
  | FFin neg m e =>
      if 0 <=? e then signed neg (m * 10 ^ Z.to_N e) =? z
      else signed neg m =? z * 10 ^ (- e)
  end.

Definition is_nan (f : pyfloat) : bool :=
  match f with
  | FNan => true
  | _ => false
  end.

Definition pad2 (s : string) : string :=
  match s with
  | String c EmptyString => String "0"%char s
  | _ => s
  end.

(** [repr(f)], which [str(f)] equals: fixed notation when the decimal
    point falls in [-4 < decpt <= 16], exponent notation otherwise. *)
Definition repr (f : pyfloat) : string :=
  match f with
  | FNan => "nan"
  | FInf neg => if neg then "-inf" else "inf"
  | FFin neg m e =>
      let sign := if neg then "-" else EmptyString in
      if (m =? 0)%N then sign +:+ "0.0"
      else
        let ds := Str.of_N m in
        let n := String.length ds in
        let decpt := Z.of_nat n + e in
        if (-4 <? decpt) && (decpt <=? 16) then
          if decpt <=? 0 then
            sign +:+ "0." +:+ Str.repeat "0"%char (Z.to_nat (- decpt)) +:+ ds
          else if decpt <? Z.of_nat n then
            sign +:+ Str.take (Z.to_nat decpt) ds +:+ "." +:+ Str.drop (Z.to_nat decpt) ds
          else
            sign +:+ ds +:+ Str.repeat "0"%char (Z.to_nat (decpt - Z.of_nat n)) +:+ ".0"
        else
          let x := decpt - 1 in
          sign +:+ Str.take 1 ds
            +:+ (if (n =? 1)%nat then EmptyString else "." +:+ Str.drop 1 ds)
            +:+ "e" +:+ (if x <? 0 then "-" else "+")
            +:+ pad2 (Str.of_N (Z.abs_N x))
  end.

(** *** [float(s)] of a [str] *)

(** The underscores of a numeric literal: each one stands between two
    digits, and is dropped. *)
Fixpoint drop_underscores (prev : option ascii) (s : string) : option string :=
  match s with
  | EmptyString =>
      match prev with
      | Some p => if Str.eqb_ascii p "_"%char then None else Some EmptyString
      | None => Some EmptyString
      end
  | String c s' =>
      if Str.eqb_ascii c "_"%char then
        match prev with
        | Some p => if Str.is_digit p then drop_underscores (Some c) s' else None
        | None => None
        end
      else
        match prev with
        | Some p =>
            if Str.eqb_ascii p "_"%char && negb (Str.is_digit c) then None
            else String c <$> drop_underscores (Some c) s'
        | None => String c <$> drop_underscores (Some c) s'
        end
  end.

(** The leading digits of [s], most significant first, and the rest. *)
Fixpoint take_digits (s : string) : list N * string :=
  match s with
  | EmptyString => ([], EmptyString)
  | String c s' =>
      if Str.is_digit c then
        let '(ds, r) := take_digits s' in (Str.digit_val c :: ds, r)
      else ([], s)
  end.

Definition digits_value (ds : list N) : N :=
  fold_left (fun acc d => (10 * acc + d)%N) ds 0%N.

Definition take_sign (s : string) : bool * string :=
  match s with
  | String c s' =>
      if Str.eqb_ascii c "-"%char then (true, s')
      else if Str.eqb_ascii c "+"%char then (false, s')
      else (false, s)
  | EmptyString => (false, s)
  end.

Definition parse_exponent (s : string) : option Z :=
  match s with
  | EmptyString => Some 0
  | String c s' =>
      if Str.eqb_ascii (Str.lower_char c) "e"%char then
        let '(neg, r) := take_sign s' in
        match take_digits r with
        | (d :: ds, EmptyString) => Some (signed neg (digits_value (d :: ds)))
        | _ => None
        end
      else None
  end.

Definition parse_decimal (neg : bool) (s : string) : option pyfloat :=
  let '(ip, r1) := take_digits s in
  let '(fp, r2) :=
    match r1 with
    | String c r =>
        if Str.eqb_ascii c "."%char then take_digits r else ([], r1)
    | EmptyString => ([], r1)
    end in
  match ip ++ fp with
  | [] => None
  | ds =>
      x ← parse_exponent r2;
      Some (make neg (digits_value ds) (x - Z.of_nat (length fp)))
  end.

Definition parse_unsigned (neg : bool) (s : string) : option pyfloat :=
  let l := Str.lower s in
  if bool_decide (l = "inf") || bool_decide (l = "infinity") then Some (FInf neg)
  else if bool_decide (l = "nan") then Some FNan
  else parse_decimal neg s.

Definition of_string (s : string) : result pyfloat :=
  match drop_underscores None (Str.strip s) with
  | None => Raise ValueError
  | Some t =>
      let '(neg, r) := take_sign t in
      match parse_unsigned neg r with
      | Some f => Ok f
      | None => Raise ValueError
      end
  end.

End Float.

(** ** Values *)

(** What [json.load] returns, and what a cell of a frame holds. *)
#[warnings="-register-all"]
Inductive pyval : Type :=
  | PNone
  | PBool (b : bool)
  | PInt (z : Z)
  | PFloat (f : pyfloat)
  | PStr (s : string)
  | PList (l : list pyval)
  | PDict (d : list (string * pyval)).

(** A Python [dict] with [str] keys, in insertion order. *)
Abbreviation dict V := (list (string * V)).

Fixpoint dict_get {V : Type} (k : string) (d : dict V) : option V :=
  match d with
  | [] => None
  | (k', v) :: d' => if decide (k' = k) then Some v else dict_get k d'
  end.

(** [d[k] = v]: a key already there keeps its place. *)
Fixpoint dict_set {V : Type} (k : string) (v : V) (d : dict V) : dict V :=
  match d with
  | [] => [(k, v)]
  | (k', v') :: d' =>
      if decide (k' = k) then (k, v) :: d' else (k', v') :: dict_set k v d'
  end.

Definition dict_keys {V : Type} (d : dict V) : list string := d.*1.

Definition isinstance_bool (v : pyval) : bool :=
  match v with PBool _ => true | _ => false end.

(** [bool] is a subclass of [int]. *)
Definition isinstance_int (v : pyval) : bool :=
  match v with PBool _ | PInt _ => true | _ => false end.

Definition isinstance_float (v : pyval) : bool :=
  match v with PFloat _ => true | _ => false end.

Definition isinstance_list (v : pyval) : bool :=
  match v with PList _ => true | _ => false end.

Definition isinstance_str (v : pyval) : bool :=
  match v with PStr _ => true | _ => false end.

Definition isinstance_dict (v : pyval) : bool :=
  match v with PDict _ => true | _ => false end.

(** [repr(v)] *)
Fixpoint py_repr (v : pyval) : string :=
  match v with
  | PNone => "None"
  | PBool b => if b then "True" else "False"
  | PInt z => Str.of_Z z
  | PFloat f => Float.repr f
  | PStr s => Str.repr s
  | PList l => "[" +:+ Str.join ", " (map py_repr l) +:+ "]"
  | PDict d =>
      "{" +:+ Str.join ", "
                (map (fun kv => match kv with
                                | (k, x) => Str.repr k +:+ ": " +:+ py_repr x
                                end) d) +:+ "}"
  end.

(** [str(v)] *)
Definition py_str (v : pyval) : string :=
  match v with
  | PStr s => s
  | _ => py_repr v
  end.

(** [len(v)] where the code takes it: of a [str]. *)
Definition py_len (v : pyval) : Z :=
  match v with
  | PStr s => Z.of_nat (String.length s)
  | PList l => Z.of_nat (length l)
  | PDict d => Z.of_nat (length d)
  | _ => 0
  end.

(** [float(v)] *)
Definition py_float (v : pyval) : result pyfloat :=
  match v with
  | PBool b => Ok (Float.of_Z (if b then 1 else 0))
  | PInt z => Ok (Float.of_Z z)
  | PFloat f => Ok f
  | PStr s => Float.of_string s
  | PNone | PList _ | PDict _ => Raise TypeError
  end.

(** [v.items()] *)
Definition py_items (v : pyval) : result (dict pyval) :=
  match v with
  | PDict d => Ok d
  | _ => Raise AttributeError
  end.

(** ** Schema inference *)

(** A field definition: a [dict] with the keys ["name"], ["type"],
    ["required"] and, not always, ["widget"]. *)
Record field : Type := Field {
  f_name : string;
  f_type : string;
  f_required : bool;
  f_widget : option string
}.

Global Instance field_eq_dec : EqDecision field.
Proof. solve_decision. Defined.

Definition guess_field_type (value : pyval) : string :=
  if isinstance_bool value then "boolean"
  else if isinstance_int value || isinstance_float value then "number"
  else if isinstance_list value then "list"
  else "string".

(** The body of the loop of [generate_schema_from_json]. *)
Definition infer_field (item : string * pyval) : field :=
  let '(key, value) := item in
  let field_type := guess_field_type value in
  let widget :=
    if bool_decide (field_type = "string") && isinstance_str value
       && (50 <? py_len value)
    then "textarea" else EmptyString in
  {| f_name := key; f_type := field_type; f_required := false;
     f_widget := Some widget |}.

Definition generate_schema_from_json (data : pyval) : result (list field) :=
  let sample_object :=
    match data with
    | PDict _ => Some data
    | PList (x :: _) => Some x
    | _ => None
    end in
  match sample_object with
  | None => Ok []
  | Some o => items ← py_items o; Ok (infer_field <$> (items : dict pyval))
  end.

(** ** Frames *)

Definition NaN : pyval := PFloat FNan.

(** A [pandas.DataFrame]: the column labels and, per row, one cell per
    column. *)
Record DataFrame : Type := Frame {
  columns : list string;
  rows : list (list pyval)
}.

(** A row as [iterrows] yields it: the cells under their labels. *)
Definition Series : Type := dict pyval.

Definition add_key (cols : list string) (k : string) : list string :=
  if bool_decide (k ∈ cols) then cols else cols ++ [k].

(** The columns of [pd.DataFrame(data)]: the keys of the records, each
    at its first appearance. *)
Definition union_keys (data : list (dict pyval)) : list string :=
  fold_left (fun cols item => fold_left add_key (dict_keys item) cols) data [].

(** [pd.DataFrame(data)] of a list of dicts: a key a record does not
    have gives a missing cell. *)
Definition pd_DataFrame (data : list (dict pyval)) : DataFrame :=
  let cols := union_keys data in
  {| columns := cols;
     rows := (fun item => (fun c => default NaN (dict_get c item)) <$> cols) <$> data |}.

(** [df[col] = value], for a label the frame does not have. *)
Definition add_column (col : string) (value : pyval) (df : DataFrame) : DataFrame :=
  {| columns := columns df ++ [col];
     rows := (fun r => r ++ [value]) <$> rows df |}.

Definition iterrows (df : DataFrame) : list Series :=
  (fun r => zip (columns df) r) <$> rows df.

(** [row.get(name, default)] *)
Definition row_get (row : Series) (name : string) (dflt : pyval) : pyval :=
  default dflt (dict_get name row).

(** [pandas] null test on one object: [None] and NaN. *)
Definition checknull (v : pyval) : bool :=
  match v with
  | PNone => true
  | PFloat f => Float.is_nan f
  | _ => false
  end.

(** The elements of [np.asarray(l, dtype=object)]: nested lists become
    further dimensions as long as all lists of a level have one
    length. *)
Definition same_length_lists (l : list pyval) : option (list (list pyval)) :=
  match l with
  | PList x :: _ =>
      foldr (fun v acc =>
               match v, acc with
               | PList y, Some ls =>
                   if bool_decide (length y = length x) then Some (y :: ls) else None
               | _, _ => None
               end) (Some []) l
  | _ => None
  end.

Fixpoint np_elements (dims : nat) (l : list pyval) : list pyval :=
  match dims with
  | O => l
  | S k =>
      match same_length_lists l with
      | Some ls => np_elements k (concat ls)
      | None => l
      end
  end.

(** [pd.isna(v)]: a [bool] for a scalar, an array of them for a
    list. *)
Inductive isna_result : Type :=
  | IsnaScalar (b : bool)
  | IsnaArray (a : list bool).

Definition pd_isna (v : pyval) : isna_result :=
  match v with
  | PList l => IsnaArray (checknull <$> np_elements 63 l)
  | _ => IsnaScalar (checknull v)
  end.

(** The truth value of what [pd.isna] returns: that of an array is
    defined for one element only (an empty array raises as well, as
    NumPy does since 2.2). *)
Definition isna_truth (r : isna_result) : result bool :=
  match r with
  | IsnaScalar b => Ok b
  | IsnaArray [b] => Ok b
  | IsnaArray _ => Raise ValueError
  end.

(** ** JSON to table *)

(** [{f["name"]: f["type"] for f in schema}] *)
Definition field_types (schema : list field) : dict string :=
  fold_left (fun d f => dict_set (f_name f) (f_type f) d) schema [].

Definition convert_value (types : dict string) (key : string) (value : pyval) : pyval :=
  match dict_get key types, value with
  | Some t, PList l =>
      if bool_decide (t = "list") then PStr (Str.join ", " (py_str <$> l)) else value
  | _, _ => value
  end.

Definition convert_item (types : dict string) (item : dict pyval) : dict pyval :=
  fold_left (fun converted_item kv =>
               dict_set kv.1 (convert_value types kv.1 kv.2) converted_item)
            item [].

Definition convert_for_dataframe (data : list (dict pyval)) (schema : list field)
  : list (dict pyval) :=
  convert_item (field_types schema) <$> data.

(** [app.py], after an import: every schema column the frame lacks is
    added, filled with the empty string. *)
Definition sync_columns (schema : list field) (df : DataFrame) : DataFrame :=
  fold_left (fun df col =>
               if bool_decide (col ∈ columns df) then df
               else add_column col (PStr EmptyString) df)
            (f_name <$> schema) df.

(** The table the editor shows for imported records. *)
Definition to_table (data : list (dict pyval)) (schema : list field) : DataFrame :=
  sync_columns schema (pd_DataFrame (convert_for_dataframe data schema)).

(** ** Table to JSON *)

(** [row.isnull().all() or (row.astype(str).str.strip() == '').all()] *)
Definition row_is_empty (row : Series) : bool :=
  forallb (fun kv => checknull kv.2) row
  || forallb (fun kv => Str.is_blank (py_str kv.2)) row.

(** [pd.isna(val) or str(val).strip() == ''] *)
Definition cell_is_blank (val : pyval) : result bool :=
  b ← isna_truth (pd_isna val);
  if b : bool then Ok true else Ok (Str.is_blank (py_str val)).

Definition blank_value (t : string) : pyval :=
  if bool_decide (t = "list") then PList []
  else if bool_decide (t = "number") then PInt 0
  else if bool_decide (t = "boolean") then PBool false
  else PStr EmptyString.

(** [[v.strip() for v in str(val).split(",") if v.strip()]] *)
Definition coerce_list (val : pyval) : pyval :=
  PList ((fun v => PStr (Str.strip v))
           <$> filter (fun v => negb (Str.is_empty (Str.strip v)))
                      (Str.split Str.comma (py_str val))).

(** The body of the [try]: the float is stored first, then narrowed. *)
Definition number_of (val : pyval) : result pyval :=
  f ← py_float val;
  i ← Float.to_int f;
  if Float.eqb_int f i then Ok (PInt i) else Ok (PFloat f).

Definition coerce_number (val : pyval) : pyval :=
  try_except (number_of val) (PInt 0).

Definition truthy_words : list string := ["true"; "yes"; "1"; "y"].

Definition coerce_boolean (val : pyval) : pyval :=
  match val with
  | PBool _ => val
  | _ => PBool (bool_decide (Str.lower (py_str val) ∈ truthy_words))
  end.

Definition coerce (t : string) (val : pyval) : pyval :=
  if bool_decide (t = "list") then coerce_list val
  else if bool_decide (t = "number") then coerce_number val
  else if bool_decide (t = "boolean") then coerce_boolean val
  else PStr (py_str val).

(** One field of one row: the value stored under the field's name. *)
Definition parse_field (row : Series) (f : field) : result pyval :=
  let val := row_get row (f_name f) (PStr EmptyString) in
  blank ← cell_is_blank val;
  if blank : bool then Ok (blank_value (f_type f)) else Ok (coerce (f_type f) val).

Fixpoint parse_row (row : Series) (schema : list field) (record : dict pyval)
  : result (dict pyval) :=
  match schema with
  | [] => Ok record
  | f :: schema' =>
      v ← parse_field row f;
      parse_row row schema' (dict_set (f_name f) v record)
  end.

Fixpoint parse_rows (rs : list Series) (schema : list field) (parsed : list (dict pyval))
  : result (list (dict pyval)) :=
  match rs with
  | [] => Ok parsed
  | row :: rs' =>
      if row_is_empty row then parse_rows rs' schema parsed
      else
        record ← parse_row row schema [];
        parse_rows rs' schema (parsed ++ [record])
  end.

Definition parse_dataframe (df : DataFrame) (schema : list field)
  : result (list (dict pyval)) :=
  parse_rows (iterrows df) schema [].

(** ** The schema store *)

(** [st.session_state]: the schemas by name and the active schema's
    name. A schema is a list object and a field definition is a dict
    object; both live in the heap and are held by reference, as in
    Python, so that a list copied by [list.copy()] shares its dicts
    with the original. *)
Record Session : Type := Sess {
  schemas : gmap string positive;
  list_objs : gmap positive (list positive);
  dict_objs : gmap positive field;
  active_schema : string
}.

Definition set_schemas (m : gmap string positive) (s : Session) : Session :=
  {| schemas := m; list_objs := list_objs s; dict_objs := dict_objs s;
     active_schema := active_schema s |}.

Definition set_list_objs (h : gmap positive (list positive)) (s : Session) : Session :=
  {| schemas := schemas s; list_objs := h; dict_objs := dict_objs s;
     active_schema := active_schema s |}.

Definition set_dict_objs (h : gmap positive field) (s : Session) : Session :=
  {| schemas := schemas s; list_objs := list_objs s; dict_objs := h;
     active_schema := active_schema s |}.

Definition set_active_schema (a : string) (s : Session) : Session :=
  {| schemas := schemas s; list_objs := list_objs s; dict_objs := dict_objs s;
     active_schema := a |}.

(** The list object at a reference, and the dict object at one. A
    reference the program holds always resolves. *)
Definition list_at (s : Session) (l : positive) : list positive :=
  default [] (list_objs s !! l).

Definition dict_at (s : Session) (d : positive) : field :=
  default (Field EmptyString EmptyString false None) (dict_objs s !! d).

(** A new list object, and a new dict object. *)
Definition new_list (fs : list positive) (s : Session) : positive * Session :=
  let p := fresh (dom (list_objs s)) in
  (p, set_list_objs (<[p := fs]> (list_objs s)) s).

Definition new_dict (f : field) (s : Session) : positive * Session :=
  let p := fresh (dom (dict_objs s)) in
  (p, set_dict_objs (<[p := f]> (dict_objs s)) s).

(** [schemas[schema_name]] *)
Definition schemas_getitem (s : Session) (schema_name : string) : result positive :=
  match schemas s !! schema_name with
  | Some l => Ok l
  | None => Raise KeyError
  end.

(** The field definitions a schema name stands for. *)
Definition fields_of (s : Session) (schema_name : string) : option (list field) :=
  l ← schemas s !! schema_name; Some (dict_at s <$> list_at s l).

(** The session [app.py] starts with. *)
Definition init_session : Session :=
  {| schemas := {[ "Default" := 1%positive ]};
     list_objs := {[ 1%positive := [1%positive; 2%positive] ]};
     dict_objs := {[ 1%positive := Field "name" "string" true None;
                     2%positive := Field "value" "string" false None ]};
     active_schema := "Default" |}.

Definition update_schema (s : Session) (schema_name field_name field_type : string)
    (required : bool) (widget : option string) : result Session :=
  let field :=
    {| f_name := field_name; f_type := field_type; f_required := required;
       f_widget := match widget with
                   | Some w => if Str.is_empty w then None else Some w
                   | None => None
                   end |} in
  let '(p, s1) := new_dict field s in
  l ← schemas_getitem s1 schema_name;
  let fs := list_at s1 l in
  match list_find (fun d => f_name (dict_at s1 d) = field_name) fs with
  | Some (i, _) => Ok (set_list_objs (<[l := <[i := p]> fs]> (list_objs s1)) s1)
  | None => Ok (set_list_objs (<[l := fs ++ [p]]> (list_objs s1)) s1)
  end.

Definition delete_field (s : Session) (schema_name field_name : string) : result Session :=
  l ← schemas_getitem s schema_name;
  let kept := filter (fun d => f_name (dict_at s d) ≠ field_name) (list_at s l) in
  let '(p, s1) := new_list kept s in
  Ok (set_schemas (<[schema_name := p]> (schemas s1)) s1).

(** What a handler of [app.py] does besides changing the session. *)
Inductive ui_event : Type :=
  | NoEvent
  | StRerun
  | StError (msg : string).

(** The radio of the "Create New Schema" box. *)
Inductive schema_kind : Type :=
  | EmptySchema
  | CopyCurrent.

(** The handler of the "Create Schema" button, once pressed. *)
Definition create_schema (s : Session) (selected_schema new_schema_name : string)
    (create_empty : schema_kind) : result (Session * ui_event) :=
  if negb (Str.is_empty new_schema_name) then
    if bool_decide (new_schema_name ∉ dom (schemas s)) then
      fs ← match create_empty with
           | EmptySchema => Ok []
           | CopyCurrent => l ← schemas_getitem s selected_schema; Ok (list_at s l)
           end;
      let '(p, s1) := new_list fs s in
      Ok (set_active_schema new_schema_name
            (set_schemas (<[new_schema_name := p]> (schemas s1)) s1), StRerun)
    else
      Ok (s, StError ("Schema '" +:+ new_schema_name +:+ "' already exists!"))
  else Ok (s, NoEvent).

(** A mutation of a schema, and a run of mutations, each on the schema
    it names. *)
Inductive mutation : Type :=
  | UpsertField (field_name field_type : string) (required : bool) (widget : option string)
  | DeleteField (field_name : string).

Definition mutate (schema_name : string) (s : Session) (m : mutation) : result Session :=
  match m with
  | UpsertField n t r w => update_schema s schema_name n t r w
  | DeleteField n => delete_field s schema_name n
  end.

Fixpoint mutate_all (s : Session) (ms : list (string * mutation)) : result Session :=
  match ms with
  | [] => Ok s
  | (schema_name, m) :: ms' => s' ← mutate schema_name s m; mutate_all s' ms'
  end.

(** ** Importing JSON *)

(** [bool(v)]: the truth value of a value. *)
Definition py_truthy (v : pyval) : bool :=
  match v with
  | PNone => false
  | PBool b => b
  | PInt z => negb (z =? 0)
  | PFloat (FFin _ m _) => negb (m =? 0)%N
  | PFloat _ => true
  | PStr s => negb (Str.is_empty s)
  | PList l => negb (bool_decide (l = []))
  | PDict d => negb (bool_decide (d = []))
  end.

Fixpoint chars (s : string) : list pyval :=
  match s with
  | EmptyString => []
  | String c s' => PStr (String c EmptyString) :: chars s'
  end.

(** What [for item in v] goes through. *)
Definition py_iter (v : pyval) : result (list pyval) :=
  match v with
  | PList l => Ok l
  | PStr s => Ok (chars s)
  | PDict d => Ok (PStr <$> dict_keys d)
  | PNone | PBool _ | PInt _ | PFloat _ => Raise TypeError
  end.

(** The [items] of every element, up to the first that has none. *)
Fixpoint all_items (l : list pyval) : result (list (dict pyval)) :=
  match l with
  | [] => Ok []
  | x :: l' => d ← py_items x; ds ← all_items l'; Ok (d :: ds)
  end.

(** [convert_for_dataframe(raw, schema)] on whatever [json.load]
    returned: the loop asks every element for its [items]. *)
Definition convert_raw (raw : pyval) (schema : list field) : result (list (dict pyval)) :=
  data ← py_iter raw;
  records ← all_items data;
  Ok (convert_for_dataframe records schema).

(** [schema.append(new_field)] on the list object [l]. The dict object
    of a generated field is allocated here, when it is appended: one
    that is not appended is held by nothing. *)
Definition append_field (l : positive) (new_field : field) (s : Session) : Session :=
  let '(d, s1) := new_dict new_field s in
  set_list_objs (<[l := list_at s1 l ++ [d]]> (list_objs s1)) s1.

(** The dict objects of a schema just generated. *)
Fixpoint new_dicts (fs : list field) (s : Session) : list positive * Session :=
  match fs with
  | [] => ([], s)
  | f :: fs' =>
      let '(d, s1) := new_dict f s in
      let '(ds, s2) := new_dicts fs' s1 in
      (d :: ds, s2)
  end.

(** The merge of [app.py]: a schema with fields gains the generated
    fields whose names it lacks; a schema without fields is replaced by
    the generated one. [l] is the list object of the selected schema. *)
Definition merge_schema (s : Session) (selected_schema : string) (l : positive)
    (new_schema : list field) : Session :=
  let schema := list_at s l in
  if negb (bool_decide (schema = [])) then
    let existing_fields := (fun d => f_name (dict_at s d)) <$> schema in
    foldl (fun s new_field =>
             if bool_decide (f_name new_field ∉ existing_fields)
             then append_field l new_field s else s)
          s new_schema
  else
    let '(ds, s1) := new_dicts new_schema s in
    let '(p, s2) := new_list ds s1 in
    set_schemas (<[selected_schema := p]> (schemas s2)) s2.

(** [st.session_state.schemas[schema_name]], as the field definitions
    the list holds. *)
Definition fields_of_getitem (s : Session) (schema_name : string) : result (list field) :=
  l ← schemas_getitem s schema_name; Ok (dict_at s <$> list_at s l).

(** The radio of the import box, and what the handler shows. *)
Inductive import_option : Type :=
  | UpdateSchemaAndData
  | UpdateDataOnly.

Inductive import_event : Type :=
  | ImportIgnored
  | ImportSuccess
  | ImportError (e : exn).

(** The handler of the "Import" button for parsed JSON [raw]: the
    session and the table after it, and what is shown. [schema], the
    list object [l], was looked up before the handler, outside its
    [try]. An exception of the [try] block is caught and shown; what
    was changed before it stays changed. *)
Definition import_json (s : Session) (current_data : option DataFrame)
    (selected_schema : string) (raw : pyval) (import_options : import_option)
  : result (Session * option DataFrame * import_event) :=
  l ← schemas_getitem s selected_schema;
  if py_truthy raw then
    let raw := if isinstance_dict raw then PList [raw] else raw in
    let merged :=
      match import_options with
      | UpdateSchemaAndData =>
          new_schema ← generate_schema_from_json raw;
          Ok (merge_schema s selected_schema l new_schema)
      | UpdateDataOnly => Ok s
      end in
    match merged with
    | Raise e => Ok (s, current_data, ImportError e)
    | Ok s1 =>
        match schema ← fields_of_getitem s1 selected_schema; convert_raw raw schema with
        | Raise e => Ok (s1, current_data, ImportError e)
        | Ok df_data => Ok (s1, Some (pd_DataFrame df_data), ImportSuccess)
        end
    end
  else Ok (s, current_data, ImportIgnored).

(** * Vocabulary of the properties *)

(** ** The schema store *)

(** What the program keeps true of its session: two schema names never
    share a list object, every reference resolves, and no schema has
    the empty name. *)
Record wf (s : Session) : Prop := Wf {
  wf_no_alias : ∀ n1 n2 l,
    schemas s !! n1 = Some l → schemas s !! n2 = Some l → n1 = n2;
  wf_lists : ∀ n l, schemas s !! n = Some l → is_Some (list_objs s !! l);
  wf_dicts : ∀ n l d,
    schemas s !! n = Some l → d ∈ list_at s l → is_Some (dict_objs s !! d);
  wf_named : schemas s !! EmptyString = None
}.

(** The pure reading of the two mutations, on the field definitions
    themselves. *)
Definition upsert (f : field) (fs : list field) : list field :=
  match list_find (fun g => f_name g = f_name f) fs with
  | Some (i, _) => <[i := f]> fs
  | None => fs ++ [f]
  end.

Definition remove (field_name : string) (fs : list field) : list field :=
  filter (fun g => f_name g ≠ field_name) fs.

(** The field definition [update_schema] builds. *)
Definition new_field (field_name field_type : string) (required : bool)
    (widget : option string) : field :=
  {| f_name := field_name; f_type := field_type; f_required := required;
     f_widget := match widget with
                 | Some w => if Str.is_empty w then None else Some w
                 | None => None
                 end |}.

Definition apply_mutation (m : mutation) (fs : list field) : list field :=
  match m with
  | UpsertField n t r w => upsert (new_field n t r w) fs
  | DeleteField n => remove n fs
  end.

(** The mutations of a run that are on the schema [n], and what they
    make of its fields. *)
Definition mutations_on (n : string) (ms : list (string * mutation)) : list mutation :=
  (filter (fun x => x.1 = n) ms).*2.

Definition apply_mutations (ms : list mutation) (fs : list field) : list field :=
  foldl (fun fs m => apply_mutation m fs) fs ms.

(** The reading of claim C3 as it is written: the definition found
    under the field's name holds the very widget string passed. *)
Definition stores_widget_literally (s : Session) (n fn ft : string) (rq : bool)
    (w : string) : Prop :=
  ∃ s' fs i f, update_schema s n fn ft rq (Some w) = Ok s'
    ∧ fields_of s' n = Some fs
    ∧ list_find (fun g => f_name g = fn) fs = Some (i, f)
    ∧ f_widget f = Some w.

(** The reading of claim C7 as it is written: creating the schema
    fails with an exception, a typed failure that reaches the caller. *)
Definition raises_DuplicateNameError (s : Session) (selected_schema name : string)
    (kind : schema_kind) : Prop :=
  ∃ e, create_schema s selected_schema name kind = Raise e.

(** Sessions that differ by dict objects allocated later. *)
Definition extends (s s1 : Session) : Prop :=
  schemas s1 = schemas s ∧ list_objs s1 = list_objs s
  ∧ active_schema s1 = active_schema s
  ∧ ∀ d, is_Some (dict_objs s !! d) →
         is_Some (dict_objs s1 !! d) ∧ dict_at s1 d = dict_at s d.

(** The fields a schema has after the merge of an import: its own,
    then the generated fields whose names it lacks. *)
Definition merge_fields (fs new_schema : list field) : list field :=
  fs ++ filter (fun f => f_name f ∉ f_name <$> fs) new_schema.

(** The object a schema is generated from has no key twice, as every
    object [json.load] returns. *)
Definition sample_keys_distinct (raw : pyval) : Prop :=
  match raw with
  | PDict d | PList (PDict d :: _) => NoDup (dict_keys d)
  | _ => True
  end.

(** The types the field form offers. *)
Definition four_types : list string := ["string"; "number"; "boolean"; "list"].

(** Fields of distinct names, each of one of the four types. *)
Definition tidy (fs : list field) : Prop :=
  NoDup (f_name <$> fs) ∧ ∀ f, f ∈ fs → f_type f ∈ four_types.

(** What one press of a button makes of the session. The schema
    selected is one of the session's, as the select box has it, and the
    type of a field is one the field form offers. *)
Inductive press (s : Session) : Session → Prop :=
  | press_create sel name kind s' ev :
      is_Some (schemas s !! sel) →
      create_schema s sel name kind = Ok (s', ev) → press s s'
  | press_update sel fn ft rq w s' :
      is_Some (schemas s !! sel) →
      ft ∈ four_types →
      update_schema s sel fn ft rq w = Ok s' → press s s'
  | press_delete sel fn s' :
      is_Some (schemas s !! sel) →
      delete_field s sel fn = Ok s' → press s s'
  | press_import sel data raw opt s' data' ev :
      is_Some (schemas s !! sel) →
      sample_keys_distinct raw →
      import_json s data sel raw opt = Ok (s', data', ev) → press s s'.

(** The sessions the program gets to from the one it starts with. *)
Definition reachable : Session → Prop := rtc press init_session.

(** What holds of every session the program gets to: the store is
    well formed, the schema the program starts with is still there, and
    no schema has two fields of one name or a field of another type
    than the four. *)
Definition consistent (s : Session) : Prop :=
  wf s
  ∧ is_Some (schemas s !! "Default")
  ∧ ∀ n fs, fields_of s n = Some fs → tidy fs.

(** ** Inference *)

(** The type the specification infers for a value: boolean first, then
    number (integer or float), then list, and string for everything
    else (null and nested objects among them). *)
Definition inferred_type (v : pyval) : string :=
  match v with
  | PBool _ => "boolean"
  | PInt _ | PFloat _ => "number"
  | PList _ => "list"
  | PNone | PStr _ | PDict _ => "string"
  end.

(** A [str] of more than 50 characters. *)
Definition long_text (v : pyval) : Prop :=
  ∃ s, v = PStr s ∧ (50 < String.length s)%nat.

(** ** Strings and numbers *)

(** The string starts with a character [strip] keeps. *)
Definition first_not_space (s : string) : Prop :=
  match s with
  | String c _ => Str.is_space c = false
  | EmptyString => False
  end.

(** Trimming changes nothing; no comma inside. *)
Definition trimmed (s : string) : Prop := Str.strip s = s.
Definition comma_free (s : string) : Prop := Str.contains Str.comma s = false.







(** The same pieces, by the functions of the code. *)
Definition list_pieces (s : string) : list string :=
  filter (fun p => p ≠ EmptyString) (Str.strip <$> Str.split Str.comma s).

(** The float [f] is exactly the integer [z]. *)
Definition represents (f : pyfloat) (z : Z) : Prop :=
  match f with
  | FFin neg m e =>
      if 0 <=? e then Float.signed neg m * 10 ^ e = z
      else Float.signed neg m = z * 10 ^ (- e)
  | FNan | FInf _ => False
  end.

Definition finite (f : pyfloat) : Prop :=
  match f with
  | FFin _ _ _ => True
  | FNan | FInf _ => False
  end.


(** ** Numerals *)










(** ** Tables *)

(** A cell the reconstruction counts as missing or blank: null, or a
    string that is empty or all whitespace. *)
Definition blank_cell (v : pyval) : Prop :=
  checknull v = true ∨ ∃ s, v = PStr s ∧ Str.is_blank s = true.

(** The transform of one record, key by key. *)
Definition convert_entry (types : dict string) (kv : string * pyval) : string * pyval :=
  (kv.1, convert_value types kv.1 kv.2).

(** The cell of a record under a column label: the transformed value
    when the record has the key, a missing cell when only another
    record has it. *)
Definition record_cell (types : dict string) (item : dict pyval) (c : string) : pyval :=
  default NaN (convert_value types c <$> dict_get c item).

(** The keys of the records, record after record, and what it is for
    labels to stand in the order in which these keys first appear:
    they are the keys, each once, and of two labels the earlier one is
    in a prefix of the keys that does not have the later one. *)
Definition record_keys (records : list (dict pyval)) : list string :=
  concat (dict_keys <$> records).

Definition appears_before (ks : list string) (k1 k2 : string) : Prop :=
  ∃ p, p `prefix_of` ks ∧ k1 ∈ p ∧ k2 ∉ p.

Definition in_order_of (ks cols : list string) : Prop :=
  (∀ k, k ∈ cols ↔ k ∈ ks)
  ∧ ∀ i j k1 k2, cols !! i = Some k1 → cols !! j = Some k2 → (i < j)%nat →
                 appears_before ks k1 k2.

Definition first_appearance (records : list (dict pyval)) (cols : list string) : Prop :=
  NoDup cols ∧ in_order_of (record_keys records) cols.

(** The reading of claim C2 as it is written: the columns of the table
    are the schema's field names, in schema order, and a schema field a
    record lacks has the empty string in that record's row. *)
Definition table_as_claimed (records : list (dict pyval)) (schema : list field) : Prop :=
  let df := to_table records schema in
  columns df = f_name <$> schema
  ∧ ∀ i item row f,
      records !! i = Some item → iterrows df !! i = Some row → f ∈ schema →
      dict_get (f_name f) item = None →
      dict_get (f_name f) row = Some (PStr EmptyString).

(** ** Round trip *)

(** A value of a field of type [t]; the predicates say which strings,
    list elements, integers and floats are meant. *)
Inductive fits (P_str P_elem : string → Prop) (P_int : Z → Prop)
    (P_float : pyfloat → Prop) : string → pyval → Prop :=
  | fits_string s : P_str s → fits P_str P_elem P_int P_float "string" (PStr s)
  | fits_int z : P_int z → fits P_str P_elem P_int P_float "number" (PInt z)
  | fits_float g : P_float g → fits P_str P_elem P_int P_float "number" (PFloat g)
  | fits_boolean b : fits P_str P_elem P_int P_float "boolean" (PBool b)
  | fits_list es :
      Forall P_elem es → fits P_str P_elem P_int P_float "list" (PList (PStr <$> es)).

(** The representative values of claim C1 as it is written: any string,
    any number, lists of non-empty, comma-free strings. *)
Definition representative_as_claimed : string → pyval → Prop :=
  fits (fun _ => True) (fun e => e ≠ EmptyString ∧ comma_free e)
       (fun _ => True) (fun _ => True).

(** The representative values for which the round trip holds: a string
    is empty or has a character that is no whitespace; a list element
    is moreover unchanged by trimming; an integer is of magnitude at
    most 2^53; a float is finite and, when it is whole, of magnitude at
    most 2^53. Up to 2^53 a double holds every integer, so that
    [float] and [int] lose nothing. *)
Definition representative : string → pyval → Prop :=
  fits (fun s => s = EmptyString ∨ Str.is_blank s = false)
       (fun e => trimmed e ∧ e ≠ EmptyString ∧ comma_free e)
       (fun z => Z.abs z ≤ 2 ^ 53)
       (fun g => finite g ∧ ∀ z, represents g z → Z.abs z ≤ 2 ^ 53).

(** A schema with a field of each of the four types. *)
Definition has_all_types (schema : list field) : Prop :=
  ∀ t, t ∈ ["string"; "number"; "boolean"; "list"] →
       ∃ f, f ∈ schema ∧ f_type f = t.

(** The record has the schema's fields as its keys, with values that
    fit the types. *)
Definition record_of (P : string → pyval → Prop) (schema : list field)
    (r : dict pyval) : Prop :=
  NoDup (f_name <$> schema)
  ∧ NoDup (dict_keys r)
  ∧ (∀ k, k ∈ dict_keys r → k ∈ f_name <$> schema)
  ∧ ∀ f, f ∈ schema → ∃ v, dict_get (f_name f) r = Some v ∧ P (f_type f) v.

(** Number narrowing: a float that is an integer becomes that integer;
    every other value stays. *)
Definition narrowed (v v' : pyval) : Prop :=
  match v with
  | PFloat g =>
      (∃ z, represents g z ∧ v' = PInt z) ∨ ((∀ z, ¬ represents g z) ∧ v' = v)
  | _ => v' = v
  end.

(** Two records equal as dicts, up to narrowing. *)
Definition record_narrowed (r r' : dict pyval) : Prop :=
  NoDup (dict_keys r')
  ∧ (∀ k, k ∈ dict_keys r' ↔ k ∈ dict_keys r)
  ∧ ∀ k v, dict_get k r = Some v → ∃ v', dict_get k r' = Some v' ∧ narrowed v v'.

Definition roundtrip (schema : list field) (r : dict pyval) : Prop :=
  ∃ r', parse_dataframe (to_table [r] schema) schema = Ok [r']
        ∧ record_narrowed r r'.

(** A schema with one field of each type, and records for it. *)
Definition four_fields : list field :=
  [Field "s" "string" false None; Field "n" "number" false None;
   Field "b" "boolean" false None; Field "tags" "list" false None].

Definition four_values (s n b tags : pyval) : dict pyval :=
  [("s", s); ("n", n); ("b", b); ("tags", tags)].

(** ** Exported records *)

(** The values the reconstruction stores under a field of type [t]: a
    list of trimmed, non-empty, comma-free strings; an integer, or a
    finite float that is no integer; a boolean; for every other type a
    string that is empty or has a character that is no whitespace. *)
Definition exported (t : string) (v : pyval) : Prop :=
  if bool_decide (t = "list") then
    ∃ es, v = PList (PStr <$> es)
          ∧ Forall (fun e => trimmed e ∧ e ≠ EmptyString ∧ comma_free e) es
  else if bool_decide (t = "number") then
    (∃ z, v = PInt z) ∨ (∃ g, v = PFloat g ∧ finite g ∧ ∀ z, ¬ represents g z)
  else if bool_decide (t = "boolean") then ∃ b, v = PBool b
  else ∃ s, v = PStr s ∧ (s = EmptyString ∨ Str.is_blank s = false).

(** A record with the schema's names as its keys, in schema order, and
    under each a value as exported for the field's type. *)
Definition exported_record (schema : list field) (r : dict pyval) : Prop :=
  dict_keys r = f_name <$> schema
  ∧ ∀ f, f ∈ schema → ∃ v, dict_get (f_name f) r = Some v ∧ exported (f_type f) v.

(** A table no cell of which holds a list. *)
Definition scalar_cells (df : DataFrame) : Prop :=
  Forall (Forall (fun v => isinstance_list v = false)) (rows df).

(** The rows the reconstruction does not skip. *)
Definition kept_rows (df : DataFrame) : list Series :=
  filter (fun row => row_is_empty row = false) (iterrows df).



(** The text of a number: it starts with a digit or a minus sign; the
    text of a float has a second character as well. *)
Definition number_first (s : string) : Prop :=
  match s with
  | String c _ => Str.is_digit c = true ∨ c = "-"%char
  | EmptyString => False
  end.

Definition digit_first (s : string) : Prop :=
  match s with
  | String c _ => Str.is_digit c = true
  | EmptyString => False
  end.

Definition starts_like_number (s : string) : Prop :=
  match s with
  | String c (String _ _) => Str.is_digit c = true ∨ c = "-"%char
  | _ => False
  end.

(** * Properties *)

(** ** The schema store: references and their invariant *)

Section store.

Implicit Types (s : Session) (l p d : positive) (n : string).

Lemma fresh_list_obj s : list_objs s !! fresh (dom (list_objs s)) = None.
Proof. apply not_elem_of_dom, is_fresh. Qed.

Lemma fresh_dict_obj s : dict_objs s !! fresh (dom (dict_objs s)) = None.
Proof. apply not_elem_of_dom, is_fresh. Qed.

Lemma wf_init : wf init_session.
Proof.
  split; simpl.
  - intros n1 n2 l H1 H2.
    apply lookup_singleton_Some in H1 as [<- _].
    apply lookup_singleton_Some in H2 as [<- _]. done.
  - intros n l H. apply lookup_singleton_Some in H as [_ <-].
    rewrite lookup_singleton_eq. eauto.
  - intros n l d H Hd. apply lookup_singleton_Some in H as [_ <-].
    unfold list_at in Hd. simpl in Hd. rewrite lookup_singleton_eq in Hd.
    simpl in Hd. apply elem_of_cons in Hd as [->|Hd].
    { by rewrite lookup_insert_eq. }
    apply list_elem_of_singleton in Hd as ->.
    rewrite lookup_insert_ne; [|done]. by rewrite lookup_singleton_eq.
  - by apply lookup_singleton_ne.
Qed.

(** A dict object allocated later does not change what the references
    of a list resolve to. *)
Lemma dict_at_new_dict s f d :
  is_Some (dict_objs s !! d) → dict_at (new_dict f s).2 d = dict_at s d.
Proof.
  intros [g Hg]. unfold dict_at, new_dict. simpl.
  rewrite lookup_insert_ne; [done|].
  intros <-. by rewrite fresh_dict_obj in Hg.
Qed.

Lemma dict_at_fresh s f : dict_at (new_dict f s).2 (new_dict f s).1 = f.
Proof. unfold dict_at, new_dict. simpl. by rewrite lookup_insert_eq. Qed.

Lemma fields_new_dict s f (fs : list positive) :
  (∀ d, d ∈ fs → is_Some (dict_objs s !! d)) →
  dict_at (new_dict f s).2 <$> fs = dict_at s <$> fs.
Proof.
  intros H. apply list_eq. intros i. rewrite !list_lookup_fmap.
  destruct (fs !! i) as [d|] eqn:E; [|done]. simpl. f_equal.
  apply dict_at_new_dict, H. by eapply list_elem_of_lookup_2.
Qed.

Lemma elem_of_list_insert_inv {A} (xs : list A) i (x y : A) :
  y ∈ <[i := x]> xs → y = x ∨ y ∈ xs.
Proof.
  intros [j Hj]%list_elem_of_lookup.
  apply list_lookup_insert_Some in Hj as [(_ & -> & _) | (_ & Hj)]; [by left|].
  right. by eapply list_elem_of_lookup_2.
Qed.

Lemma find_field_fmap (g : positive → field) fn (fs : list positive) :
  list_find (fun x => f_name x = fn) (g <$> fs)
  = prod_map id g <$> list_find (fun d => f_name (g d) = fn) fs.
Proof.
  exact (list_find_fmap g (fun x => f_name x = fn) fs).
Qed.

(** [update_schema] on an existing schema: the schema becomes the
    upsert of its fields, the other schemas keep theirs. *)
Lemma update_schema_spec s n l fn ft rq w :
  wf s → schemas s !! n = Some l →
  ∃ s', update_schema s n fn ft rq w = Ok s'
    ∧ wf s'
    ∧ schemas s' = schemas s
    ∧ active_schema s' = active_schema s
    ∧ fields_of s' n = upsert (new_field fn ft rq w) <$> fields_of s n
    ∧ ∀ n', n' ≠ n → fields_of s' n' = fields_of s n'.
Proof.
  intros Hwf Hl. unfold update_schema. fold (new_field fn ft rq w).
  set (fld := new_field fn ft rq w).
  pose proof (fresh_dict_obj s) as Hfresh.
  pose proof (fields_new_dict s fld) as Hsame.
  pose proof (dict_at_fresh s fld) as Hnew.
  unfold new_dict in *. simpl in *.
  set (p := fresh (dom (dict_objs s))) in *.
  set (s1 := set_dict_objs (<[p:=fld]> (dict_objs s)) s) in *.
  unfold schemas_getitem. simpl. rewrite Hl. simpl.
  set (fs := list_at s1 l).
  assert (Hfs : fs = list_at s l) by done.
  assert (Hin : ∀ d, d ∈ fs → is_Some (dict_objs s !! d)).
  { intros d Hd. eapply wf_dicts; eauto. }
  assert (Hspec : ∀ fs',
    (∀ d, d ∈ fs' → d = p ∨ d ∈ fs) →
    let s' := set_list_objs (<[l:=fs']> (list_objs s1)) s1 in
    wf s' ∧ schemas s' = schemas s ∧ active_schema s' = active_schema s
    ∧ fields_of s' n = Some (dict_at s1 <$> fs')
    ∧ ∀ n', n' ≠ n → fields_of s' n' = fields_of s n').
  { intros fs' Hfs' s'. split_and!; try done.
    - split; simpl.
      + apply Hwf.
      + intros n' l' Hl'. destruct (decide (l' = l)) as [->|Hne].
        * rewrite lookup_insert_eq. eauto.
        * rewrite lookup_insert_ne; [|done]. by eapply wf_lists.
      + intros n' l' d Hl' Hd. apply lookup_insert_is_Some'.
        unfold list_at in Hd. simpl in Hd.
        destruct (decide (l' = l)) as [->|Hne].
        * rewrite lookup_insert_eq in Hd. simpl in Hd.
          destruct (Hfs' d Hd) as [->|Hd']; [by left|]. right. by apply Hin.
        * rewrite lookup_insert_ne in Hd; [|done]. right.
          by eapply (wf_dicts s Hwf n' l').
      + apply Hwf.
    - unfold fields_of. simpl. rewrite Hl. simpl. f_equal.
      unfold list_at. simpl. by rewrite lookup_insert_eq.
    - intros n' Hn'. unfold fields_of. simpl.
      destruct (schemas s !! n') as [l'|] eqn:Hl'; [|done]. simpl. f_equal.
      assert (l' ≠ l) as Hne.
      { intros ->. apply Hn'. by eapply (wf_no_alias s Hwf). }
      unfold list_at at 1. simpl. rewrite lookup_insert_ne; [|done].
      fold (list_at s l'). apply Hsame.
      intros d Hd. by eapply (wf_dicts s Hwf n' l'). }
  assert (Hfields : fields_of s n = Some (dict_at s <$> fs)).
  { unfold fields_of. by rewrite Hl. }
  rewrite Hfields. simpl. unfold upsert.
  rewrite <- (Hsame fs Hin), find_field_fmap. fold s1.
  destruct (list_find _ fs) as [[i d]|] eqn:Hfind; simpl.
  - eexists. split; [done|].
    destruct (Hspec (<[i:=p]> fs)) as (? & ? & ? & Hf & ?).
    { intros d' Hd'. by apply elem_of_list_insert_inv in Hd'. }
    split_and!; try done.
    etrans; [exact Hf|]. f_equal. rewrite list_fmap_insert. by rewrite Hnew.
  - eexists. split; [done|].
    destruct (Hspec (fs ++ [p])) as (? & ? & ? & Hf & ?).
    { intros d' [Hd'|Hd']%elem_of_app; [by right|].
      left. by apply list_elem_of_singleton in Hd'. }
    split_and!; try done.
    etrans; [exact Hf|]. f_equal. rewrite fmap_app. simpl. by rewrite Hnew.
Qed.

Lemma remove_fmap (g : positive → field) fn (fs : list positive) :
  remove fn (g <$> fs) = g <$> filter (fun d => f_name (g d) ≠ fn) fs.
Proof.
  unfold remove. induction fs as [|d fs IH]; [done|].
  rewrite fmap_cons, !filter_cons, IH. by case_decide.
Qed.

(** A list object allocated later is no list the schemas hold. *)
Lemma new_list_spec s (fs : list positive) n :
  wf s →
  (∀ d, d ∈ fs → is_Some (dict_objs s !! d)) →
  let p := (new_list fs s).1 in
  let s' := set_schemas (<[n := p]> (schemas (new_list fs s).2)) (new_list fs s).2 in
  n ≠ EmptyString →
  wf s'
  ∧ fields_of s' n = Some (dict_at s <$> fs)
  ∧ ∀ n', n' ≠ n → fields_of s' n' = fields_of s n'.
Proof.
  intros Hwf Hfs p s' Hn. pose proof (fresh_list_obj s) as Hfresh.
  unfold new_list in *. simpl in *. fold p in Hfresh.
  assert (Hp : ∀ n' l', schemas s !! n' = Some l' → l' ≠ p).
  { intros n' l' Hl' ->. apply (wf_lists s Hwf) in Hl' as [? Hl'].
    by rewrite Hfresh in Hl'. }
  assert (Hother : ∀ n' l', n' ≠ n → schemas s !! n' = Some l' → list_at s' l' = list_at s l').
  { intros n' l' Hne Hl'. unfold list_at. simpl.
    rewrite lookup_insert_ne; [done|]. intros <-. by eapply Hp. }
  split_and!.
  - split; simpl.
    + intros n1 n2 l H1 H2.
      apply lookup_insert_Some in H1 as [[<- <-]|[Hn1 H1]];
        apply lookup_insert_Some in H2 as [[<- E2]|[Hn2 H2]]; try done.
      * by destruct (Hp _ _ H2).
      * subst l. by destruct (Hp _ _ H1).
      * by eapply (wf_no_alias s Hwf).
    + intros n' l' Hl'. apply lookup_insert_is_Some'.
      apply lookup_insert_Some in Hl' as [[_ <-]|[_ Hl']]; [by left|].
      right. by eapply wf_lists.
    + intros n' l' d Hl' Hd.
      apply lookup_insert_Some in Hl' as [[_ <-]|[Hne Hl']].
      * unfold list_at in Hd. simpl in Hd. rewrite lookup_insert_eq in Hd.
        by apply Hfs.
      * rewrite (Hother n' l') in Hd by done. by eapply (wf_dicts s Hwf n' l').
    + rewrite lookup_insert_ne; [apply Hwf|done].
  - unfold fields_of. simpl. rewrite lookup_insert_eq. simpl. f_equal.
    unfold list_at. simpl. by rewrite lookup_insert_eq.
  - intros n' Hne. unfold fields_of. simpl.
    rewrite lookup_insert_ne by done.
    destruct (schemas s !! n') as [l'|] eqn:Hl'; [|done]. simpl. f_equal.
    f_equal. by apply (Hother n' l').
Qed.

(** [delete_field] on an existing schema: the schema loses the fields
    of that name, the other schemas keep theirs. *)
Lemma delete_field_spec s n l fn :
  wf s → schemas s !! n = Some l →
  ∃ s', delete_field s n fn = Ok s'
    ∧ wf s'
    ∧ is_Some (schemas s' !! n)
    ∧ fields_of s' n = remove fn <$> fields_of s n
    ∧ ∀ n', n' ≠ n → fields_of s' n' = fields_of s n'.
Proof.
  intros Hwf Hl. unfold delete_field, schemas_getitem. rewrite Hl. simpl.
  set (kept := filter (fun d => f_name (dict_at s d) ≠ fn) (list_at s l)).
  assert (Hn : n ≠ EmptyString).
  { intros ->. by rewrite (wf_named s Hwf) in Hl. }
  destruct (new_list_spec s kept n Hwf) as (Hwf' & Hf & Ho); [|done|].
  { intros d [_ Hd]%list_elem_of_filter. by eapply (wf_dicts s Hwf n l). }
  eexists. split; [done|]. split_and!; try done.
  - simpl. rewrite lookup_insert_eq. eauto.
  - etrans; [exact Hf|]. unfold fields_of. rewrite Hl. simpl. f_equal.
    by rewrite remove_fmap.
Qed.

(** The "Create Schema" handler on a new name, copying a schema. *)
Lemma create_schema_copy_spec s sel new l :
  wf s → new ≠ EmptyString → schemas s !! new = None →
  schemas s !! sel = Some l →
  ∃ s', create_schema s sel new CopyCurrent = Ok (s', StRerun)
    ∧ wf s'
    ∧ fields_of s' new = fields_of s sel
    ∧ ∀ n', n' ≠ new → fields_of s' n' = fields_of s n'.
Proof.
  intros Hwf Hnew Hfree Hl. unfold create_schema.
  destruct new as [|c new]; [done|]. simpl.
  rewrite bool_decide_eq_true_2 by by apply not_elem_of_dom.
  unfold schemas_getitem. rewrite Hl. simpl.
  destruct (new_list_spec s (list_at s l) (String c new) Hwf) as (Hwf' & Hf & Ho);
    [|done|].
  { intros d Hd. by eapply (wf_dicts s Hwf sel l). }
  eexists. split; [done|]. split_and!.
  - destruct Hwf'. by split.
  - etrans; [exact Hf|]. unfold fields_of. by rewrite Hl.
  - exact Ho.
Qed.

Lemma fields_of_is_Some s n : is_Some (fields_of s n) ↔ is_Some (schemas s !! n).
Proof.
  unfold fields_of. destruct (schemas s !! n); simpl.
  - split; eauto.
  - split; by intros [].
Qed.

(** One mutation of an existing schema. *)
Lemma mutate_spec s n m :
  wf s → is_Some (schemas s !! n) →
  ∃ s', mutate n s m = Ok s'
    ∧ wf s'
    ∧ (∀ n', is_Some (schemas s' !! n') ↔ is_Some (schemas s !! n'))
    ∧ fields_of s' n = apply_mutation m <$> fields_of s n
    ∧ ∀ n', n' ≠ n → fields_of s' n' = fields_of s n'.
Proof.
  intros Hwf Hn.
  assert (∃ s', mutate n s m = Ok s' ∧ wf s' ∧ is_Some (schemas s' !! n)
            ∧ fields_of s' n = apply_mutation m <$> fields_of s n
            ∧ ∀ n', n' ≠ n → fields_of s' n' = fields_of s n')
    as (s' & Hs' & Hwf' & Hn' & Hf & Ho).
  { destruct Hn as [l Hl]. destruct m as [fn ft rq w|fn]; simpl.
    - destruct (update_schema_spec s n l fn ft rq w Hwf Hl)
        as (s' & -> & ? & Hs & _ & ? & ?).
      exists s'. split_and!; try done. rewrite Hs. eauto.
    - destruct (delete_field_spec s n l fn Hwf Hl) as (s' & -> & ? & ? & ? & ?).
      by exists s'. }
  exists s'. split_and!; try done.
  intros n'. destruct (decide (n' = n)) as [->|Hne]; [tauto|].
  by rewrite <- !fields_of_is_Some, Ho.
Qed.

Lemma mutations_on_cons_eq n m ms :
  mutations_on n ((n, m) :: ms) = m :: mutations_on n ms.
Proof. unfold mutations_on. by rewrite filter_cons_True. Qed.

Lemma mutations_on_cons_ne n n' m ms :
  n' ≠ n → mutations_on n ((n', m) :: ms) = mutations_on n ms.
Proof. intros H. unfold mutations_on. by rewrite filter_cons_False. Qed.

(** A run of mutations of existing schemas: it ends, and each schema
    has the fields its own mutations make of the fields it had. *)
Lemma mutate_all_spec ms : ∀ s,
  wf s → (∀ x, x ∈ ms → is_Some (schemas s !! x.1)) →
  ∃ s', mutate_all s ms = Ok s'
    ∧ wf s'
    ∧ ∀ n, fields_of s' n = apply_mutations (mutations_on n ms) <$> fields_of s n.
Proof.
  induction ms as [|[n m] ms IH]; intros s Hwf Hms; simpl.
  - exists s. split_and!; try done. intros n. by destruct (fields_of s n).
  - destruct (mutate_spec s n m Hwf) as (s1 & -> & Hwf1 & Hdom & Hf1 & Ho1).
    { apply (Hms (n, m)), elem_of_cons. by left. }
    simpl. destruct (IH s1 Hwf1) as (s2 & -> & Hwf2 & Hf2).
    { intros x Hx. apply Hdom, Hms, elem_of_cons. by right. }
    exists s2. split_and!; try done. intros n'. rewrite Hf2.
    destruct (decide (n = n')) as [->|Hne].
    + rewrite Hf1, mutations_on_cons_eq. by destruct (fields_of s n').
    + rewrite Ho1, mutations_on_cons_ne by done. done.
Qed.

End store.

(** ** Upserting a field *)

Lemma upsert_find (f : field) (fs : list field) :
  ∃ i, list_find (fun g => f_name g = f_name f) (upsert f fs) = Some (i, f).
Proof.
  unfold upsert.
  destruct (list_find _ fs) as [[i g]|] eqn:Hfind.
  - exists i. apply list_find_Some in Hfind as (Hi & _ & Hbefore).
    apply list_find_Some. split_and!; [|done|].
    + apply list_lookup_insert_eq. by eapply lookup_lt_Some.
    + intros j y Hj Hlt. rewrite list_lookup_insert_ne in Hj by lia.
      by eapply Hbefore.
  - exists (0 + length fs)%nat.
    rewrite list_find_app_r by done. simpl. by rewrite decide_True.
Qed.

(** What a lookup by name finds after [update_schema]: the definition
    built from the arguments. *)
Lemma update_schema_lookup s n fn ft rq w :
  wf s → is_Some (schemas s !! n) →
  ∃ s' fs i, update_schema s n fn ft rq w = Ok s'
    ∧ fields_of s' n = Some fs
    ∧ list_find (fun g => f_name g = fn) fs = Some (i, new_field fn ft rq w).
Proof.
  intros Hwf [l Hl].
  destruct (update_schema_spec s n l fn ft rq w Hwf Hl) as (s' & Hs' & _ & _ & _ & Hf & _).
  assert (is_Some (fields_of s n)) as [fs0 Hfs0].
  { unfold fields_of. rewrite Hl. eauto. }
  rewrite Hfs0 in Hf. simpl in Hf.
  destruct (upsert_find (new_field fn ft rq w) fs0) as [i Hi].
  by exists s', (upsert (new_field fn ft rq w) fs0), i.
Qed.

(** C3, at a concrete input: upserting a field with the widget [""]
    into the "Default" schema of the initial session stores a
    definition with no widget entry, not one holding [""]. *)
Lemma upsert_empty_widget_is_omitted :
  ¬ stores_widget_literally init_session "Default" "note" "string" false EmptyString.
Proof.
  intros (s' & fs & i & f & Hs' & Hfs & Hfind & Hw).
  destruct (update_schema_lookup init_session "Default" "note" "string" false
              (Some EmptyString) wf_init) as (s1 & fs1 & i1 & Hs1 & Hfs1 & Hfind1).
  { simpl. rewrite lookup_singleton_eq. eauto. }
  rewrite Hs1 in Hs'. injection Hs' as <-.
  rewrite Hfs1 in Hfs. injection Hfs as <-.
  rewrite Hfind1 in Hfind. injection Hfind as _ <-.
  discriminate Hw.
Qed.

(** C3 (amended): for every well-formed session, existing schema,
    field name, type, required flag and widget string, [update_schema]
    returns, and the definition then found under the field's name has
    the name, type and flag passed; it holds the widget string passed
    when that string is not empty, and has no widget entry when the
    string is empty. *)
Theorem upsert_stores_nonempty_widget s n fn ft rq (w : string) :
  wf s → is_Some (schemas s !! n) →
  ∃ s' fs i f, update_schema s n fn ft rq (Some w) = Ok s'
    ∧ fields_of s' n = Some fs
    ∧ list_find (fun g => f_name g = fn) fs = Some (i, f)
    ∧ f_name f = fn ∧ f_type f = ft ∧ f_required f = rq
    ∧ (w ≠ EmptyString → f_widget f = Some w)
    ∧ (w = EmptyString → f_widget f = None).
Proof.
  intros Hwf Hn.
  destruct (update_schema_lookup s n fn ft rq (Some w) Hwf Hn)
    as (s' & fs & i & Hs' & Hfs & Hfind).
  exists s', fs, i, (new_field fn ft rq (Some w)).
  split_and!; try done.
  - intros Hw. simpl. by destruct w.
  - by intros ->.
Qed.

Lemma upsert_stores_nonempty_widget_witness :
  wf init_session ∧ is_Some (schemas init_session !! "Default")
  ∧ ∃ s' fs i f,
      update_schema init_session "Default" "note" "string" false (Some "textarea") = Ok s'
      ∧ fields_of s' "Default" = Some fs
      ∧ list_find (fun g => f_name g = "note") fs = Some (i, f)
      ∧ f_name f = "note" ∧ f_type f = "string" ∧ f_required f = false
      ∧ ("textarea" ≠ EmptyString → f_widget f = Some "textarea")
      ∧ ("textarea" = EmptyString → f_widget f = None).
Proof.
  assert (is_Some (schemas init_session !! "Default")) as H.
  { simpl. rewrite lookup_singleton_eq. eauto. }
  split; [exact wf_init|]. split; [exact H|].
  exact (upsert_stores_nonempty_widget init_session "Default" "note" "string" false
           "textarea" wf_init H).
Defined.

(** ** Creating a schema *)

(** C7, as it is written, fails: creating "Default" in the store the
    program starts with raises nothing. The handler returns, having
    shown a message, with the store as it was. *)
Lemma create_schema_duplicate_not_raised :
  ¬ raises_DuplicateNameError init_session "Default" "Default" EmptySchema
  ∧ create_schema init_session "Default" "Default" EmptySchema
    = Ok (init_session, StError "Schema 'Default' already exists!").
Proof.
  assert (create_schema init_session "Default" "Default" EmptySchema
          = Ok (init_session, StError "Schema 'Default' already exists!")) as H.
  { unfold create_schema. simpl. rewrite bool_decide_eq_false_2; [done|].
    intros Hnot. apply Hnot, elem_of_dom. simpl. rewrite lookup_singleton_eq. eauto. }
  split; [|exact H]. intros [e He]. rewrite H in He. discriminate.
Qed.

(** C7, amended: for every store and every name already in it, the
    "Create Schema" handler raises nothing; it shows the error message
    "Schema '<name>' already exists!" and returns the store as it was,
    nothing added, nothing modified, the active schema the same. *)
Theorem create_schema_duplicate s sel name kind :
  wf s → is_Some (schemas s !! name) →
  create_schema s sel name kind
  = Ok (s, StError ("Schema '" +:+ name +:+ "' already exists!")).
Proof.
  intros Hwf Hname. unfold create_schema.
  destruct name as [|c name].
  { rewrite (wf_named s Hwf) in Hname. by destruct Hname. }
  simpl. rewrite bool_decide_eq_false_2; [done|].
  intros Hnot. apply Hnot. by apply elem_of_dom.
Qed.

Lemma create_schema_duplicate_witness :
  wf init_session ∧ is_Some (schemas init_session !! "Default")
  ∧ create_schema init_session "Default" "Default" EmptySchema
    = Ok (init_session, StError "Schema 'Default' already exists!").
Proof.
  assert (is_Some (schemas init_session !! "Default")) as H.
  { simpl. rewrite lookup_singleton_eq. eauto. }
  split; [exact wf_init|]. split; [exact H|].
  exact (create_schema_duplicate init_session "Default" "Default" EmptySchema wf_init H).
Defined.

(** C5: after a schema is created as a copy of an existing one, every
    run of mutations ([update_schema], [delete_field]) of the two
    schemas, in any order, ends, and leaves each of the two with the
    field definitions that its own mutations make of the copied ones:
    no mutation of one changes the field sequence of the other, or the
    contents of its definitions. *)
Theorem schema_copy_independent s src new (ms : list (string * mutation)) :
  wf s → is_Some (schemas s !! src) →
  new ≠ EmptyString → schemas s !! new = None →
  (∀ x, x ∈ ms → x.1 = src ∨ x.1 = new) →
  ∃ s' s'' fs, create_schema s src new CopyCurrent = Ok (s', StRerun)
    ∧ fields_of s src = Some fs
    ∧ fields_of s' src = Some fs
    ∧ fields_of s' new = Some fs
    ∧ mutate_all s' ms = Ok s''
    ∧ fields_of s'' src = Some (apply_mutations (mutations_on src ms) fs)
    ∧ fields_of s'' new = Some (apply_mutations (mutations_on new ms) fs).
Proof.
  intros Hwf [l Hl] Hnew Hfree Hms.
  assert (src ≠ new) as Hne.
  { intros ->. by rewrite Hfree in Hl. }
  destruct (create_schema_copy_spec s src new l Hwf Hnew Hfree Hl)
    as (s' & Hs' & Hwf' & Hcopy & Hrest).
  assert (is_Some (fields_of s src)) as [fs Hfs].
  { apply fields_of_is_Some. eauto. }
  assert (fields_of s' src = Some fs) as Hsrc by by rewrite Hrest.
  assert (fields_of s' new = Some fs) as Hcp by by rewrite Hcopy.
  destruct (mutate_all_spec ms s' Hwf') as (s'' & Hs'' & _ & Hf).
  { intros x Hx. apply fields_of_is_Some.
    destruct (Hms x Hx) as [-> | ->]; eauto. }
  exists s', s'', fs. split_and!; try done.
  - by rewrite Hf, Hsrc.
  - by rewrite Hf, Hcp.
Qed.

Lemma schema_copy_independent_witness :
  let ms := [("Copy", UpsertField "name" "number" false (Some "text"));
             ("Default", DeleteField "value");
             ("Copy", UpsertField "note" "string" false (Some EmptyString))] in
  wf init_session ∧ is_Some (schemas init_session !! "Default")
  ∧ "Copy" ≠ EmptyString ∧ schemas init_session !! "Copy" = None
  ∧ (∀ x, x ∈ ms → x.1 = "Default" ∨ x.1 = "Copy")
  ∧ ∃ s' s'' fs, create_schema init_session "Default" "Copy" CopyCurrent = Ok (s', StRerun)
      ∧ fields_of init_session "Default" = Some fs
      ∧ fields_of s' "Default" = Some fs
      ∧ fields_of s' "Copy" = Some fs
      ∧ mutate_all s' ms = Ok s''
      ∧ fields_of s'' "Default" = Some (apply_mutations (mutations_on "Default" ms) fs)
      ∧ fields_of s'' "Copy" = Some (apply_mutations (mutations_on "Copy" ms) fs).
Proof.
  intros ms.
  assert (is_Some (schemas init_session !! "Default")) as H1.
  { simpl. rewrite lookup_singleton_eq. eauto. }
  assert ("Copy" ≠ EmptyString) as H2 by done.
  assert (schemas init_session !! "Copy" = None) as H3.
  { simpl. by apply lookup_singleton_ne. }
  assert (∀ x, x ∈ ms → x.1 = "Default" ∨ x.1 = "Copy") as H4.
  { intros x Hx. unfold ms in Hx.
    repeat (apply elem_of_cons in Hx as [->|Hx]); simpl; auto.
    by apply elem_of_nil in Hx. }
  split_and!; try done; [exact wf_init|].
  exact (schema_copy_independent init_session "Default" "Copy" ms wf_init H1 H2 H3 H4).
Defined.

(** ** Schema inference *)

Lemma guess_field_type_priority v : guess_field_type v = inferred_type v.
Proof. by destruct v. Qed.

Lemma infer_field_spec key value :
  let f := infer_field (key, value) in
  f_name f = key
  ∧ f_type f = inferred_type value
  ∧ f_required f = false
  ∧ (f_widget f = Some "textarea" ↔ f_type f = "string" ∧ long_text value)
  ∧ (f_widget f = Some "textarea" ∨ f_widget f = Some EmptyString).
Proof.
  simpl. rewrite guess_field_type_priority. split_and!; try done.
  - destruct value as [| | | |s| |]; simpl;
      try (split; [done|]; intros [? (s' & ? & ?)]; done).
    destruct (50 <? Z.of_nat (String.length s)) eqn:E.
    + split; [|done]. intros _. split; [done|]. exists s. split; [done|]. lia.
    + split; [done|]. intros [_ (s' & [= <-] & Hlen)]. lia.
  - destruct (_ && _); auto.
Qed.

(** The example of the specification: four keys, four types, in the
    order of the keys, and a long string gets the textarea widget. *)
Example infer_schema_example :
  generate_schema_from_json
    (PDict [("a", PBool true); ("b", PInt 3); ("c", PList [PInt 1; PInt 2]);
            ("d", PStr (Str.repeat "x"%char 60))])
  = Ok [Field "a" "boolean" false (Some EmptyString);
        Field "b" "number" false (Some EmptyString);
        Field "c" "list" false (Some EmptyString);
        Field "d" "string" false (Some "textarea")].
Proof. reflexivity. Qed.

(** C8: for every sample record, [generate_schema_from_json] returns
    one field definition per key, in the order of the keys; the type of
    each is chosen in the order boolean, number, list, string; required
    is false; and the widget is "textarea" exactly when the type is
    string and the value is a text of more than 50 characters, the
    empty string otherwise. *)
Theorem infer_schema_fields (sample : dict pyval) :
  ∃ schema, generate_schema_from_json (PDict sample) = Ok schema
    ∧ f_name <$> schema = dict_keys sample
    ∧ Forall2 (fun f kv =>
                 f_type f = inferred_type kv.2
                 ∧ f_required f = false
                 ∧ (f_widget f = Some "textarea"
                    ↔ f_type f = "string" ∧ long_text kv.2)
                 ∧ (f_widget f = Some "textarea" ∨ f_widget f = Some EmptyString))
              schema sample.
Proof.
  exists (infer_field <$> sample). split; [done|]. split.
  - unfold dict_keys. rewrite <- list_fmap_compose. apply list_fmap_ext.
    by intros i [k v] _.
  - apply Forall2_fmap_l, Forall_Forall2_diag, Forall_forall.
    intros [k v] _. simpl. apply (infer_field_spec k v).
Qed.

(** The inputs for which the inference ends with a schema: an object,
    a sequence that starts with an object, an empty sequence, a value
    that is neither an object nor a sequence. *)
Lemma infer_schema_total_cases (data : pyval) :
  match data with
  | PList (x :: _) => isinstance_dict x = true
  | _ => True
  end →
  ∃ schema, generate_schema_from_json data = Ok schema
    ∧ (isinstance_dict data = false → isinstance_list data = false → schema = [])
    ∧ (data = PList [] → schema = []).
Proof.
  destruct data as [| | | | |[|x l]|d]; simpl; intros H;
    try (eexists; split_and!; done).
  destruct x; try done. simpl. eexists. split_and!; done.
Qed.

(** C9, the failing input: a sequence whose first element is not an
    object, here the JSON text [[1]]. The first element is taken as the
    sample and its [items] are asked for: the inference raises instead
    of returning the empty schema. *)
Theorem infer_schema_non_object_element_raises :
  generate_schema_from_json (PList [PInt 1]) = Raise AttributeError.
Proof. reflexivity. Qed.

(** ** Strings: trimming, splitting, joining *)

Section strings.

Implicit Types (s r : string) (c : ascii) (es : list string).

Lemma app_nil_l s : EmptyString +:+ s = s.
Proof. done. Qed.


Lemma rstrip_cons_not_space c s :
  Str.is_space c = false → Str.rstrip (String c s) = String c (Str.rstrip s).
Proof. intros H. simpl. rewrite H. by destruct (Str.rstrip s). Qed.

Lemma first_not_space_not_blank s : first_not_space s → Str.is_blank s = false.
Proof.
  destruct s as [|c s]; [done|]. simpl. intros H.
  unfold Str.is_blank, Str.strip. simpl Str.lstrip. rewrite H.
  by rewrite rstrip_cons_not_space.
Qed.

Lemma first_not_space_app s r : first_not_space s → first_not_space (s +:+ r).
Proof. by destruct s. Qed.

Lemma lstrip_length s : (String.length (Str.lstrip s) ≤ String.length s)%nat.
Proof.
  induction s as [|c s IH]; simpl; [done|].
  destruct (Str.is_space c); simpl; lia.
Qed.

Lemma rstrip_length s : (String.length (Str.rstrip s) ≤ String.length s)%nat.
Proof.
  induction s as [|c s IH]; simpl; [done|].
  destruct (Str.rstrip s); [destruct (Str.is_space c)|]; simpl in *; lia.
Qed.

Lemma trimmed_first s : trimmed s → s ≠ EmptyString → first_not_space s.
Proof.
  destruct s as [|c s]; [done|]. intros H _. simpl.
  destruct (Str.is_space c) eqn:E; [|done]. exfalso.
  unfold trimmed, Str.strip in H. simpl in H. rewrite E in H.
  pose proof (rstrip_length (Str.lstrip s)) as H1.
  pose proof (lstrip_length s) as H2.
  rewrite H in H1. simpl in H1. lia.
Qed.

Lemma strip_after_space s : Str.strip (String " "%char s) = Str.strip s.
Proof. done. Qed.


Lemma split_comma_free s : comma_free s → Str.split Str.comma s = [s].
Proof.
  unfold comma_free. induction s as [|c s IH]; simpl; [done|].
  intros [Hc Hs]%orb_false_elim. rewrite Hc, IH; done.
Qed.

Lemma split_app_comma s r :
  comma_free s →
  Str.split Str.comma (s +:+ String Str.comma r) = s :: Str.split Str.comma r.
Proof.
  unfold comma_free. induction s as [|c s IH]; [done|].
  simpl. intros [Hc Hs]%orb_false_elim.
  rewrite Hc, IH; done.
Qed.

Lemma split_after_space s :
  Str.split Str.comma (String " "%char s)
  = match Str.split Str.comma s with
    | p :: ps => String " "%char p :: ps
    | [] => [String " "%char EmptyString]
    end.
Proof. done. Qed.

Lemma join_cons sep s1 s2 es :
  Str.join sep (s1 :: s2 :: es) = s1 +:+ sep +:+ Str.join sep (s2 :: es).
Proof. done. Qed.

(** Splitting what was joined with [", "]: the elements, each but
    the first after a space. *)
Lemma split_join e es :
  Forall comma_free (e :: es) →
  Str.split Str.comma (Str.join ", " (e :: es)) = e :: (String " "%char <$> es).
Proof.
  revert e. induction es as [|e2 es IH]; intros e He.
  - simpl. apply split_comma_free. by inversion He.
  - inversion He as [|?? He1 He2]; subst. rewrite join_cons.
    change (", " +:+ Str.join ", " (e2 :: es))
      with (String Str.comma (String " "%char (Str.join ", " (e2 :: es)))).
    rewrite split_app_comma by done. rewrite split_after_space.
    by rewrite (IH e2 He2).
Qed.

Lemma coerce_list_pieces (val : pyval) :
  coerce_list val = PList (PStr <$> list_pieces (py_str val)).
Proof.
  unfold coerce_list, list_pieces. f_equal.
  induction (Str.split Str.comma (py_str val)) as [|p ps IH]; [done|].
  rewrite fmap_cons, !filter_cons.
  repeat case_decide.
  - rewrite !fmap_cons. by f_equal.
  - destruct (Str.strip p); [done|]. by exfalso.
  - destruct (Str.strip p); [by exfalso|]. by exfalso.
  - exact IH.
Qed.

Lemma list_pieces_join es :
  Forall (fun e => trimmed e ∧ e ≠ EmptyString ∧ comma_free e) es →
  list_pieces (Str.join ", " es) = es.
Proof.
  intros H. destruct es as [|e es]; [done|].
  unfold list_pieces. rewrite split_join.
  2:{ eapply Forall_impl; [exact H|]. by intros ? (_ & _ & ?). }
  apply Forall_cons in H as [(Ht & Hn & _) H].
  rewrite fmap_cons, filter_cons, Ht.
  rewrite decide_True by done. f_equal. clear Ht Hn e.
  induction H as [|e es (Ht & Hn & _) _ IH]; [done|].
  rewrite !fmap_cons, filter_cons, strip_after_space, Ht.
  rewrite decide_True by done. by f_equal.
Qed.

Lemma join_not_blank e es :
  trimmed e → e ≠ EmptyString → Str.is_blank (Str.join ", " (e :: es)) = false.
Proof.
  intros Ht Hn. apply first_not_space_not_blank.
  destruct es; simpl; [by apply trimmed_first|].
  apply first_not_space_app. by apply trimmed_first.
Qed.

End strings.

(** ** Numbers *)

Section numbers.

Lemma signed_mul neg (m k : N) :
  Float.signed neg (m * k) = Float.signed neg m * Z.of_N k.
Proof. unfold Float.signed. destruct neg; lia. Qed.

Lemma pow10_of_N (e : Z) : 0 ≤ e → Z.of_N (10 ^ Z.to_N e) = 10 ^ e.
Proof. intros H. rewrite N2Z.inj_pow, Z2N.id by done. done. Qed.

Lemma eqb_int_represents f z : Float.eqb_int f z = true ↔ represents f z.
Proof.
  destruct f as [| |neg m e]; simpl; [done..|].
  destruct (0 <=? e) eqn:E.
  - rewrite Z.eqb_eq, signed_mul, pow10_of_N by lia. done.
  - by rewrite Z.eqb_eq.
Qed.

Lemma to_int_finite f : finite f → ∃ t, Float.to_int f = Ok t.
Proof.
  destruct f as [| |neg m e]; simpl; [done..|]. intros _.
  destruct (0 <=? e); eauto.
Qed.

Lemma to_int_represents f z : represents f z → Float.to_int f = Ok z.
Proof.
  destruct f as [| |neg m e]; simpl; [done..|].
  destruct (0 <=? e) eqn:E; intros H.
  - by rewrite signed_mul, pow10_of_N by lia; f_equal.
  - f_equal. apply Z.leb_gt in E.
    assert (0 < 10 ^ (- e)) as Hpos by (apply Z.pow_pos_nonneg; lia).
    unfold Float.signed in *. rewrite N2Z.inj_div, pow10_of_N by lia.
    destruct neg.
    + replace (Z.of_N m) with ((- z) * 10 ^ (- e)) by lia.
      rewrite Z.div_mul by lia. lia.
    + rewrite H, Z.div_mul by lia. done.
Qed.

(** The [try] body on a finite float: the integer it is, if any, and
    the float itself otherwise. *)
Lemma number_of_finite val f :
  py_float val = Ok f → finite f →
  (∀ z, represents f z → number_of val = Ok (PInt z))
  ∧ ((∀ z, ¬ represents f z) → number_of val = Ok (PFloat f)).
Proof.
  intros Hf Hfin. unfold number_of. rewrite Hf. simpl. split.
  - intros z Hz. rewrite (to_int_represents f z Hz). simpl.
    by rewrite (proj2 (eqb_int_represents f z) Hz).
  - intros Hno. destruct (to_int_finite f Hfin) as [t ->]. simpl.
    destruct (Float.eqb_int f t) eqn:E; [|done].
    apply eqb_int_represents in E. by destruct (Hno t).
Qed.

Lemma strip10_value fuel : ∀ m e,
  0 ≤ e →
  0 ≤ (Float.strip10 fuel m e).2
  ∧ Z.of_N (Float.strip10 fuel m e).1 * 10 ^ (Float.strip10 fuel m e).2
    = Z.of_N m * 10 ^ e.
Proof.
  induction fuel as [|fuel IH]; intros m e He; simpl; [done|].
  destruct (m =? 0)%N eqn:E0; simpl.
  { apply N.eqb_eq in E0. subst. split; [done|]. lia. }
  destruct (m mod 10 =? 0)%N eqn:E1; simpl; [|done].
  apply N.eqb_eq in E1.
  destruct (IH (m / 10)%N (e + 1)) as [H1 H2]; [lia|]. split; [done|].
  rewrite H2, Z.pow_add_r, Z.pow_1_r by lia.
  rewrite (N.div_mod' m 10) at 2. rewrite E1, N2Z.inj_add, N2Z.inj_mul. simpl. lia.
Qed.

Lemma make_represents neg m : represents (Float.make neg m 0) (Float.signed neg m).
Proof.
  unfold Float.make.
  destruct (strip10_value (S (N.to_nat (N.log2 m))) m 0) as [H1 H2]; [done|].
  destruct (Float.strip10 _ m 0) as [m' e']. simpl in *.
  apply Z.leb_le in H1. rewrite H1.
  unfold Float.signed. destruct neg; lia.
Qed.

Lemma of_Z_represents z : represents (Float.of_Z z) z.
Proof.
  unfold Float.of_Z.
  replace z with (Float.signed (z <? 0) (Z.abs_N z)) at 3; [apply make_represents|].
  unfold Float.signed. destruct (z <? 0) eqn:E; lia.
Qed.

Lemma make_finite neg m e : finite (Float.make neg m e).
Proof. unfold Float.make. by destruct (Float.strip10 _ m e). Qed.

Lemma number_of_int z : number_of (PInt z) = Ok (PInt z).
Proof.
  eapply (number_of_finite (PInt z)); [done| |apply of_Z_represents].
  apply make_finite.
Qed.

(** [str] of a number is never blank. *)
Lemma of_uint_first d : first_not_space (NilZero.string_of_uint d).
Proof. by destruct d. Qed.

Lemma of_Z_first z : first_not_space (Str.of_Z z).
Proof.
  unfold Str.of_Z. destruct (Z.to_int z); simpl; [apply of_uint_first|done].
Qed.

Lemma of_N_first n : first_not_space (Str.of_N n).
Proof. apply of_uint_first. Qed.

Lemma first_not_space_take n s :
  (0 < n)%nat → first_not_space s → first_not_space (Str.take n s).
Proof. destruct n, s; simpl; try done; lia. Qed.

Lemma float_repr_first f : first_not_space (Float.repr f).
Proof.
  destruct f as [|[]|neg m e]; [done..|]. unfold Float.repr.
  destruct neg.
  { repeat case_match; by apply first_not_space_app. }
  pose proof (of_N_first m) as Hds.
  repeat case_match; rewrite ?app_nil_l; try done;
    try (apply first_not_space_app; try done);
    (apply first_not_space_take; [lia|done]).
Qed.

End numbers.

(** ** Table to JSON: cells *)

Section cells.

Implicit Types (row : Series) (f : field) (val v : pyval).

(** The blank test on a cell that is no list. *)
Lemma cell_is_blank_scalar val :
  isinstance_list val = false →
  cell_is_blank val = Ok (checknull val || Str.is_blank (py_str val)).
Proof.
  intros H. unfold cell_is_blank.
  destruct val; try done; simpl; try by destruct (checknull _).
  by destruct (Float.is_nan f).
Qed.

Lemma cell_is_blank_int z : cell_is_blank (PInt z) = Ok false.
Proof.
  rewrite cell_is_blank_scalar by done. simpl.
  by rewrite (first_not_space_not_blank _ (of_Z_first z)).
Qed.

Lemma cell_is_blank_float g : finite g → cell_is_blank (PFloat g) = Ok false.
Proof.
  intros Hg. rewrite cell_is_blank_scalar by done. simpl.
  rewrite (first_not_space_not_blank _ (float_repr_first g)).
  by destruct g.
Qed.

Lemma cell_is_blank_bool b : cell_is_blank (PBool b) = Ok false.
Proof. by destruct b. Qed.

Lemma cell_is_blank_str s : cell_is_blank (PStr s) = Ok (Str.is_blank s).
Proof. by rewrite cell_is_blank_scalar. Qed.


Lemma parse_field_blank row f :
  cell_is_blank (row_get row (f_name f) (PStr EmptyString)) = Ok true →
  parse_field row f = Ok (blank_value (f_type f)).
Proof. intros H. unfold parse_field. by rewrite H. Qed.

End cells.

(** ** Numeric coercion *)


Example number_coercion_examples :
  coerce "number" (PStr "12.50") = PFloat (FFin false 125 (-1))
  ∧ coerce "number" (PStr "12.00") = PInt 12
  ∧ coerce "number" (PStr "abc") = PInt 0.
Proof. by split_and!. Qed.

(** ** List coercion *)

Example list_coercion_examples :
  coerce "list" (PInt 5) = PList [PStr "5"]
  ∧ coerce "list" (PStr "a, ,b") = PList [PStr "a"; PStr "b"].
Proof. by split_and!. Qed.

Section pieces.

Implicit Types (s t p w r : string) (c : ascii) (ps qs ts : list string).




















End pieces.



(** ** Blank rows *)

Section blank_rows.

Implicit Types (row : Series) (rs : list Series) (schema : list field).

Lemma null_row_is_empty row :
  Forall (fun kv => checknull kv.2 = true) row → row_is_empty row = true.
Proof.
  intros H. unfold row_is_empty. apply orb_true_intro. left.
  apply forallb_forall. intros kv Hin.
  rewrite Forall_forall in H. apply H. by apply list_elem_of_In.
Qed.

Lemma blank_strings_row_is_empty row :
  Forall (fun kv => ∃ s, kv.2 = PStr s ∧ Str.is_blank s = true) row →
  row_is_empty row = true.
Proof.
  intros H. unfold row_is_empty. apply orb_true_intro. right.
  apply forallb_forall. intros kv Hin.
  rewrite Forall_forall in H.
  destruct (H kv) as (s & -> & Hs); [by apply list_elem_of_In|done].
Qed.

(** Rows that are empty give no record. *)
Lemma parse_rows_empty rs schema parsed :
  Forall (fun row => row_is_empty row = true) rs →
  parse_rows rs schema parsed = Ok parsed.
Proof.
  induction 1 as [|row rs Hrow _ IH]; simpl; [done|]. by rewrite Hrow.
Qed.

(** The part of C4 the code keeps: a table all of whose rows have only
    blank strings, or only nulls, gives no record. *)
Lemma blank_rows_give_no_record (df : DataFrame) schema :
  Forall (fun row =>
            Forall (fun kv => checknull kv.2 = true) row
            ∨ Forall (fun kv => ∃ s, kv.2 = PStr s ∧ Str.is_blank s = true) row)
         (iterrows df) →
  parse_dataframe df schema = Ok [].
Proof.
  intros H. apply parse_rows_empty.
  eapply Forall_impl; [exact H|].
  intros row [Hn|Hb]; [by apply null_row_is_empty|by apply blank_strings_row_is_empty].
Qed.

End blank_rows.

(** C4, the failing input: the record [{"name": null}] imported under
    the "Default" schema. Its row has a null cell and an empty-string
    cell, so every cell is blank, and yet the row is kept and gives a
    record. *)
Theorem mixed_blank_row_gives_record :
  let schema := [Field "name" "string" true None; Field "value" "string" false None] in
  let table := to_table [[("name", PNone)]] schema in
  iterrows table = [[("name", PNone); ("value", PStr EmptyString)]]
  ∧ Forall (fun row => Forall (fun kv => blank_cell kv.2) row) (iterrows table)
  ∧ parse_dataframe table schema
    = Ok [[("name", PStr EmptyString); ("value", PStr EmptyString)]].
Proof.
  intros schema table.
  assert (iterrows table = [[("name", PNone); ("value", PStr EmptyString)]]) as E
    by reflexivity.
  split_and!; [exact E| |reflexivity].
  rewrite E. apply Forall_singleton, Forall_cons. split; [by left|].
  apply Forall_singleton. right. by exists EmptyString.
Qed.

(** ** Dicts *)

Section dicts.

Context {V : Type}.
Implicit Types (d : dict V) (k : string) (v : V).

Lemma dict_get_None k d : dict_get k d = None ↔ k ∉ dict_keys d.
Proof.
  unfold dict_keys. induction d as [|[k' v'] d IH]; simpl.
  - split; [intros _; apply not_elem_of_nil|done].
  - rewrite not_elem_of_cons. case_decide; subst.
    + split; [done|]. by intros [].
    + rewrite IH. split; [by split|by intros []].
Qed.

Lemma dict_get_is_Some k d : is_Some (dict_get k d) ↔ k ∈ dict_keys d.
Proof.
  destruct (dict_get k d) eqn:E.
  - split; [|eauto]. intros _. destruct (decide (k ∈ dict_keys d)); [done|].
    apply dict_get_None in n. congruence.
  - split; [by intros []|]. intros H. by apply dict_get_None in E.
Qed.

Lemma dict_get_app k d1 d2 :
  dict_get k (d1 ++ d2)
  = match dict_get k d1 with
    | Some v => Some v
    | None => dict_get k d2
    end.
Proof.
  induction d1 as [|[k' v'] d1 IH]; simpl; [done|]. by case_decide.
Qed.

Lemma dict_set_fresh k v d : k ∉ dict_keys d → dict_set k v d = d ++ [(k, v)].
Proof.
  unfold dict_keys. induction d as [|[k' v'] d IH]; simpl; [done|].
  intros [Hne Hd]%not_elem_of_cons.
  rewrite decide_False by done. by rewrite IH.
Qed.

Lemma dict_get_fmap_keys (g : string → V) (ks : list string) k :
  dict_get k ((fun c => (c, g c)) <$> ks) = if decide (k ∈ ks) then Some (g k) else None.
Proof.
  induction ks as [|c ks IH]; [done|].
  rewrite fmap_cons. cbn [dict_get].
  destruct (decide (c = k)) as [->|Hne].
  - rewrite decide_True; [done|]. apply elem_of_cons. by left.
  - rewrite IH. destruct (decide (k ∈ ks)).
    + rewrite decide_True; [done|]. apply elem_of_cons. by right.
    + rewrite decide_False; [done|]. intros [?|?]%elem_of_cons; done.
Qed.

Lemma zip_fmap_keys (g : string → V) (ks : list string) :
  zip ks (g <$> ks) = (fun c => (c, g c)) <$> ks.
Proof. induction ks; simpl; by f_equal. Qed.

Lemma dict_get_zip_replicate (ks : list string) v k :
  dict_get k (zip ks (replicate (length ks) v))
  = if decide (k ∈ ks) then Some v else None.
Proof.
  rewrite <- (dict_get_fmap_keys (fun _ => v) ks k). f_equal.
  induction ks; simpl; by f_equal.
Qed.

Lemma dict_get_elem k v d : NoDup (dict_keys d) → (k, v) ∈ d → dict_get k d = Some v.
Proof.
  unfold dict_keys. induction d as [|[k' v'] d IH]; simpl.
  - intros _ H. by apply elem_of_nil in H.
  - intros [Hk Hd]%NoDup_cons [[= -> ->]|Hin]%elem_of_cons.
    + by rewrite decide_True.
    + rewrite decide_False; [by apply IH|].
      intros ->. apply Hk. apply list_elem_of_fmap. by exists (k, v).
Qed.

End dicts.

(** ** JSON to table *)

Section frames.

Implicit Types (item : dict pyval) (data : list (dict pyval))
  (schema : list field) (cols ks : list string) (df : DataFrame).

Lemma convert_item_fold types item : ∀ acc : dict pyval,
  NoDup (dict_keys item) →
  (∀ k, k ∈ dict_keys item → k ∉ dict_keys acc) →
  fold_left (fun converted_item kv =>
               dict_set kv.1 (convert_value types kv.1 kv.2) converted_item)
            item acc
  = acc ++ (convert_entry types <$> item).
Proof.
  unfold dict_keys.
  induction item as [|[k v] item IH]; intros acc Hnd Hacc; simpl.
  - by rewrite app_nil_r.
  - apply NoDup_cons in Hnd as [Hk Hnd].
    rewrite dict_set_fresh by (apply Hacc, elem_of_cons; by left).
    rewrite IH; [by rewrite <- app_assoc|done|].
    intros k' Hk'. unfold dict_keys. rewrite fmap_app. simpl.
    intros [Hin|Hin%list_elem_of_singleton]%elem_of_app.
    + eapply Hacc; [|exact Hin]. apply elem_of_cons. by right.
    + by subst.
Qed.

Lemma convert_item_entries types item :
  NoDup (dict_keys item) →
  convert_item types item = convert_entry types <$> item.
Proof.
  intros H. unfold convert_item. rewrite convert_item_fold; [done..|].
  intros k _. apply not_elem_of_nil.
Qed.

Lemma convert_item_keys types item :
  NoDup (dict_keys item) → dict_keys (convert_item types item) = dict_keys item.
Proof.
  intros H. rewrite convert_item_entries by done.
  unfold dict_keys. rewrite <- list_fmap_compose. by apply list_fmap_ext.
Qed.

Lemma dict_get_convert types item k :
  dict_get k (convert_entry types <$> item)
  = convert_value types k <$> dict_get k item.
Proof.
  induction item as [|[k' v'] item IH]; [done|].
  rewrite fmap_cons. unfold convert_entry at 1. cbn [dict_get fst snd].
  destruct (decide (k' = k)) as [->|Hne]; [done|exact IH].
Qed.

(** The column labels: keys in the order they are first met. *)
Lemma add_key_elem cols k c : c ∈ add_key cols k ↔ c ∈ cols ∨ c = k.
Proof.
  unfold add_key. case_bool_decide.
  - split; [by left|]. by intros [?| ->].
  - rewrite elem_of_app, list_elem_of_singleton. done.
Qed.

Lemma add_key_NoDup cols k : NoDup cols → NoDup (add_key cols k).
Proof.
  intros H. unfold add_key. case_bool_decide; [done|].
  apply NoDup_app. split_and!; [done| |apply NoDup_singleton].
  intros x Hx ->%list_elem_of_singleton. done.
Qed.

Lemma add_keys_elem ks : ∀ cols c,
  c ∈ fold_left add_key ks cols ↔ c ∈ cols ∨ c ∈ ks.
Proof.
  induction ks as [|k ks IH]; intros cols c; simpl.
  - split; [by left|]. intros [?|H]; [done|]. by apply elem_of_nil in H.
  - rewrite IH, add_key_elem, elem_of_cons. tauto.
Qed.

Lemma add_keys_NoDup ks : ∀ cols, NoDup cols → NoDup (fold_left add_key ks cols).
Proof.
  induction ks as [|k ks IH]; intros cols H; simpl; [done|].
  by apply IH, add_key_NoDup.
Qed.

Lemma add_keys_fresh ks : ∀ cols,
  NoDup ks → (∀ k, k ∈ ks → k ∉ cols) → fold_left add_key ks cols = cols ++ ks.
Proof.
  induction ks as [|k ks IH]; intros cols Hnd Hfresh; simpl.
  - by rewrite app_nil_r.
  - apply NoDup_cons in Hnd as [Hk Hnd].
    unfold add_key at 2. rewrite bool_decide_eq_false_2.
    2:{ apply Hfresh, elem_of_cons. by left. }
    rewrite IH; [by rewrite <- app_assoc|done|].
    intros k' Hk' [Hin| ->%list_elem_of_singleton]%elem_of_app; [|done].
    eapply Hfresh; [|exact Hin]. apply elem_of_cons. by right.
Qed.

Lemma union_keys_fold data : ∀ cols c,
  c ∈ fold_left (fun cols item => fold_left add_key (dict_keys item) cols) data cols
  ↔ c ∈ cols ∨ ∃ item, item ∈ data ∧ c ∈ dict_keys item.
Proof.
  induction data as [|item data IH]; intros cols c; simpl.
  - split; [by left|]. intros [?|(? & H & _)]; [done|]. by apply elem_of_nil in H.
  - rewrite IH, add_keys_elem. split.
    + intros [[?|?]|(item' & ? & ?)]; [by left| |].
      * right. exists item. split; [apply elem_of_cons; by left|done].
      * right. exists item'. split; [apply elem_of_cons; by right|done].
    + intros [?|(item' & [->|?]%elem_of_cons & ?)]; [by left; left|by left; right|].
      right. by exists item'.
Qed.

Lemma union_keys_elem data c :
  c ∈ union_keys data ↔ ∃ item, item ∈ data ∧ c ∈ dict_keys item.
Proof.
  unfold union_keys. rewrite union_keys_fold. split; [|by right].
  intros [H|?]; [|done]. by apply elem_of_nil in H.
Qed.

Lemma union_keys_NoDup data : NoDup (union_keys data).
Proof.
  unfold union_keys. generalize (NoDup_nil_2 (A:=string)).
  generalize (@nil string).
  induction data as [|item data IH]; intros cols H; simpl; [done|].
  by apply IH, add_keys_NoDup.
Qed.

Lemma union_keys_single item : NoDup (dict_keys item) → union_keys [item] = dict_keys item.
Proof.
  intros H. unfold union_keys. simpl. rewrite add_keys_fresh; [done..|].
  intros k _. apply not_elem_of_nil.
Qed.

Lemma union_keys_convert types data :
  Forall (fun item => NoDup (dict_keys item)) data →
  union_keys (convert_item types <$> data) = union_keys data.
Proof.
  intros H. unfold union_keys. generalize (@nil string).
  induction H as [|item data Hitem _ IH]; intros cols; simpl; [done|].
  by rewrite convert_item_keys, IH.
Qed.

Lemma filter_ext_elem {A} (P1 P2 : A → Prop)
    `{!∀ x, Decision (P1 x), !∀ x, Decision (P2 x)} (l : list A) :
  (∀ x, x ∈ l → (P1 x ↔ P2 x)) → filter P1 l = filter P2 l.
Proof.
  induction l as [|a l IH]; intros Hext; [done|].
  assert (filter P1 l = filter P2 l) as Htl.
  { apply IH. intros x Hx. apply Hext, elem_of_cons. by right. }
  assert (P1 a ↔ P2 a) as Ha by (apply Hext, elem_of_cons; by left).
  rewrite !filter_cons, Htl.
  destruct (decide (P1 a)), (decide (P2 a)); tauto.
Qed.

(** The sync of [app.py]: the schema's names the frame lacks come
    after its columns, in schema order, with an empty string in every
    row. *)
Lemma sync_columns_fold (names : list string) : ∀ df,
  NoDup names →
  fold_left (fun df col =>
               if bool_decide (col ∈ columns df) then df
               else add_column col (PStr EmptyString) df) names df
  = {| columns := columns df ++ filter (fun c => c ∉ columns df) names;
       rows := (fun r => r ++ replicate
                           (length (filter (fun c => c ∉ columns df) names))
                           (PStr EmptyString)) <$> rows df |}.
Proof.
  induction names as [|col names IH]; intros [cols rs] Hnd; simpl.
  - rewrite app_nil_r. f_equal. induction rs as [|r rs IHrs]; [done|].
    rewrite fmap_cons, app_nil_r. by f_equal.
  - apply NoDup_cons in Hnd as [Hcol Hnd]. rewrite filter_cons.
    case_bool_decide as Hin.
    + rewrite IH by done. simpl. by rewrite decide_False by (intros H; by apply H).
    + rewrite IH by done. rewrite decide_True by done. unfold add_column. simpl.
      assert (filter (fun c => c ∉ cols ++ [col]) names = filter (fun c => c ∉ cols) names) as ->.
      { apply filter_ext_elem. intros c Hc. split.
        - intros H Hc'. apply H, elem_of_app. by left.
        - intros H [Hc'|Hc'%list_elem_of_singleton]%elem_of_app; [done|].
          by subst. }
      rewrite <- app_assoc. simpl. f_equal.
      rewrite <- list_fmap_compose. apply list_fmap_ext. intros i r _. simpl.
      by rewrite <- app_assoc.
Qed.

End frames.

Section table.

Implicit Types (item : dict pyval) (records : list (dict pyval))
  (schema : list field).

(** The table of imported records, in closed form. *)
Lemma to_table_shape records schema :
  Forall (fun item => NoDup (dict_keys item)) records →
  NoDup (f_name <$> schema) →
  let ks := union_keys records in
  let extra := filter (fun c => c ∉ ks) (f_name <$> schema) in
  to_table records schema
  = {| columns := ks ++ extra;
       rows := (fun item => (record_cell (field_types schema) item <$> ks)
                            ++ replicate (length extra) (PStr EmptyString))
               <$> records |}.
Proof.
  intros Hrec Hnames ks extra.
  unfold to_table, sync_columns. rewrite sync_columns_fold by done.
  unfold pd_DataFrame, convert_for_dataframe. simpl.
  rewrite union_keys_convert by done. fold ks. fold extra. f_equal.
  rewrite <- !list_fmap_compose. apply Forall_fmap_ext.
  eapply Forall_impl; [exact Hrec|]. intros item Hitem. simpl. f_equal.
  apply list_fmap_ext. intros i c _. unfold record_cell.
  by rewrite convert_item_entries, dict_get_convert.
Qed.

Lemma iterrows_app_replicate (ks extra : list string) (g : string → pyval) v k :
  dict_get k (zip (ks ++ extra) ((g <$> ks) ++ replicate (length extra) v))
  = if decide (k ∈ ks) then Some (g k)
    else if decide (k ∈ extra) then Some v else None.
Proof.
  rewrite zip_with_app by (symmetry; apply length_fmap).
  rewrite dict_get_app. fold (zip ks (g <$> ks)).
  rewrite zip_fmap_keys, dict_get_fmap_keys.
  destruct (decide (k ∈ ks)); [done|].
  apply (dict_get_zip_replicate extra v k).
Qed.

End table.

Section column_order.

Implicit Types (k : string) (ks q cols : list string).

Lemma add_key_in_order q cols k :
  in_order_of q cols → in_order_of (q ++ [k]) (add_key cols k).
Proof.
  intros [Hmem Hord]. unfold add_key. case_bool_decide as Hk.
  - split.
    + intros k'. rewrite elem_of_app, list_elem_of_singleton, Hmem.
      split; [by left|]. intros [?| ->]; [done|]. by apply Hmem.
    + intros i j k1 k2 Hi Hj Hij. destruct (Hord i j k1 k2 Hi Hj Hij) as (p & Hp & H1 & H2).
      exists p. split; [by apply prefix_app_r|done].
  - split.
    + intros k'. rewrite !elem_of_app, Hmem. done.
    + intros i j k1 k2 Hi Hj Hij.
      apply lookup_app_Some in Hj as [Hj|[Hlen Hj]].
      * rewrite lookup_app_l in Hi by (apply lookup_lt_Some in Hj; lia).
        destruct (Hord i j k1 k2 Hi Hj Hij) as (p & Hp & H1 & H2).
        exists p. split; [by apply prefix_app_r|done].
      * apply list_lookup_singleton_Some in Hj as [Hz <-].
        rewrite lookup_app_l in Hi by lia.
        exists q. split; [by apply prefix_app_r|]. split.
        -- apply Hmem. by eapply list_elem_of_lookup_2.
        -- intros Hq. apply Hk. by apply Hmem.
Qed.

Lemma add_keys_in_order ks : ∀ q cols,
  in_order_of q cols → in_order_of (q ++ ks) (fold_left add_key ks cols).
Proof.
  induction ks as [|k ks IH]; intros q cols H; simpl.
  - by rewrite app_nil_r.
  - replace (q ++ k :: ks) with ((q ++ [k]) ++ ks) by by rewrite <- app_assoc.
    apply IH. by apply add_key_in_order.
Qed.

Lemma union_keys_concat (data : list (dict pyval)) : ∀ cols,
  fold_left (fun cols item => fold_left add_key (dict_keys item) cols) data cols
  = fold_left add_key (record_keys data) cols.
Proof.
  unfold record_keys. induction data as [|item data IH]; intros cols; [done|].
  rewrite fmap_cons. simpl. by rewrite fold_left_app, IH.
Qed.

(** The columns of [pd.DataFrame(data)] are the keys of the records in
    order of first appearance. *)
Lemma union_keys_first_appearance (data : list (dict pyval)) :
  first_appearance data (union_keys data).
Proof.
  split; [apply union_keys_NoDup|].
  unfold union_keys. rewrite union_keys_concat.
  apply (add_keys_in_order (record_keys data) [] []). split; [done|].
  intros i j k1 k2 Hi. done.
Qed.

End column_order.

(** C2, at a concrete input: two records, the first with a key that is
    no schema field, the second with the schema field the first lacks.
    The key is a column of the table, before the schema's fields, and
    the first row's cell under the lacked field is missing (NaN), not
    the empty string. *)
Lemma table_columns_counterexample :
  let schema := [Field "name" "string" true None; Field "value" "string" false None] in
  let records := [[("x", PStr "u")]; [("name", PStr "a")]] in
  columns (to_table records schema) = ["x"; "name"; "value"]
  ∧ iterrows (to_table records schema)
    = [[("x", PStr "u"); ("name", NaN); ("value", PStr EmptyString)];
       [("x", NaN); ("name", PStr "a"); ("value", PStr EmptyString)]]
  ∧ ¬ table_as_claimed records schema.
Proof.
  split_and!; [reflexivity..|]. intros [Hcols _]. discriminate Hcols.
Qed.

(** C2 (amended): for every sequence of records (each with distinct
    keys) and every schema with distinct field names, the columns of
    the table are the keys of the records in order of first appearance,
    followed by the schema's field names that are no record's key, in
    schema order; so every schema field name is a column, once, and so
    is every record key, schema field or not. The table has one row per
    record; where the record lacks a column's label, the cell is
    missing (NaN) when another record has that key, and the empty
    string when no record has it. *)
Theorem table_columns (records : list (dict pyval)) (schema : list field) :
  Forall (fun item => NoDup (dict_keys item)) records →
  NoDup (f_name <$> schema) →
  let df := to_table records schema in
  ∃ ks,
    first_appearance records ks
    ∧ columns df = ks ++ filter (fun c => c ∉ ks) (f_name <$> schema)
    ∧ NoDup (columns df)
    ∧ (∀ f, f ∈ schema → f_name f ∈ columns df)
    ∧ (∀ item c, item ∈ records → c ∈ dict_keys item → c ∈ columns df)
    ∧ length (iterrows df) = length records
    ∧ ∀ i item row c,
        records !! i = Some item → iterrows df !! i = Some row →
        c ∈ columns df → dict_get c item = None →
        dict_get c row
        = Some (if bool_decide (c ∈ record_keys records) then NaN
                else PStr EmptyString).
Proof.
  intros Hrec Hnames df. unfold df. rewrite to_table_shape by done.
  pose proof (union_keys_first_appearance records) as Hfirst.
  set (ks := union_keys records) in *.
  set (extra := filter (fun c => c ∉ ks) (f_name <$> schema)).
  exists ks. simpl. split_and!.
  - done.
  - done.
  - apply NoDup_app. split_and!.
    + apply Hfirst.
    + intros c Hc [Hc' _]%list_elem_of_filter. done.
    + by apply NoDup_filter.
  - intros f Hf. destruct (decide (f_name f ∈ ks)) as [Hin|Hout].
    + apply elem_of_app. by left.
    + apply elem_of_app. right. apply list_elem_of_filter. split; [done|].
      by apply list_elem_of_fmap_2.
  - intros item c Hitem Hc. apply elem_of_app. left.
    apply union_keys_elem. eauto.
  - unfold iterrows. simpl. by rewrite !length_fmap.
  - intros i item row c Hitem Hrow Hc Hnone. unfold iterrows in Hrow. simpl in Hrow.
    rewrite !list_lookup_fmap, Hitem in Hrow. simpl in Hrow.
    injection Hrow as <-. rewrite iterrows_app_replicate.
    destruct Hfirst as [_ [Hmem _]].
    destruct (decide (c ∈ ks)) as [Hin|Hout].
    + unfold record_cell. rewrite Hnone.
      rewrite bool_decide_eq_true_2 by by apply Hmem. done.
    + apply elem_of_app in Hc as [?|Hc]; [done|].
      rewrite decide_True by done.
      rewrite bool_decide_eq_false_2 by (intros ?; by apply Hout, Hmem). done.
Qed.

Lemma table_columns_witness :
  let schema := [Field "name" "string" true None; Field "tags" "string" false None;
                 Field "note" "string" false None] in
  let records := [[("tags", PStr "a"); ("x", PStr "u")];
                  [("y", PStr "v"); ("x", PStr "w"); ("name", PStr "n")]] in
  Forall (fun item => NoDup (dict_keys item)) records
  ∧ NoDup (f_name <$> schema)
  ∧ columns (to_table records schema) = ["tags"; "x"; "y"; "name"; "note"]
  ∧ iterrows (to_table records schema)
    = [[("tags", PStr "a"); ("x", PStr "u"); ("y", NaN); ("name", NaN);
        ("note", PStr EmptyString)];
       [("tags", NaN); ("x", PStr "w"); ("y", PStr "v"); ("name", PStr "n");
        ("note", PStr EmptyString)]]
  ∧ ∃ ks, first_appearance records ks
      ∧ columns (to_table records schema)
        = ks ++ filter (fun c => c ∉ ks) (f_name <$> schema).
Proof.
  intros schema records.
  assert (Forall (fun item => NoDup (dict_keys item)) records) as H1.
  { repeat (apply Forall_cons; split; [compute_done|]). apply Forall_nil_2. }
  assert (NoDup (f_name <$> schema)) as H2 by compute_done.
  split; [exact H1|]. split; [exact H2|]. split; [reflexivity|]. split; [reflexivity|].
  destruct (table_columns records schema H1 H2) as (ks & Hks & Hcols & _).
  by exists ks.
Defined.

(** ** Round trip *)

Lemma four_fields_all_types : has_all_types four_fields.
Proof.
  intros t Ht. unfold four_fields.
  repeat (apply elem_of_cons in Ht as [->|Ht]).
  - exists (Field "s" "string" false None). split; [set_solver|done].
  - exists (Field "n" "number" false None). split; [set_solver|done].
  - exists (Field "b" "boolean" false None). split; [set_solver|done].
  - exists (Field "tags" "list" false None). split; [set_solver|done].
  - by apply elem_of_nil in Ht.
Qed.

Lemma four_values_record_of (P : string → pyval → Prop) s n b tags :
  P "string" s → P "number" n → P "boolean" b → P "list" tags →
  record_of P four_fields (four_values s n b tags).
Proof.
  intros Hs Hn Hb Ht. split_and!.
  - compute_done.
  - compute_done.
  - intros k Hk. exact Hk.
  - intros f Hf. unfold four_fields in Hf.
    repeat (apply elem_of_cons in Hf as [->|Hf]);
      [eexists; split; [reflexivity|done]..|].
    by apply elem_of_nil in Hf.
Qed.

(** What the round trip returns for a record, once computed, decides
    whether the round trip holds. *)
Lemma roundtrip_fails schema r r' k v v' :
  parse_dataframe (to_table [r] schema) schema = Ok [r'] →
  dict_get k r = Some v → dict_get k r' = Some v' → ¬ narrowed v v' →
  ¬ roundtrip schema r.
Proof.
  intros Hparse Hv Hv' Hn (r'' & Hparse' & _ & _ & Hvals).
  rewrite Hparse in Hparse'. injection Hparse' as <-.
  destruct (Hvals k v Hv) as (v'' & Hget & Hnar).
  rewrite Hv' in Hget. injection Hget as <-. done.
Qed.

(** C1, at concrete inputs: a list element with a leading space comes
    back trimmed; a string of one space comes back empty; an infinite
    number comes back as 0. Each record has representative values in
    the claim's sense, and none round-trips. *)
Lemma roundtrip_counterexample :
  let r1 := four_values (PStr "x") (PInt 1) (PBool true) (PList (PStr <$> [" a"])) in
  let r2 := four_values (PStr " ") (PInt 1) (PBool true) (PList (PStr <$> ["a"])) in
  let r3 := four_values (PStr "x") (PFloat (FInf false)) (PBool true)
              (PList (PStr <$> ["a"])) in
  has_all_types four_fields
  ∧ (record_of representative_as_claimed four_fields r1
     ∧ parse_dataframe (to_table [r1] four_fields) four_fields
       = Ok [four_values (PStr "x") (PInt 1) (PBool true) (PList [PStr "a"])]
     ∧ ¬ roundtrip four_fields r1)
  ∧ (record_of representative_as_claimed four_fields r2
     ∧ parse_dataframe (to_table [r2] four_fields) four_fields
       = Ok [four_values (PStr EmptyString) (PInt 1) (PBool true) (PList [PStr "a"])]
     ∧ ¬ roundtrip four_fields r2)
  ∧ (record_of representative_as_claimed four_fields r3
     ∧ parse_dataframe (to_table [r3] four_fields) four_fields
       = Ok [four_values (PStr "x") (PInt 0) (PBool true) (PList [PStr "a"])]
     ∧ ¬ roundtrip four_fields r3).
Proof.
  intros r1 r2 r3. split; [exact four_fields_all_types|].
  assert (∀ e, e ≠ EmptyString → comma_free e →
               representative_as_claimed "list" (PList (PStr <$> [e]))) as Hlist.
  { intros e ? ?. apply fits_list. by apply Forall_singleton. }
  split_and!.
  - apply four_values_record_of; try by constructor. by apply Hlist.
  - reflexivity.
  - eapply (roundtrip_fails _ _ _ "tags"); [reflexivity..|]. simpl. discriminate.
  - apply four_values_record_of; try by constructor. by apply Hlist.
  - reflexivity.
  - eapply (roundtrip_fails _ _ _ "s"); [reflexivity..|]. simpl. discriminate.
  - apply four_values_record_of; try by constructor. by apply Hlist.
  - reflexivity.
  - eapply (roundtrip_fails _ _ _ "n"); [reflexivity..|]. simpl.
    intros [(z & [] & _)|[_ [=]]].
Qed.

Section roundtrip.

Implicit Types (r : dict pyval) (schema : list field) (f : field)
  (row : Series) (v : pyval).

Lemma dict_get_Some_elem {V : Type} (d : dict V) k (x : V) :
  dict_get k d = Some x → (k, x) ∈ d.
Proof.
  induction d as [|[k' x'] d IH]; simpl; [done|].
  destruct (decide (k' = k)) as [->|Hne].
  - intros [= ->]. apply elem_of_cons. by left.
  - intros H. apply elem_of_cons. right. by apply IH.
Qed.

(** The types by field name, for distinct names. *)
Lemma field_types_fold schema : ∀ acc : dict string,
  NoDup (f_name <$> schema) →
  (∀ f, f ∈ schema → f_name f ∉ dict_keys acc) →
  fold_left (fun d f => dict_set (f_name f) (f_type f) d) schema acc
  = acc ++ ((fun f => (f_name f, f_type f)) <$> schema).
Proof.
  induction schema as [|f schema IH]; intros acc Hnd Hacc; simpl.
  - by rewrite app_nil_r.
  - rewrite fmap_cons in Hnd. apply NoDup_cons in Hnd as [Hf Hnd].
    rewrite dict_set_fresh by (apply Hacc, elem_of_cons; by left).
    rewrite IH; [by rewrite <- app_assoc|done|].
    intros f' Hf'. unfold dict_keys. rewrite fmap_app. simpl.
    intros [Hin|Hin%list_elem_of_singleton]%elem_of_app.
    + eapply Hacc; [|exact Hin]. apply elem_of_cons. by right.
    + apply Hf. rewrite <- Hin. by apply list_elem_of_fmap_2.
Qed.

Lemma keyed_get {A V : Type} (kf : A → string) (vf : A → V) (xs : list A) x :
  NoDup (kf <$> xs) → x ∈ xs →
  dict_get (kf x) ((fun y => (kf y, vf y)) <$> xs) = Some (vf x).
Proof.
  intros Hnd Hx. apply dict_get_elem.
  - unfold dict_keys. rewrite <- list_fmap_compose. exact Hnd.
  - apply list_elem_of_fmap. by exists x.
Qed.

Lemma field_types_get schema f :
  NoDup (f_name <$> schema) → f ∈ schema →
  dict_get (f_name f) (field_types schema) = Some (f_type f).
Proof.
  intros Hnd Hf. unfold field_types. rewrite field_types_fold; [|done|].
  - by apply (keyed_get f_name f_type).
  - intros ? _. apply not_elem_of_nil.
Qed.

(** The record of a row, for distinct field names: one entry per
    field, in schema order. *)
Lemma parse_row_fold row (out : field → pyval) schema : ∀ record : dict pyval,
  NoDup (f_name <$> schema) →
  (∀ f, f ∈ schema → f_name f ∉ dict_keys record) →
  (∀ f, f ∈ schema → parse_field row f = Ok (out f)) →
  parse_row row schema record
  = Ok (record ++ ((fun f => (f_name f, out f)) <$> schema)).
Proof.
  induction schema as [|f schema IH]; intros record Hnd Hrec Hout; simpl.
  - by rewrite app_nil_r.
  - rewrite fmap_cons in Hnd. apply NoDup_cons in Hnd as [Hf Hnd].
    rewrite (Hout f) by (apply elem_of_cons; by left). simpl.
    rewrite dict_set_fresh by (apply Hrec, elem_of_cons; by left).
    rewrite IH; [by rewrite <- app_assoc|done| |].
    + intros f' Hf'. unfold dict_keys. rewrite fmap_app. simpl.
      intros [Hin|Hin%list_elem_of_singleton]%elem_of_app.
      * eapply Hrec; [|exact Hin]. apply elem_of_cons. by right.
      * apply Hf. rewrite <- Hin. by apply list_elem_of_fmap_2.
    + intros f' Hf'. apply Hout, elem_of_cons. by right.
Qed.

(** The table of one record whose keys are the schema's: one row, the
    record's values after the list transform. *)
Lemma to_table_single schema r :
  NoDup (f_name <$> schema) → NoDup (dict_keys r) →
  (∀ f, f ∈ schema → f_name f ∈ dict_keys r) →
  ∃ row, iterrows (to_table [r] schema) = [row]
    ∧ ∀ k v, dict_get k r = Some v →
             dict_get k row = Some (convert_value (field_types schema) k v).
Proof.
  intros Hnames Hkeys Hall.
  assert (Forall (fun item => NoDup (dict_keys item)) [r]) as Hr
    by by apply Forall_singleton.
  rewrite to_table_shape by done.
  rewrite union_keys_single by done.
  set (extra := filter (fun c => c ∉ dict_keys r) (f_name <$> schema)).
  exists (zip (dict_keys r ++ extra)
            ((record_cell (field_types schema) r <$> dict_keys r)
             ++ replicate (length extra) (PStr EmptyString))).
  split; [done|]. intros k v Hv.
  rewrite iterrows_app_replicate.
  rewrite decide_True by (apply dict_get_is_Some; eauto).
  unfold record_cell. by rewrite Hv.
Qed.

Lemma number_of_float_narrowed g :
  finite g → ∃ v', number_of (PFloat g) = Ok v' ∧ narrowed (PFloat g) v'.
Proof.
  intros Hfin.
  destruct (number_of_finite (PFloat g) g eq_refl Hfin) as [Hint Hfloat].
  destruct (to_int_finite g Hfin) as [t Ht].
  destruct (Float.eqb_int g t) eqn:E.
  - apply eqb_int_represents in E. exists (PInt t).
    split; [by apply Hint|]. left. by exists t.
  - assert (∀ z, ¬ represents g z) as Hno.
    { intros z Hz. rewrite (to_int_represents g z Hz) in Ht.
      injection Ht as ->. apply eqb_int_represents in Hz. congruence. }
    exists (PFloat g). split; [by apply Hfloat|]. by right.
Qed.

(** One field of the round trip: the cell of a representative value
    is read back as that value, narrowed. *)
Lemma parse_field_representative row f v :
  row_get row (f_name f) (PStr EmptyString)
  = match v with
    | PList l =>
        if bool_decide (f_type f = "list")
        then PStr (Str.join ", " (py_str <$> l)) else v
    | _ => v
    end →
  representative (f_type f) v →
  ∃ v', parse_field row f = Ok v' ∧ narrowed v v'.
Proof.
  intros Hcell Hv. unfold parse_field. rewrite Hcell. clear Hcell.
  destruct Hv as [s [-> |Hs]|z Hz|g [Hg _]|b|es Hes]; simpl.
  - by exists (PStr EmptyString).
  - rewrite Hs. by exists (PStr s).
  - rewrite (first_not_space_not_blank _ (of_Z_first z)). exists (PInt z).
    split; [|done]. unfold coerce. simpl. unfold coerce_number.
    by rewrite number_of_int.
  - rewrite cell_is_blank_float by done. simpl.
    destruct (number_of_float_narrowed g Hg) as (v' & Hv' & Hn).
    exists v'. split; [|done]. unfold coerce. simpl. unfold coerce_number.
    by rewrite Hv'.
  - exists (PBool b). by destruct b.
  - rewrite <- list_fmap_compose.
    assert (py_str ∘ PStr <$> es = es) as ->.
    { rewrite <- (list_fmap_id es) at 2. by apply list_fmap_ext. }
    destruct es as [|e es]; [by exists (PList [])|].
    pose proof Hes as Hes'. apply Forall_cons in Hes' as [(Ht & Hn & _) _].
    rewrite (join_not_blank e es Ht Hn).
    exists (PList (PStr <$> e :: es)). split; [|done].
    unfold coerce. simpl. rewrite coerce_list_pieces. cbn [py_str].
    pose proof (list_pieces_join (e :: es) Hes) as Hp.
    cbn [Str.join] in Hp. by rewrite Hp.
Qed.

End roundtrip.

Lemma forallb_elem_false {A : Type} (p : A → bool) (l : list A) x :
  x ∈ l → p x = false → forallb p l = false.
Proof.
  intros Hx Hp. destruct (forallb p l) eqn:E; [|done].
  rewrite forallb_forall in E. rewrite <- Hp. symmetry. apply E.
  by apply list_elem_of_In.
Qed.

(** The example of the specification: a list of three tags comes back
    as it was. *)
Example roundtrip_tags :
  let schema := [Field "tags" "list" false None] in
  let record := [("tags", PList [PStr "a"; PStr "b"; PStr "c"])] in
  to_table [record] schema = {| columns := ["tags"]; rows := [[PStr "a, b, c"]] |}
  ∧ parse_dataframe (to_table [record] schema) schema = Ok [record].
Proof. by split. Qed.

(** C1 (amended): for every schema with a field of each of the four
    types and distinct field names, and every record that has the
    schema's fields as its keys with representative values (a string
    that is empty or not all whitespace; an integer of magnitude at
    most 2^53, or a finite float that, when it is whole, is of
    magnitude at most 2^53; a boolean; a list of strings that are
    non-empty, comma-free and without leading or trailing whitespace),
    the reconstruction of the table of the record returns one record,
    equal to the given one after number narrowing: a whole float has
    become the integer it equals, every other value is the same. In
    particular the record with the tags a, b, c comes back exactly. *)
Theorem roundtrip_representative (schema : list field) (r : dict pyval) :
  has_all_types schema →
  record_of representative schema r →
  roundtrip schema r
  ∧ parse_dataframe
      (to_table [[("tags", PList [PStr "a"; PStr "b"; PStr "c"])]]
                [Field "tags" "list" false None])
      [Field "tags" "list" false None]
    = Ok [[("tags", PList [PStr "a"; PStr "b"; PStr "c"])]].
Proof.
  intros Hall (Hnames & Hkeys & Hsub & Hvals). split; [|reflexivity].
  assert (∀ f, f ∈ schema → f_name f ∈ dict_keys r) as Hin.
  { intros f Hf. destruct (Hvals f Hf) as (v & Hv & _).
    apply dict_get_is_Some. eauto. }
  destruct (to_table_single schema r Hnames Hkeys Hin) as (row & Hrows & Hcells).
  (* every field is read back, narrowed *)
  assert (∀ f v, f ∈ schema → dict_get (f_name f) r = Some v →
            row_get row (f_name f) (PStr EmptyString)
            = match v with
              | PList l =>
                  if bool_decide (f_type f = "list")
                  then PStr (Str.join ", " (py_str <$> l)) else v
              | _ => v
              end) as Hcell.
  { intros f v Hf Hv. unfold row_get. rewrite (Hcells _ _ Hv). simpl.
    unfold convert_value. rewrite (field_types_get schema f Hnames Hf).
    by destruct v. }
  assert (∀ f, f ∈ schema →
            ∃ v v', dict_get (f_name f) r = Some v
                    ∧ parse_field row f = Ok v' ∧ narrowed v v') as Hfield.
  { intros f Hf. destruct (Hvals f Hf) as (v & Hv & Hrep).
    destruct (parse_field_representative row f v (Hcell f v Hf Hv) Hrep)
      as (v' & Hv' & Hn).
    by exists v, v'. }
  set (out := fun f => match parse_field row f with Ok v => v | Raise _ => PNone end).
  assert (∀ f, f ∈ schema → parse_field row f = Ok (out f)) as Hout.
  { intros f Hf. destruct (Hfield f Hf) as (v & v' & _ & Hv' & _).
    unfold out. by rewrite Hv'. }
  (* the row is not an empty row: its number cell is not blank *)
  assert (row_is_empty row = false) as Hrow.
  { destruct (Hall "number") as (f & Hf & Ht); [set_solver|].
    destruct (Hvals f Hf) as (v & Hv & Hrep). rewrite Ht in Hrep.
    assert (dict_get (f_name f) row = Some v) as Hget.
    { rewrite (Hcells _ _ Hv). f_equal. unfold convert_value.
      inversion Hrep; subst; by destruct (dict_get _ (field_types schema)). }
    apply dict_get_Some_elem in Hget.
    unfold row_is_empty. apply orb_false_intro.
    - apply (forallb_elem_false _ _ _ Hget). simpl.
      inversion Hrep as [|z Hz|g [Hg _]| |]; subst; [done|by destruct g].
    - apply (forallb_elem_false _ _ _ Hget). simpl.
      inversion Hrep as [|z Hz|g [Hg _]| |]; subst; simpl.
      + apply first_not_space_not_blank, of_Z_first.
      + apply first_not_space_not_blank, float_repr_first. }
  exists ((fun f => (f_name f, out f)) <$> schema). split.
  - unfold parse_dataframe. rewrite Hrows. simpl. rewrite Hrow.
    rewrite (parse_row_fold row out schema []); [done|done| |done].
    intros f _. apply not_elem_of_nil.
  - assert (dict_keys ((fun f => (f_name f, out f)) <$> schema) = f_name <$> schema)
      as Hk.
    { unfold dict_keys. by rewrite <- list_fmap_compose. }
    split_and!.
    + by rewrite Hk.
    + intros k. rewrite Hk. split; [|apply Hsub].
      intros (f & -> & Hf)%list_elem_of_fmap. by apply Hin.
    + intros k v Hv.
      assert (k ∈ f_name <$> schema) as (f & -> & Hf)%list_elem_of_fmap.
      { apply Hsub, dict_get_is_Some. eauto. }
      exists (out f). split; [by apply (keyed_get f_name out)|].
      destruct (Hfield f Hf) as (v0 & v' & Hv0 & Hv' & Hn).
      rewrite Hv in Hv0. injection Hv0 as <-.
      unfold out. by rewrite Hv'.
Qed.

Lemma roundtrip_representative_witness :
  let r := four_values (PStr "x") (PFloat (FFin false 3 0)) (PBool true)
             (PList (PStr <$> ["a"; "b"; "c"])) in
  has_all_types four_fields
  ∧ record_of representative four_fields r
  ∧ parse_dataframe (to_table [r] four_fields) four_fields
    = Ok [four_values (PStr "x") (PInt 3) (PBool true)
            (PList [PStr "a"; PStr "b"; PStr "c"])]
  ∧ roundtrip four_fields r.
Proof.
  intros r.
  assert (record_of representative four_fields r) as Hr.
  { apply four_values_record_of.
    - apply fits_string. by right.
    - apply fits_float. split; [done|]. intros z Hz. simpl in Hz. lia.
    - apply fits_boolean.
    - apply fits_list. repeat (apply Forall_cons; split; [by split_and!|]).
      apply Forall_nil_2. }
  split; [exact four_fields_all_types|]. split; [exact Hr|]. split; [reflexivity|].
  exact (proj1 (roundtrip_representative four_fields r four_fields_all_types Hr)).
Defined.

(** * Further properties of the schema store *)

Section fields.

Implicit Types (f g : field) (fs : list field) (fn : string).

Lemma upsert_present f fs :
  f_name f ∈ f_name <$> fs →
  ∃ i old, fs !! i = Some old ∧ f_name old = f_name f
    ∧ (∀ j g, (j < i)%nat → fs !! j = Some g → f_name g ≠ f_name f)
    ∧ upsert f fs = <[i := f]> fs.
Proof.
  intros (g & Hg & Hin)%list_elem_of_fmap. unfold upsert.
  destruct (list_find _ fs) as [[i old]|] eqn:E.
  - apply list_find_Some in E as (Hi & Hold & Hleast).
    exists i, old. split_and!; try done. intros j g' Hj Hg'. by eapply Hleast.
  - apply list_find_None in E. rewrite Forall_forall in E. by destruct (E g Hin).
Qed.

Lemma upsert_absent f fs : f_name f ∉ f_name <$> fs → upsert f fs = fs ++ [f].
Proof.
  intros H. unfold upsert.
  destruct (list_find _ fs) as [[i old]|] eqn:E; [|done].
  apply list_find_Some in E as (Hi & Hold & _). destruct H.
  apply list_elem_of_fmap. exists old. split; [done|]. by eapply list_elem_of_lookup_2.
Qed.

Lemma upsert_names f fs :
  f_name f ∈ f_name <$> fs → f_name <$> upsert f fs = f_name <$> fs.
Proof.
  intros (i & old & Hi & Hold & _ & ->)%upsert_present.
  rewrite list_fmap_insert. apply list_insert_id.
  by rewrite list_lookup_fmap, Hi, <- Hold.
Qed.

Lemma upsert_NoDup f fs : NoDup (f_name <$> fs) → NoDup (f_name <$> upsert f fs).
Proof.
  intros H. destruct (decide (f_name f ∈ f_name <$> fs)) as [Hin|Hout].
  - by rewrite upsert_names.
  - rewrite upsert_absent, fmap_app by done. apply NoDup_app. split_and!; [done| |].
    + intros x Hx [->|[]%elem_of_nil]%elem_of_cons. done.
    + apply NoDup_singleton.
Qed.

Lemma remove_names fn fs :
  f_name <$> remove fn fs = filter (fun x => x ≠ fn) (f_name <$> fs).
Proof.
  unfold remove. induction fs as [|g fs IH]; [done|].
  rewrite fmap_cons, !filter_cons, <- IH. by case_decide.
Qed.

Lemma remove_NoDup fn fs : NoDup (f_name <$> fs) → NoDup (f_name <$> remove fn fs).
Proof. intros H. rewrite remove_names. by apply NoDup_filter. Qed.

Lemma remove_absent fn fs : fn ∉ f_name <$> fs → remove fn fs = fs.
Proof.
  intros H. unfold remove. induction fs as [|g fs IH]; [done|].
  rewrite fmap_cons, not_elem_of_cons in H. destruct H as [H1 H2].
  rewrite filter_cons_True by done. by rewrite IH.
Qed.

Lemma remove_app fn fs1 fs2 : remove fn (fs1 ++ fs2) = remove fn fs1 ++ remove fn fs2.
Proof. apply filter_app. Qed.

Lemma upsert_upsert f g fs :
  f_name g = f_name f → upsert g (upsert f fs) = upsert g fs.
Proof.
  intros Hn. destruct (decide (f_name f ∈ f_name <$> fs)) as [Hin|Hout].
  - destruct (upsert_present f fs Hin) as (i & old & Hi & Hold & Hleast & ->).
    unfold upsert. rewrite Hn.
    assert (list_find (fun x => f_name x = f_name f) fs = Some (i, old)) as ->.
    { apply list_find_Some. split_and!; try done. intros j g' Hg' Hj. by eapply Hleast. }
    assert (list_find (fun x => f_name x = f_name f) (<[i:=f]> fs) = Some (i, f)) as ->.
    { apply list_find_Some. split_and!; try done.
      - apply list_lookup_insert_eq. by eapply lookup_lt_Some.
      - intros j g' Hg' Hj. rewrite list_lookup_insert_ne in Hg' by lia.
        by eapply Hleast. }
    apply list_insert_insert_eq.
  - rewrite (upsert_absent f fs Hout). unfold upsert at 1. rewrite Hn.
    assert (list_find (fun x => f_name x = f_name f) (fs ++ [f])
            = Some (length fs, f)) as ->.
    { apply list_find_Some. split_and!; try done.
      - by rewrite lookup_app_r, Nat.sub_diag.
      - intros j g' Hg' Hj. rewrite lookup_app_l in Hg' by done. intros E.
        apply Hout, list_elem_of_fmap. exists g'. split; [done|].
        by eapply list_elem_of_lookup_2. }
    rewrite upsert_absent by by rewrite Hn.
    rewrite insert_app_r_alt, Nat.sub_diag by done. done.
Qed.

End fields.

Section editing.

Implicit Types (s : Session) (n fn ft : string) (fs : list field).

Lemma fields_of_Some s n fs :
  fields_of s n = Some fs → ∃ l, schemas s !! n = Some l.
Proof. unfold fields_of. destruct (schemas s !! n); [eauto|done]. Qed.

(** X1. [update_schema] edits in place: when the schema has a field of
    that name, the first such field is replaced at its position and
    every other position keeps its definition; when it has none, the
    new definition is appended after the existing ones. No other schema
    changes. *)
Theorem update_schema_in_place s n fs fn ft rq w :
  wf s → fields_of s n = Some fs →
  ∃ s' fs', update_schema s n fn ft rq w = Ok s'
    ∧ fields_of s' n = Some fs'
    ∧ (fn ∈ f_name <$> fs →
       ∃ i old, fs !! i = Some old ∧ f_name old = fn
         ∧ (∀ j g, (j < i)%nat → fs !! j = Some g → f_name g ≠ fn)
         ∧ fs' = <[i := new_field fn ft rq w]> fs)
    ∧ (fn ∉ f_name <$> fs → fs' = fs ++ [new_field fn ft rq w])
    ∧ ∀ n', n' ≠ n → fields_of s' n' = fields_of s n'.
Proof.
  intros Hwf Hfs. destruct (fields_of_Some _ _ _ Hfs) as [l Hl].
  destruct (update_schema_spec s n l fn ft rq w Hwf Hl)
    as (s' & Hs' & _ & _ & _ & Hf & Ho).
  rewrite Hfs in Hf. simpl in Hf.
  exists s', (upsert (new_field fn ft rq w) fs). split_and!; try done.
  - intros Hin. by apply (upsert_present (new_field fn ft rq w)).
  - intros Hout. by apply (upsert_absent (new_field fn ft rq w)).
Qed.

Lemma update_schema_in_place_witness :
  ∃ s', update_schema init_session "Default" "value" "number" true None = Ok s'
    ∧ fields_of s' "Default"
      = Some [Field "name" "string" true None; Field "value" "number" true None].
Proof.
  destruct (update_schema_in_place init_session "Default"
              [Field "name" "string" true None; Field "value" "string" false None]
              "value" "number" true None wf_init eq_refl)
    as (s' & fs' & Hs' & Hf & Hin & _ & _).
  exists s'. split; [exact Hs'|]. rewrite Hf. f_equal.
  destruct Hin as (i & old & Hi & Hold & _ & ->).
  { apply list_elem_of_fmap. exists (Field "value" "string" false None).
    split; [done|]. apply elem_of_cons. right. apply elem_of_cons. by left. }
  destruct i as [|[|i]]; [by simplify_eq/=|done|done].
Defined.

(** X2. [delete_field] removes every field of the given name from the
    schema and keeps the other fields in their order; for a name the
    schema does not have, its fields are what they were. No other
    schema changes. *)
Theorem delete_field_removes s n fs fn :
  wf s → fields_of s n = Some fs →
  ∃ s' fs', delete_field s n fn = Ok s'
    ∧ fields_of s' n = Some fs'
    ∧ (fn ∉ f_name <$> fs')
    ∧ fs' = filter (fun g => f_name g ≠ fn) fs
    ∧ (fn ∉ f_name <$> fs → fs' = fs)
    ∧ ∀ n', n' ≠ n → fields_of s' n' = fields_of s n'.
Proof.
  intros Hwf Hfs. destruct (fields_of_Some _ _ _ Hfs) as [l Hl].
  destruct (delete_field_spec s n l fn Hwf Hl) as (s' & Hs' & _ & _ & Hf & Ho).
  rewrite Hfs in Hf. simpl in Hf.
  exists s', (remove fn fs). split_and!; try done.
  - rewrite remove_names. intros [? _]%list_elem_of_filter. done.
  - apply remove_absent.
Qed.

Lemma delete_field_removes_witness :
  ∃ s', delete_field init_session "Default" "name" = Ok s'
    ∧ fields_of s' "Default" = Some [Field "value" "string" false None].
Proof.
  destruct (delete_field_removes init_session "Default"
              [Field "name" "string" true None; Field "value" "string" false None]
              "name" wf_init eq_refl)
    as (s' & fs' & Hs' & Hf & _ & -> & _).
  exists s'. split; [exact Hs'|]. rewrite Hf. f_equal.
Defined.

(** X3. Adding a field under a name the schema does not have and then
    deleting that name gives back the fields the schema had. *)
Theorem add_then_delete_restores s n fs fn ft rq w :
  wf s → fields_of s n = Some fs → fn ∉ f_name <$> fs →
  ∃ s1 s2, update_schema s n fn ft rq w = Ok s1
    ∧ delete_field s1 n fn = Ok s2
    ∧ fields_of s2 n = Some fs
    ∧ ∀ n', n' ≠ n → fields_of s2 n' = fields_of s n'.
Proof.
  intros Hwf Hfs Hout. destruct (fields_of_Some _ _ _ Hfs) as [l Hl].
  destruct (update_schema_spec s n l fn ft rq w Hwf Hl)
    as (s1 & Hs1 & Hwf1 & Hsch & _ & Hf1 & Ho1).
  rewrite <- Hsch in Hl.
  destruct (delete_field_spec s1 n l fn Hwf1 Hl) as (s2 & Hs2 & _ & _ & Hf2 & Ho2).
  exists s1, s2. split_and!; try done.
  - rewrite Hf2, Hf1, Hfs. simpl. f_equal.
    rewrite (upsert_absent (new_field fn ft rq w)) by done.
    rewrite remove_app, remove_absent by done.
    unfold remove. rewrite filter_cons_False, filter_nil; [apply app_nil_r|].
    simpl. tauto.
  - intros n' Hn'. by rewrite Ho2, Ho1.
Qed.

Lemma add_then_delete_restores_witness :
  ∃ s1 s2, update_schema init_session "Default" "note" "string" false (Some "textarea") = Ok s1
    ∧ delete_field s1 "Default" "note" = Ok s2
    ∧ fields_of s2 "Default" = fields_of init_session "Default".
Proof.
  destruct (add_then_delete_restores init_session "Default"
              [Field "name" "string" true None; Field "value" "string" false None]
              "note" "string" false (Some "textarea") wf_init eq_refl)
    as (s1 & s2 & H1 & H2 & Hf & _).
  { intros H. repeat (apply elem_of_cons in H as [H|H]; [done|]).
    by apply elem_of_nil in H. }
  by exists s1, s2.
Defined.

(** X4. Updating the same field name twice leaves the schema as the
    second update alone would: the later definition wins, at the
    position the name already had, or once at the end. *)
Theorem update_schema_last_wins s n fs fn ft rq w ft' rq' w' :
  wf s → fields_of s n = Some fs →
  ∃ s1 s2 s2', update_schema s n fn ft rq w = Ok s1
    ∧ update_schema s1 n fn ft' rq' w' = Ok s2
    ∧ update_schema s n fn ft' rq' w' = Ok s2'
    ∧ ∀ n', fields_of s2 n' = fields_of s2' n'.
Proof.
  intros Hwf Hfs. destruct (fields_of_Some _ _ _ Hfs) as [l Hl].
  destruct (update_schema_spec s n l fn ft rq w Hwf Hl)
    as (s1 & Hs1 & Hwf1 & Hsch & _ & Hf1 & Ho1).
  assert (schemas s1 !! n = Some l) as Hl1 by by rewrite Hsch.
  destruct (update_schema_spec s1 n l fn ft' rq' w' Hwf1 Hl1)
    as (s2 & Hs2 & _ & _ & _ & Hf2 & Ho2).
  destruct (update_schema_spec s n l fn ft' rq' w' Hwf Hl)
    as (s2' & Hs2' & _ & _ & _ & Hf2' & Ho2').
  exists s1, s2, s2'. split_and!; try done.
  intros n'. destruct (decide (n' = n)) as [->|Hne].
  - rewrite Hf2, Hf1, Hf2', Hfs. simpl. f_equal. by apply upsert_upsert.
  - by rewrite Ho2, Ho1, Ho2'.
Qed.

Lemma update_schema_last_wins_witness :
  ∃ s1 s2 s2',
    update_schema init_session "Default" "value" "number" true None = Ok s1
    ∧ update_schema s1 "Default" "value" "list" false (Some "text") = Ok s2
    ∧ update_schema init_session "Default" "value" "list" false (Some "text") = Ok s2'
    ∧ ∀ n', fields_of s2 n' = fields_of s2' n'.
Proof.
  exact (update_schema_last_wins init_session "Default" _ "value" "number" true None
           "list" false (Some "text") wf_init eq_refl).
Defined.

End editing.

(** * Creating schemas and importing JSON *)

Section handlers.

Implicit Types (s : Session) (l p d : positive) (n : string) (f : field).

Lemma extends_wf s s1 : wf s → extends s s1 → wf s1.
Proof.
  intros Hwf (Hs & Hl & _ & Hd). split.
  - rewrite Hs. apply Hwf.
  - rewrite Hs, Hl. apply Hwf.
  - intros n l d Hn Hin. rewrite Hs in Hn. unfold list_at in Hin. rewrite Hl in Hin.
    apply Hd. by eapply (wf_dicts s Hwf n l).
  - rewrite Hs. apply Hwf.
Qed.

Lemma extends_fields s s1 n : wf s → extends s s1 → fields_of s1 n = fields_of s n.
Proof.
  intros Hwf (Hs & Hl & _ & Hd). unfold fields_of. rewrite Hs.
  destruct (schemas s !! n) as [l|] eqn:E; [|done]. simpl. f_equal.
  unfold list_at at 1. rewrite Hl. fold (list_at s l).
  apply list_eq. intros i. rewrite !list_lookup_fmap.
  destruct (list_at s l !! i) as [d|] eqn:Ei; [|done]. simpl. f_equal.
  apply Hd. eapply (wf_dicts s Hwf n l); [done|]. by eapply list_elem_of_lookup_2.
Qed.

Lemma extends_new_dict s f : extends s (new_dict f s).2.
Proof.
  split_and!; try done. intros d Hd. split.
  - unfold new_dict. simpl. apply lookup_insert_is_Some'. by right.
  - by apply dict_at_new_dict.
Qed.

Lemma extends_trans s s1 s2 : extends s s1 → extends s1 s2 → extends s s2.
Proof.
  intros (Hs & Hl & Ha & Hd) (Hs' & Hl' & Ha' & Hd'). split_and!; try congruence.
  intros d H. destruct (Hd d H) as [H1 E1]. destruct (Hd' d H1) as [H2 E2].
  split; [done|congruence].
Qed.

Lemma new_dicts_spec (fs : list field) : ∀ s,
  extends s (new_dicts fs s).2
  ∧ (∀ d, d ∈ (new_dicts fs s).1 → is_Some (dict_objs (new_dicts fs s).2 !! d))
  ∧ dict_at (new_dicts fs s).2 <$> (new_dicts fs s).1 = fs.
Proof.
  induction fs as [|f fs IH]; intros s.
  - simpl. split_and!; [by split_and!|by intros d ?%elem_of_nil|done].
  - cbn [new_dicts]. destruct (new_dict f s) as [d s1] eqn:E1.
    assert (extends s s1) as H1.
    { pose proof (extends_new_dict s f) as H. by rewrite E1 in H. }
    assert (dict_objs s1 !! d = Some f) as Hd.
    { unfold new_dict in E1. injection E1 as <- <-. simpl. apply lookup_insert_eq. }
    destruct (IH s1) as (H2 & Hin & Hf).
    destruct (new_dicts fs s1) as [ds s2] eqn:E2. cbn [fst snd] in *.
    pose proof H2 as (Hs & Hl & Ha & Hds). destruct (Hds d) as [Hd2 Ed2]; [eauto|].
    split_and!.
    + by eapply extends_trans.
    + intros d' [->|?]%elem_of_cons; [done|by apply Hin].
    + rewrite fmap_cons, Hf, Ed2. unfold dict_at. by rewrite Hd.
Qed.

(** [schema.append(new_field)] on the list of an existing schema. *)
Lemma append_field_spec s n l f :
  wf s → schemas s !! n = Some l →
  let s' := append_field l f s in
  wf s' ∧ schemas s' = schemas s ∧ active_schema s' = active_schema s
  ∧ fields_of s' n = (fun fs => fs ++ [f]) <$> fields_of s n
  ∧ ∀ n', n' ≠ n → fields_of s' n' = fields_of s n'.
Proof.
  intros Hwf Hl. unfold append_field.
  pose proof (extends_new_dict s f) as Hext.
  pose proof (dict_at_fresh s f) as Hnew.
  destruct (new_dict f s) as [d s1] eqn:E1. simpl in *.
  assert (is_Some (dict_objs s1 !! d)) as Hd.
  { unfold new_dict in E1. injection E1 as <- <-. simpl. rewrite lookup_insert_eq. eauto. }
  pose proof (extends_wf _ _ Hwf Hext) as Hwf1.
  pose proof (fun n' => extends_fields s s1 n' Hwf Hext) as Hf1.
  destruct Hext as (Hs & Hlo & Ha & _).
  assert (schemas s1 !! n = Some l) as Hl1 by by rewrite Hs.
  split_and!; try done.
  - split; simpl.
    + apply Hwf1.
    + intros n' l' Hl'. apply lookup_insert_is_Some'.
      destruct (decide (l = l')); [by left|right]. by eapply wf_lists.
    + intros n' l' d' Hl' Hd'. unfold list_at in Hd'. simpl in Hd'.
      destruct (decide (l' = l)) as [->|Hne].
      * rewrite lookup_insert_eq in Hd'. simpl in Hd'.
        apply elem_of_app in Hd' as [Hd'|Hd'];
          [|by apply list_elem_of_singleton in Hd' as ->].
        by eapply (wf_dicts s1 Hwf1 n l).
      * rewrite lookup_insert_ne in Hd' by done. by eapply (wf_dicts s1 Hwf1 n' l').
    + apply Hwf1.
  - rewrite <- Hf1. unfold fields_of. simpl. rewrite Hl1. simpl. f_equal.
    etrans; [|by rewrite <- Hnew, <- (fmap_app (dict_at s1) _ [d])].
    f_equal. unfold list_at at 1. simpl. by rewrite lookup_insert_eq.
  - intros n' Hn'. rewrite <- Hf1. unfold fields_of. simpl.
    destruct (schemas s1 !! n') as [l'|] eqn:Hl'; [|done]. simpl. f_equal.
    change (dict_at s1 <$> default [] (<[l:=list_at s1 l ++ [d]]> (list_objs s1) !! l')
            = dict_at s1 <$> list_at s1 l').
    rewrite lookup_insert_ne; [done|].
    intros ->. apply Hn'. by eapply (wf_no_alias s1 Hwf1).
Qed.

Lemma merge_fold n l (ex : list string) (new : list field) : ∀ s,
  wf s → schemas s !! n = Some l →
  let s' := foldl (fun s new_field =>
                     if bool_decide (f_name new_field ∉ ex)
                     then append_field l new_field s else s) s new in
  wf s' ∧ schemas s' = schemas s ∧ active_schema s' = active_schema s
  ∧ fields_of s' n
    = (fun fs => fs ++ filter (fun f => f_name f ∉ ex) new) <$> fields_of s n
  ∧ ∀ n', n' ≠ n → fields_of s' n' = fields_of s n'.
Proof.
  induction new as [|f new IH]; intros s Hwf Hl.
  - simpl. split_and!; try done.
    destruct (fields_of s n) as [fs|]; [|done]. simpl. f_equal.
    by rewrite filter_nil, app_nil_r.
  - cbn [foldl]. rewrite filter_cons.
    destruct (decide (f_name f ∉ ex)) as [Hf|Hf].
    + rewrite bool_decide_eq_true_2 by done.
      destruct (append_field_spec s n l f Hwf Hl) as (Hwf1 & Hs1 & Ha1 & Hf1 & Ho1).
      destruct (IH (append_field l f s) Hwf1) as (Hwf2 & Hs2 & Ha2 & Hf2 & Ho2).
      { by rewrite Hs1. }
      split_and!; try done; try congruence.
      * etrans; [exact Hf2|]. rewrite Hf1.
        destruct (fields_of s n) as [fs|]; [|done]. simpl. f_equal.
        by rewrite <- app_assoc.
      * intros n' Hn'. etrans; [by apply Ho2|]. by apply Ho1.
    + rewrite bool_decide_eq_false_2 by done. by apply IH.
Qed.

Lemma filter_all {A} (P : A → Prop) `{∀ x, Decision (P x)} (xs : list A) :
  (∀ x, x ∈ xs → P x) → filter P xs = xs.
Proof.
  induction xs as [|x xs IH]; intros Hall; [done|].
  rewrite filter_cons_True by (apply Hall, elem_of_cons; by left).
  f_equal. apply IH. intros y Hy. apply Hall, elem_of_cons. by right.
Qed.

(** The merge of an import on an existing schema. *)
Lemma merge_schema_spec s n l (new : list field) (fs : list field) :
  wf s → schemas s !! n = Some l → fields_of s n = Some fs →
  let s' := merge_schema s n l new in
  wf s'
  ∧ (∀ n', is_Some (schemas s' !! n') ↔ is_Some (schemas s !! n'))
  ∧ active_schema s' = active_schema s
  ∧ fields_of s' n = Some (merge_fields fs new)
  ∧ ∀ n', n' ≠ n → fields_of s' n' = fields_of s n'.
Proof.
  intros Hwf Hl Hfs. unfold merge_schema.
  assert (fs = dict_at s <$> list_at s l) as Efs.
  { unfold fields_of in Hfs. rewrite Hl in Hfs. simpl in Hfs. congruence. }
  case_bool_decide as Hnil; simpl.
  - (* a schema without fields is replaced *)
    rewrite Hnil in Efs. simpl in Efs. subst fs.
    destruct (new_dicts_spec new s) as (Hext & Hin & Hf).
    destruct (new_dicts new s) as [ds s1]. simpl in *.
    pose proof (extends_wf _ _ Hwf Hext) as Hwf1.
    assert (n ≠ EmptyString) as Hn.
    { intros ->. by rewrite (wf_named s Hwf) in Hl. }
    destruct (new_list_spec s1 ds n Hwf1 Hin Hn) as (Hwf2 & Hf2 & Ho2).
    unfold new_list in *. simpl in *.
    pose proof Hext as (Hs & _ & Ha & _).
    split_and!; try done.
    + intros n'. rewrite Hs. destruct (decide (n' = n)) as [->|Hne].
      * rewrite lookup_insert_eq, Hl. split; eauto.
      * by rewrite lookup_insert_ne.
    + rewrite Hf2, Hf. f_equal. unfold merge_fields. simpl. symmetry.
      apply filter_all. intros x _. apply not_elem_of_nil.
    + intros n' Hn'. rewrite Ho2 by done. by apply extends_fields.
  - destruct (merge_fold n l ((fun d => f_name (dict_at s d)) <$> list_at s l) new s Hwf Hl)
      as (Hwf' & Hs' & Ha' & Hf' & Ho').
    split_and!; try done.
    + intros n'. by rewrite Hs'.
    + etrans; [exact Hf'|]. rewrite Hfs. simpl. f_equal. unfold merge_fields.
      f_equal. rewrite Efs, <- list_fmap_compose. done.
Qed.

End handlers.

Section sessions.

Implicit Types (s : Session) (n sel name : string) (fs : list field).

(** The "Create Schema" handler on a new name. *)
Lemma create_schema_new_spec s sel name kind l :
  wf s → name ≠ EmptyString → schemas s !! name = None →
  schemas s !! sel = Some l →
  ∃ s', create_schema s sel name kind = Ok (s', StRerun)
    ∧ wf s'
    ∧ active_schema s' = name
    ∧ fields_of s' name
      = match kind with EmptySchema => Some [] | CopyCurrent => fields_of s sel end
    ∧ ∀ n', n' ≠ name → fields_of s' n' = fields_of s n'.
Proof.
  intros Hwf Hnew Hfree Hl. unfold create_schema.
  destruct name as [|c name]; [done|]. simpl.
  rewrite bool_decide_eq_true_2 by by apply not_elem_of_dom.
  destruct kind; simpl.
  - destruct (new_list_spec s [] (String c name) Hwf) as (Hwf' & Hf & Ho); [|done|].
    { by intros d ?%elem_of_nil. }
    eexists. split; [done|]. split_and!; try done. destruct Hwf'. by split.
  - unfold schemas_getitem. rewrite Hl. simpl.
    destruct (new_list_spec s (list_at s l) (String c name) Hwf) as (Hwf' & Hf & Ho);
      [|done|].
    { intros d Hd. by eapply (wf_dicts s Hwf sel l). }
    eexists. split; [done|]. split_and!; try done.
    + destruct Hwf'. by split.
    + etrans; [exact Hf|]. unfold fields_of. by rewrite Hl.
Qed.

Lemma create_schema_old s sel name kind :
  name = EmptyString ∨ is_Some (schemas s !! name) →
  ∃ ev, create_schema s sel name kind = Ok (s, ev).
Proof.
  intros [->|Hold]; [by eexists|]. unfold create_schema.
  destruct (Str.is_empty name); simpl; [by eexists|].
  rewrite bool_decide_eq_false_2; [by eexists|].
  intros H. apply H. by apply elem_of_dom.
Qed.

Lemma import_json_spec s data n l raw opt :
  schemas s !! n = Some l →
  ∃ s' data' ev, import_json s data n raw opt = Ok (s', data', ev)
    ∧ (s' = s
       ∨ ∃ new, generate_schema_from_json
                  (if isinstance_dict raw then PList [raw] else raw) = Ok new
                ∧ s' = merge_schema s n l new).
Proof.
  intros Hl. unfold import_json, schemas_getitem. rewrite Hl. simpl.
  destruct (py_truthy raw); [|by eauto 6].
  destruct opt.
  - destruct (generate_schema_from_json _) as [new|e] eqn:E; simpl; [|by eauto 6].
    destruct (_ ≫= _); eauto 8.
  - destruct (_ ≫= _); eauto 8.
Qed.

Lemma infer_field_name kv : f_name (infer_field kv) = kv.1.
Proof. by destruct kv. Qed.

Lemma infer_names (sample : dict pyval) : f_name <$> (infer_field <$> sample) = dict_keys sample.
Proof.
  unfold dict_keys. rewrite <- list_fmap_compose. apply list_fmap_ext.
  intros i kv _. apply infer_field_name.
Qed.

Lemma generate_schema_NoDup raw new :
  sample_keys_distinct raw →
  generate_schema_from_json (if isinstance_dict raw then PList [raw] else raw) = Ok new →
  NoDup (f_name <$> new).
Proof.
  intros Hk H.
  assert (∀ d, NoDup (dict_keys d) → Ok (infer_field <$> d) = Ok new →
               NoDup (f_name <$> new)) as Hd.
  { intros d Hd [= <-]. by rewrite infer_names. }
  destruct raw as [| | | | |[|x xs]|d]; simpl in *;
    try (injection H as <-; apply NoDup_nil_2); [|by eapply Hd].
  destruct x; try done. by eapply Hd.
Qed.

Lemma filter_fmap_NoDup {A B} (f : A → B) (P : A → Prop) `{∀ x, Decision (P x)}
    (xs : list A) :
  NoDup (f <$> xs) → NoDup (f <$> filter P xs).
Proof.
  induction xs as [|x xs IH]; [done|]. rewrite fmap_cons, NoDup_cons.
  intros [Hx Hxs]. rewrite filter_cons. case_decide; [|by apply IH].
  rewrite fmap_cons. apply NoDup_cons. split; [|by apply IH].
  intros (y & Hy & [_ Hin]%list_elem_of_filter)%list_elem_of_fmap.
  apply Hx, list_elem_of_fmap. eauto.
Qed.

Lemma merge_fields_NoDup fs (new : list field) :
  NoDup (f_name <$> fs) → NoDup (f_name <$> new) →
  NoDup (f_name <$> merge_fields fs new).
Proof.
  intros Hfs Hnew. unfold merge_fields. rewrite fmap_app. apply NoDup_app.
  split_and!; [done| |by apply filter_fmap_NoDup].
  intros x Hx (y & -> & [Hy _]%list_elem_of_filter)%list_elem_of_fmap. done.
Qed.

Lemma tidy_nil : tidy [].
Proof. split; [apply NoDup_nil_2|by intros f ?%elem_of_nil]. Qed.

Lemma tidy_upsert (f : field) fs : f_type f ∈ four_types → tidy fs → tidy (upsert f fs).
Proof.
  intros Hf [Hnd Hty]. split; [by apply upsert_NoDup|].
  intros g Hg. unfold upsert in Hg. destruct (list_find _ fs) as [[i old]|].
  - apply elem_of_list_insert_inv in Hg as [->|Hg]; [done|by apply Hty].
  - apply elem_of_app in Hg as [Hg|Hg]; [by apply Hty|].
    by apply list_elem_of_singleton in Hg as ->.
Qed.

Lemma tidy_remove fn fs : tidy fs → tidy (remove fn fs).
Proof.
  intros [Hnd Hty]. split; [by apply remove_NoDup|].
  intros g [_ Hg]%list_elem_of_filter. by apply Hty.
Qed.

Lemma tidy_merge fs (new : list field) : tidy fs → tidy new → tidy (merge_fields fs new).
Proof.
  intros [Hnd Hty] [Hnd' Hty']. split; [by apply merge_fields_NoDup|].
  intros g [Hg|[_ Hg]%list_elem_of_filter]%elem_of_app; [by apply Hty|by apply Hty'].
Qed.

Lemma guess_field_type_four v : guess_field_type v ∈ four_types.
Proof. unfold four_types. destruct v; simpl; rewrite !elem_of_cons; tauto. Qed.

Lemma generate_schema_tidy raw new :
  sample_keys_distinct raw →
  generate_schema_from_json (if isinstance_dict raw then PList [raw] else raw) = Ok new →
  tidy new.
Proof.
  intros Hk H. split; [by eapply generate_schema_NoDup|].
  assert (∀ d : dict pyval, Ok (infer_field <$> d) = Ok new →
            ∀ f, f ∈ new → f_type f ∈ four_types) as Hd.
  { intros d [= <-] f ([k v] & -> & _)%list_elem_of_fmap. apply guess_field_type_four. }
  destruct raw as [| | | | |[|x xs]|d]; simpl in *;
    try (injection H as <-; by intros ? ?%elem_of_nil); [|exact (Hd d H)].
  destruct x; try done. exact (Hd _ H).
Qed.

Lemma press_consistent s s' : consistent s → press s s' → consistent s'.
Proof.
  intros (Hwf & Hdef & Hnd) Hpress.
  assert (∀ s', wf s' →
            (∀ n, is_Some (schemas s !! n) → is_Some (schemas s' !! n)) →
            (∀ n fs, fields_of s' n = Some fs → tidy fs) →
            consistent s') as Hgoal.
  { intros s0 ? Hdom ?. split_and!; try done. by apply Hdom. }
  destruct Hpress as [sel name kind s' ev [l Hl] Hs'|sel fn ft rq w s' [l Hl] Hft Hs'
                     |sel fn s' [l Hl] Hs'|sel data raw opt s' data' ev [l Hl] Hk Hs'].
  - destruct (decide (name = EmptyString ∨ is_Some (schemas s !! name))) as [Hold|Hnew].
    { destruct (create_schema_old s sel name kind Hold) as [ev' E].
      rewrite E in Hs'. injection Hs' as <- _. by split_and!. }
    assert (name ≠ EmptyString ∧ schemas s !! name = None) as [Hne Hfree].
    { split; [tauto|]. destruct (schemas s !! name) eqn:E; [|done].
      destruct Hnew. right. eauto. }
    destruct (create_schema_new_spec s sel name kind l Hwf Hne Hfree Hl)
      as (s1 & E & Hwf1 & _ & Hf & Ho).
    rewrite E in Hs'. injection Hs' as <- _. apply Hgoal; [done| |].
    + intros n Hn. apply fields_of_is_Some.
      destruct (decide (n = name)) as [->|Hn']; [|by rewrite Ho, fields_of_is_Some].
      rewrite Hf. destruct kind; [eauto|]. apply fields_of_is_Some. eauto.
    + intros n fs Hfs. destruct (decide (n = name)) as [->|Hn'].
      * rewrite Hf in Hfs. destruct kind; [injection Hfs as <-; apply tidy_nil|].
        by eapply Hnd.
      * rewrite Ho in Hfs by done. by eapply Hnd.
  - destruct (update_schema_spec s sel l fn ft rq w Hwf Hl)
      as (s1 & E & Hwf1 & Hsch & _ & Hf & Ho).
    rewrite E in Hs'. injection Hs' as <-. apply Hgoal; [done|by rewrite Hsch|].
    intros n fs Hfs. destruct (decide (n = sel)) as [->|Hn'].
    + rewrite Hf in Hfs. destruct (fields_of s sel) as [fs0|] eqn:E0; [|done].
      injection Hfs as <-. apply tidy_upsert; [done|]. by eapply Hnd.
    + rewrite Ho in Hfs by done. by eapply Hnd.
  - destruct (delete_field_spec s sel l fn Hwf Hl) as (s1 & E & Hwf1 & Hsel & Hf & Ho).
    rewrite E in Hs'. injection Hs' as <-. apply Hgoal; [done| |].
    + intros n Hn. destruct (decide (n = sel)) as [->|Hn']; [done|].
      by rewrite <- fields_of_is_Some, Ho, fields_of_is_Some.
    + intros n fs Hfs. destruct (decide (n = sel)) as [->|Hn'].
      * rewrite Hf in Hfs. destruct (fields_of s sel) as [fs0|] eqn:E0; [|done].
        injection Hfs as <-. apply tidy_remove. by eapply Hnd.
      * rewrite Ho in Hfs by done. by eapply Hnd.
  - destruct (import_json_spec s data sel l raw opt Hl)
      as (s1 & data1 & ev1 & E & Hcases).
    rewrite E in Hs'. injection Hs' as <- _ _.
    destruct Hcases as [->|(new & Hnew & ->)]; [by split_and!|].
    assert (is_Some (fields_of s sel)) as [fs0 Hfs0].
    { apply fields_of_is_Some. eauto. }
    destruct (merge_schema_spec s sel l new fs0 Hwf Hl Hfs0) as (Hwf1 & Hdom & _ & Hf & Ho).
    apply Hgoal; [done|by intros n ?%Hdom|].
    intros n fs Hfs. destruct (decide (n = sel)) as [->|Hn'].
    + rewrite Hf in Hfs. injection Hfs as <-. apply tidy_merge.
      * by eapply Hnd.
      * by eapply generate_schema_tidy.
    + rewrite Ho in Hfs by done. by eapply Hnd.
Qed.

Lemma consistent_init : consistent init_session.
Proof.
  split_and!; [apply wf_init|by eexists|].
  intros n fs Hfs. unfold fields_of in Hfs.
  destruct (schemas init_session !! n) as [l|] eqn:E; [|done].
  simpl in E. apply lookup_singleton_Some in E as [<- <-]. injection Hfs as <-.
  split.
  - change (NoDup ["name"; "value"]). apply NoDup_cons.
    split; [by intros ?%list_elem_of_singleton|apply NoDup_singleton].
  - intros f Hf. change (f ∈ [Field "name" "string" true None;
                              Field "value" "string" false None]) in Hf.
    repeat (apply elem_of_cons in Hf as [->|Hf]); [..|by apply elem_of_nil in Hf];
      apply elem_of_cons; by left.
Qed.

End sessions.

Section session_theorems.

Implicit Types (s : Session) (n sel name : string) (fs : list field).

(** X5. The "Create Schema" handler on a non-empty name no schema has:
    the schema is created and made the active one; it has no fields
    when created empty and the selected schema's fields when copied;
    every other schema keeps its fields. *)
Theorem create_schema_fresh s sel name kind fs :
  wf s → name ≠ EmptyString → schemas s !! name = None →
  fields_of s sel = Some fs →
  ∃ s', create_schema s sel name kind = Ok (s', StRerun)
    ∧ active_schema s' = name
    ∧ fields_of s' name = Some (match kind with EmptySchema => [] | CopyCurrent => fs end)
    ∧ ∀ n', n' ≠ name → fields_of s' n' = fields_of s n'.
Proof.
  intros Hwf Hne Hfree Hfs. destruct (fields_of_Some _ _ _ Hfs) as [l Hl].
  destruct (create_schema_new_spec s sel name kind l Hwf Hne Hfree Hl)
    as (s' & E & _ & Ha & Hf & Ho).
  exists s'. split_and!; try done. rewrite Hf. by destruct kind.
Qed.

Lemma create_schema_fresh_witness :
  ∃ s', create_schema init_session "Default" "Users" EmptySchema = Ok (s', StRerun)
    ∧ active_schema s' = "Users"
    ∧ fields_of s' "Users" = Some []
    ∧ fields_of s' "Default" = fields_of init_session "Default".
Proof.
  destruct (create_schema_fresh init_session "Default" "Users" EmptySchema _
              wf_init ltac:(done) eq_refl eq_refl) as (s' & E & Ha & Hf & Ho).
  exists s'. split_and!; try done. by apply Ho.
Defined.

(** X6. In every session the program can get to by creating schemas,
    adding, updating and deleting fields and importing JSON, the store
    is well formed (no two schema names share a list, every reference
    resolves), the schema "Default" still exists, no schema has two
    fields of the same name, and every field has one of the types
    string, number, boolean and list. *)
Theorem reachable_consistent s :
  reachable s →
  wf s
  ∧ is_Some (schemas s !! "Default")
  ∧ ∀ n fs, fields_of s n = Some fs →
      NoDup (f_name <$> fs) ∧ ∀ f, f ∈ fs → f_type f ∈ four_types.
Proof.
  unfold reachable. intros H.
  assert (consistent init_session → consistent s) as Hc.
  { induction H as [|s0 s1 s2 Hstep _ IH]; [done|].
    intros H0. apply IH. by eapply press_consistent. }
  apply Hc, consistent_init.
Qed.

Lemma reachable_consistent_witness :
  ∃ s, import_json init_session None "Default"
         (PDict [("name", PStr "a"); ("tags", PList [PStr "x"])]) UpdateSchemaAndData
       = Ok (s, Some (Frame ["name"; "tags"] [[PStr "a"; PStr "x"]]), ImportSuccess)
    ∧ reachable s
    ∧ ∀ n fs, fields_of s n = Some fs →
        NoDup (f_name <$> fs) ∧ ∀ f, f ∈ fs → f_type f ∈ four_types.
Proof.
  eexists. split; [vm_compute; reflexivity|].
  match goal with |- reachable ?x ∧ _ => set (s := x) end.
  assert (reachable s) as Hr.
  { apply rtc_once.
    apply (press_import init_session "Default" None
             (PDict [("name", PStr "a"); ("tags", PList [PStr "x"])])
             UpdateSchemaAndData s
             (Some (Frame ["name"; "tags"] [[PStr "a"; PStr "x"]])) ImportSuccess).
    - by eexists.
    - simpl. apply NoDup_cons. split; [by intros ?%list_elem_of_singleton|].
      apply NoDup_singleton.
    - vm_compute. reflexivity. }
  split; [exact Hr|]. apply (reachable_consistent s Hr).
Defined.

End session_theorems.

Section importing.

Implicit Types (s : Session) (n : string) (fs : list field) (raw : pyval).

Lemma all_items_objects (records : list (dict pyval)) :
  all_items (PDict <$> records) = Ok records.
Proof.
  induction records as [|r records IH]; [done|].
  rewrite fmap_cons. cbn [all_items py_items]. by rewrite IH.
Qed.

Lemma all_items_not_object (items : list pyval) x :
  x ∈ items → isinstance_dict x = false → all_items items = Raise AttributeError.
Proof.
  intros Hin Hx. induction items as [|y items IH]; [by apply elem_of_nil in Hin|].
  apply elem_of_cons in Hin as [<-|Hin].
  - by destruct x.
  - cbn [all_items]. rewrite (IH Hin). by destruct y.
Qed.

Lemma fields_of_getitem_Some s n fs :
  fields_of s n = Some fs → fields_of_getitem s n = Ok fs.
Proof.
  unfold fields_of, fields_of_getitem, schemas_getitem.
  destruct (schemas s !! n); [|done]. simpl. by intros [= <-].
Qed.

(** The import of a non-empty array of objects. *)
Lemma import_array_spec s data n fs (records : list (dict pyval)) opt :
  wf s → fields_of s n = Some fs → records ≠ [] →
  ∃ s' fs',
    import_json s data n (PList (PDict <$> records)) opt
    = Ok (s', Some (pd_DataFrame (convert_for_dataframe records fs')), ImportSuccess)
    ∧ fields_of s' n = Some fs'
    ∧ fs' = match opt with
            | UpdateSchemaAndData =>
                merge_fields fs (infer_field <$> default [] (head records))
            | UpdateDataOnly => fs
            end
    ∧ (opt = UpdateDataOnly → s' = s)
    ∧ ∀ n', n' ≠ n → fields_of s' n' = fields_of s n'.
Proof.
  intros Hwf Hfs Hne. destruct (fields_of_Some _ _ _ Hfs) as [l Hl].
  destruct records as [|r records]; [done|].
  unfold import_json, schemas_getitem. rewrite Hl.
  cbn [mbind result_bind py_truthy]. rewrite fmap_cons.
  rewrite bool_decide_eq_false_2 by done. cbn [negb isinstance_dict].
  destruct opt.
  - cbn [generate_schema_from_json py_items mbind result_bind].
    destruct (merge_schema_spec s n l (infer_field <$> r) fs Hwf Hl Hfs)
      as (_ & _ & _ & Hf & Ho).
    rewrite (fields_of_getitem_Some _ _ _ Hf). cbn [mbind result_bind].
    unfold convert_raw. cbn [py_iter mbind result_bind].
    rewrite <- fmap_cons, all_items_objects.
    eexists _, _. split; [reflexivity|]. by split_and!.
  - rewrite (fields_of_getitem_Some _ _ _ Hfs). cbn [mbind result_bind].
    unfold convert_raw. cbn [py_iter mbind result_bind].
    rewrite <- fmap_cons, all_items_objects.
    eexists _, _. split; [reflexivity|]. by split_and!.
Qed.

(** X7. Importing a non-empty array of objects always succeeds. With
    "Update Schema & Data" the selected schema first gains, after its
    own fields, the fields inferred from the first object whose names
    it lacks; with "Update Data Only" the session is unchanged. The new
    table is built from the records converted under the selected
    schema as it is after that step. No other schema changes. *)
Theorem import_array_succeeds s data n fs (records : list (dict pyval)) opt :
  wf s → fields_of s n = Some fs → records ≠ [] →
  ∃ s' fs',
    import_json s data n (PList (PDict <$> records)) opt
    = Ok (s', Some (pd_DataFrame (convert_for_dataframe records fs')), ImportSuccess)
    ∧ fields_of s' n = Some fs'
    ∧ fs' = match opt with
            | UpdateSchemaAndData =>
                fs ++ filter (fun f => f_name f ∉ f_name <$> fs)
                        (infer_field <$> default [] (head records))
            | UpdateDataOnly => fs
            end
    ∧ (opt = UpdateDataOnly → s' = s)
    ∧ ∀ n', n' ≠ n → fields_of s' n' = fields_of s n'.
Proof.
  intros Hwf Hfs Hne.
  destruct (import_array_spec s data n fs records opt Hwf Hfs Hne)
    as (s' & fs' & E & Hf & Hfs' & Hs & Ho).
  by exists s', fs'.
Qed.

Lemma import_array_succeeds_witness :
  ∃ s', import_json init_session None "Default"
          (PList [PDict [("name", PStr "a"); ("tags", PList [PStr "x"; PStr "y"])];
                  PDict [("name", PStr "b"); ("age", PInt 3)]])
          UpdateSchemaAndData
        = Ok (s', Some (Frame ["name"; "tags"; "age"]
                          [[PStr "a"; PStr "x, y"; NaN]; [PStr "b"; NaN; PInt 3]]),
              ImportSuccess)
    ∧ fields_of s' "Default"
      = Some [Field "name" "string" true None; Field "value" "string" false None;
              Field "tags" "list" false (Some EmptyString)].
Proof.
  destruct (import_array_succeeds init_session None "Default" _
              [[("name", PStr "a"); ("tags", PList [PStr "x"; PStr "y"])];
               [("name", PStr "b"); ("age", PInt 3)]]
              UpdateSchemaAndData wf_init eq_refl ltac:(done))
    as (s' & fs' & E & Hf & -> & _ & _).
  exists s'. split; [exact E|exact Hf].
Defined.

(** X8. An import with "Update Schema & Data" of an array whose first
    element is an object and which has an element that is no object
    reports an AttributeError and leaves the table as it was, but the
    selected schema has already been merged with the fields of the
    first object. *)
Theorem import_fails_after_merge s data n fs (sample : dict pyval) (rest : list pyval) x :
  wf s → fields_of s n = Some fs →
  x ∈ rest → isinstance_dict x = false →
  ∃ s', import_json s data n (PList (PDict sample :: rest)) UpdateSchemaAndData
        = Ok (s', data, ImportError AttributeError)
    ∧ fields_of s' n
      = Some (fs ++ filter (fun f => f_name f ∉ f_name <$> fs) (infer_field <$> sample))
    ∧ ∀ n', n' ≠ n → fields_of s' n' = fields_of s n'.
Proof.
  intros Hwf Hfs Hin Hx. destruct (fields_of_Some _ _ _ Hfs) as [l Hl].
  unfold import_json, schemas_getitem. rewrite Hl.
  cbn [mbind result_bind py_truthy].
  rewrite bool_decide_eq_false_2 by done. cbn [negb isinstance_dict].
  cbn [generate_schema_from_json py_items mbind result_bind].
  destruct (merge_schema_spec s n l (infer_field <$> sample) fs Hwf Hl Hfs)
    as (_ & _ & _ & Hf & Ho).
  rewrite (fields_of_getitem_Some _ _ _ Hf). cbn [mbind result_bind].
  unfold convert_raw. cbn [py_iter mbind result_bind].
  rewrite (all_items_not_object (PDict sample :: rest) x); [|by apply elem_of_cons; right|done].
  eexists. split; [reflexivity|]. by split.
Qed.

Lemma import_fails_after_merge_witness :
  ∃ s', import_json init_session None "Default"
          (PList [PDict [("age", PInt 3)]; PInt 7]) UpdateSchemaAndData
        = Ok (s', None, ImportError AttributeError)
    ∧ fields_of s' "Default"
      = Some [Field "name" "string" true None; Field "value" "string" false None;
              Field "age" "number" false (Some EmptyString)].
Proof.
  destruct (import_fails_after_merge init_session None "Default" _
              [("age", PInt 3)] [PInt 7] (PInt 7) wf_init eq_refl)
    as (s' & E & Hf & _).
  { apply list_elem_of_singleton. reflexivity. }
  { reflexivity. }
  exists s'. split; [exact E|exact Hf].
Defined.

(** X9. An import of an array with an element that is no object changes
    nothing when the option is "Update Data Only", or when the first
    element is itself no object: an AttributeError is reported, and the
    session and the table are what they were. *)
Theorem import_failure_changes_nothing s data n (items : list pyval) x opt :
  is_Some (schemas s !! n) →
  x ∈ items → isinstance_dict x = false →
  opt = UpdateDataOnly ∨ head items = Some x →
  import_json s data n (PList items) opt = Ok (s, data, ImportError AttributeError).
Proof.
  intros [l Hl] Hin Hx Hcase.
  unfold import_json, schemas_getitem. rewrite Hl.
  cbn [mbind result_bind py_truthy].
  assert (items ≠ []) as Hne by (intros ->; by apply elem_of_nil in Hin).
  rewrite bool_decide_eq_false_2 by done. cbn [negb isinstance_dict].
  assert (fields_of_getitem s n ≫= (fun schema => convert_raw (PList items) schema)
          = Raise AttributeError) as Hconv.
  { unfold fields_of_getitem, schemas_getitem. rewrite Hl. cbn [mbind result_bind].
    unfold convert_raw. cbn [py_iter mbind result_bind].
    by rewrite (all_items_not_object items x). }
  destruct opt.
  - destruct Hcase as [|Hhd]; [done|]. destruct items as [|y items]; [done|].
    injection Hhd as ->. by destruct x.
  - by rewrite Hconv.
Qed.

Lemma import_failure_changes_nothing_witness :
  import_json init_session None "Default" (PList [PInt 1; PDict [("a", PInt 2)]])
    UpdateSchemaAndData
  = Ok (init_session, None, ImportError AttributeError).
Proof.
  apply (import_failure_changes_nothing init_session None "Default" _ (PInt 1)).
  - by eexists.
  - apply elem_of_cons. by left.
  - reflexivity.
  - by right.
Defined.

End importing.

(** * Further properties of the reconstruction *)

Section trimming.

Implicit Types (s : string) (c : ascii).

Lemma rstrip_idem s : Str.rstrip (Str.rstrip s) = Str.rstrip s.
Proof.
  induction s as [|c s IH]; [done|]. cbn [Str.rstrip].
  destruct (Str.rstrip s) as [|d r] eqn:E.
  - destruct (Str.is_space c) eqn:Ec; [done|]. simpl. by rewrite Ec.
  - change (Str.rstrip (String c (String d r)))
      with (match Str.rstrip (String d r) with
            | EmptyString => if Str.is_space c then EmptyString else String c EmptyString
            | String a r0 => String c (String a r0)
            end).
    by rewrite IH.
Qed.

Lemma lstrip_first s : Str.lstrip s = EmptyString ∨ first_not_space (Str.lstrip s).
Proof.
  induction s as [|c s IH]; [by left|]. simpl.
  destruct (Str.is_space c) eqn:E; [done|]. by right.
Qed.

Lemma strip_idem s : Str.strip (Str.strip s) = Str.strip s.
Proof.
  unfold Str.strip. destruct (lstrip_first s) as [->|H]; [done|].
  destruct (Str.lstrip s) as [|c t]; [done|]. simpl in H.
  rewrite (rstrip_cons_not_space c t H). cbn [Str.lstrip]. rewrite H.
  rewrite <- (rstrip_cons_not_space c t H). apply rstrip_idem.
Qed.

Lemma lstrip_comma_free s : comma_free s → comma_free (Str.lstrip s).
Proof.
  unfold comma_free. induction s as [|c s IH]; [done|]. simpl.
  intros [Hc Hs]%orb_false_elim. destruct (Str.is_space c); [by apply IH|].
  simpl. by rewrite Hc, Hs.
Qed.

Lemma rstrip_comma_free s : comma_free s → comma_free (Str.rstrip s).
Proof.
  unfold comma_free. induction s as [|c s IH]; [done|]. simpl.
  intros [Hc Hs]%orb_false_elim. specialize (IH Hs).
  destruct (Str.rstrip s) as [|d r].
  - destruct (Str.is_space c); [done|]. simpl. by rewrite Hc.
  - change (Str.eqb_ascii c Str.comma || Str.contains Str.comma (String d r) = false).
    by rewrite Hc, IH.
Qed.

Lemma split_pieces_comma_free s : Forall comma_free (Str.split Str.comma s).
Proof.
  induction s as [|c s IH]; simpl.
  - by apply Forall_singleton.
  - destruct (Str.eqb_ascii c Str.comma) eqn:Ec.
    + by apply Forall_cons.
    + destruct (Str.split Str.comma s) as [|p ps].
      * apply Forall_singleton. unfold comma_free. simpl. by rewrite Ec.
      * apply Forall_cons in IH as [Hp Hps]. apply Forall_cons. split; [|done].
        unfold comma_free in *. simpl. by rewrite Ec, Hp.
Qed.

(** The pieces of the list coercion are trimmed, non-empty and without
    a comma. *)
Lemma list_pieces_exported s :
  Forall (fun e => trimmed e ∧ e ≠ EmptyString ∧ comma_free e) (list_pieces s).
Proof.
  unfold list_pieces. apply Forall_forall. intros e [Hne Hin]%list_elem_of_filter.
  apply list_elem_of_fmap in Hin as (p & -> & Hp). split_and!; [|done|].
  - apply strip_idem.
  - apply rstrip_comma_free, lstrip_comma_free.
    pose proof (split_pieces_comma_free s) as H. rewrite Forall_forall in H. by apply H.
Qed.

End trimming.

Section export.

Implicit Types (row : Series) (f : field) (schema : list field) (val v : pyval).
Implicit Types (df : DataFrame) (rs : list Series).

Lemma blank_value_exported t : exported t (blank_value t).
Proof.
  unfold exported, blank_value. repeat case_bool_decide.
  - exists []. by split.
  - left. eauto.
  - eauto.
  - exists EmptyString. split; [done|by left].
Qed.

Lemma coerce_exported t val :
  Str.is_blank (py_str val) = false → exported t (coerce t val).
Proof.
  intros Hval. unfold exported, coerce. repeat case_bool_decide.
  - rewrite coerce_list_pieces. eexists. split; [done|]. apply list_pieces_exported.
  - unfold coerce_number, number_of.
    destruct (py_float val) as [g|]; simpl; [|left; eauto].
    destruct (Float.to_int g) as [i|] eqn:Ei; simpl; [|left; eauto].
    destruct (Float.eqb_int g i) eqn:Eb; simpl; [left; eauto|right].
    exists g. split_and!; [done|by destruct g|].
    intros z Hz. pose proof (to_int_represents g z Hz) as Hi.
    rewrite Ei in Hi. injection Hi as ->.
    apply eqb_int_represents in Hz. congruence.
  - destruct val; simpl; eauto.
  - exists (py_str val). split; [done|by right].
Qed.

Lemma parse_field_exported row f v : parse_field row f = Ok v → exported (f_type f) v.
Proof.
  unfold parse_field, cell_is_blank.
  destruct (isna_truth _) as [[]|]; simpl; [| |done].
  - intros [= <-]. apply blank_value_exported.
  - destruct (Str.is_blank _) eqn:E; simpl; intros [= <-].
    + apply blank_value_exported.
    + by apply coerce_exported.
Qed.

Lemma parse_field_exn row f e : parse_field row f = Raise e → e = ValueError.
Proof.
  unfold parse_field, cell_is_blank.
  destruct (pd_isna _) as [b|a]; simpl.
  - destruct b; simpl; [done|]. by destruct (Str.is_blank _).
  - destruct a as [|b [|b' a]]; simpl; try congruence.
    destruct b; simpl; [done|]. by destruct (Str.is_blank _).
Qed.

Lemma parse_row_Ok row schema : ∀ acc record,
  parse_row row schema acc = Ok record →
  ∀ f, f ∈ schema → ∃ v, parse_field row f = Ok v.
Proof.
  induction schema as [|g schema IH]; intros acc record H f Hf.
  - by apply elem_of_nil in Hf.
  - cbn [parse_row] in H. destruct (parse_field row g) as [v|e] eqn:E; [|done].
    cbn [mbind result_bind] in H.
    apply elem_of_cons in Hf as [->|Hf]; [eauto|]. by eapply IH.
Qed.

Lemma parse_row_total row schema :
  (∀ f, f ∈ schema → ∃ v, parse_field row f = Ok v) →
  ∀ acc, ∃ record, parse_row row schema acc = Ok record.
Proof.
  induction schema as [|g schema IH]; intros H acc; [by eexists|].
  cbn [parse_row]. destruct (H g) as [v ->]; [by apply elem_of_cons; left|].
  cbn [mbind result_bind]. apply IH. intros f Hf. apply H, elem_of_cons. by right.
Qed.

Lemma parse_row_raise row schema f e :
  f ∈ schema → parse_field row f = Raise e →
  ∀ acc, parse_row row schema acc = Raise ValueError.
Proof.
  intros Hf He. induction schema as [|g schema IH]; intros acc.
  - by apply elem_of_nil in Hf.
  - cbn [parse_row]. destruct (parse_field row g) as [v|e'] eqn:E.
    + cbn [mbind result_bind]. apply IH.
      apply elem_of_cons in Hf as [->|Hf]; [congruence|done].
    + by rewrite (parse_field_exn _ _ _ E).
Qed.

Lemma parse_row_exn row schema : ∀ acc e,
  parse_row row schema acc = Raise e → e = ValueError.
Proof.
  induction schema as [|g schema IH]; intros acc e H; [done|].
  cbn [parse_row] in H. destruct (parse_field row g) as [v|e'] eqn:E.
  - by eapply IH.
  - cbn [mbind result_bind] in H. injection H as <-. by eapply parse_field_exn.
Qed.

(** The records of a table are those of the rows that are not skipped,
    in their order. *)
Lemma parse_rows_spec rs schema : ∀ parsed records,
  parse_rows rs schema parsed = Ok records
  ↔ ∃ recs, records = parsed ++ recs
      ∧ Forall2 (fun row rec => parse_row row schema [] = Ok rec)
                (filter (fun row => row_is_empty row = false) rs) recs.
Proof.
  induction rs as [|row rs IH]; intros parsed records.
  - cbn [parse_rows]. rewrite filter_nil. split.
    + intros [= <-]. exists []. by rewrite app_nil_r.
    + intros (recs & -> & ->%Forall2_nil_inv_l). by rewrite app_nil_r.
  - cbn [parse_rows]. rewrite filter_cons.
    destruct (row_is_empty row) eqn:Erow.
    + rewrite decide_False by done. apply IH.
    + rewrite decide_True by done.
      destruct (parse_row row schema []) as [rec|e] eqn:Erec; cbn [mbind result_bind].
      * rewrite IH. split.
        -- intros (recs & -> & H). exists (rec :: recs).
           split; [by rewrite <- app_assoc|]. by apply Forall2_cons.
        -- intros (recs & -> & H).
           apply Forall2_cons_inv_l in H as (rec' & recs' & Hrec & H & ->).
           exists recs'. split; [|done]. rewrite <- app_assoc.
           rewrite Erec in Hrec. by injection Hrec as ->.
      * split; [done|]. intros (recs & _ & H).
        apply Forall2_cons_inv_l in H as (rec' & recs' & Hrec & _). congruence.
Qed.

Lemma parse_rows_total rs schema :
  (∀ row, row ∈ rs → ∃ rec, parse_row row schema [] = Ok rec) →
  ∀ parsed, ∃ records, parse_rows rs schema parsed = Ok records.
Proof.
  induction rs as [|row rs IH]; intros H parsed; [by eexists|].
  cbn [parse_rows].
  assert (∀ r, r ∈ rs → ∃ rec, parse_row r schema [] = Ok rec) as H'.
  { intros r Hr. apply H, elem_of_cons. by right. }
  destruct (row_is_empty row); [by apply IH|].
  destruct (H row) as [rec ->]; [by apply elem_of_cons; left|].
  cbn [mbind result_bind]. by apply IH.
Qed.

Lemma parse_rows_raise rs schema row :
  row ∈ rs → row_is_empty row = false →
  parse_row row schema [] = Raise ValueError →
  ∀ parsed, parse_rows rs schema parsed = Raise ValueError.
Proof.
  intros Hin Hrow Hraise. induction rs as [|r rs IH]; intros parsed.
  - by apply elem_of_nil in Hin.
  - cbn [parse_rows]. destruct (row_is_empty r) eqn:Er.
    + apply IH. apply elem_of_cons in Hin as [->|Hin]; [congruence|done].
    + destruct (parse_row r schema []) as [rec|e] eqn:Erec; cbn [mbind result_bind].
      * apply IH. apply elem_of_cons in Hin as [->|Hin]; [congruence|done].
      * by rewrite (parse_row_exn _ _ _ _ Erec).
Qed.

(** The record of one row, for a schema of distinct field names. *)
Lemma parse_row_exported row schema rec :
  NoDup (f_name <$> schema) →
  parse_row row schema [] = Ok rec →
  exported_record schema rec.
Proof.
  intros Hnd Hrec.
  pose proof (parse_row_Ok row schema [] rec Hrec) as Hfields.
  set (out := fun f => match parse_field row f with Ok v => v | Raise _ => PNone end).
  assert (∀ f, f ∈ schema → parse_field row f = Ok (out f)) as Hout.
  { intros f Hf. destruct (Hfields f Hf) as [v Hv]. unfold out. by rewrite Hv. }
  rewrite (parse_row_fold row out schema []) in Hrec; [|done| |done].
  2: { intros f _. apply not_elem_of_nil. }
  injection Hrec as <-. cbn [app]. split.
  - unfold dict_keys. rewrite <- list_fmap_compose. done.
  - intros f Hf. exists (out f). split; [by apply (keyed_get f_name out)|].
    apply (parse_field_exported row). by apply Hout.
Qed.

End export.

Section export_theorems.

Implicit Types (row : Series) (f : field) (schema : list field) (val v : pyval).
Implicit Types (df : DataFrame).

Lemma parse_field_scalar row f :
  Forall (fun kv => isinstance_list kv.2 = false) row →
  ∃ v, parse_field row f = Ok v.
Proof.
  intros Hrow. unfold parse_field. rewrite cell_is_blank_scalar.
  - cbn [mbind result_bind]. destruct (_ || _); eauto.
  - unfold row_get. destruct (dict_get (f_name f) row) as [v|] eqn:E; [|done].
    apply dict_get_Some_elem in E. rewrite Forall_forall in Hrow.
    by apply (Hrow _ E).
Qed.

Lemma iterrows_scalar df row :
  scalar_cells df → row ∈ iterrows df →
  Forall (fun kv => isinstance_list kv.2 = false) row.
Proof.
  unfold scalar_cells, iterrows. rewrite !Forall_forall.
  intros Hdf (r & -> & Hr)%list_elem_of_fmap [k v] Hkv.
  apply elem_of_zip_r in Hkv. specialize (Hdf r Hr). rewrite Forall_forall in Hdf.
  by apply Hdf.
Qed.

(** X10. On a table no cell of which holds a list, [parse_dataframe]
    never raises, whatever the schema and the cells: it returns one
    record for each row it does not skip as empty. *)
Theorem parse_dataframe_total df schema :
  scalar_cells df →
  ∃ records, parse_dataframe df schema = Ok records
    ∧ length records = length (kept_rows df).
Proof.
  intros Hdf. unfold parse_dataframe.
  destruct (parse_rows_total (iterrows df) schema) with (parsed := @nil (dict pyval))
    as [records Hrecords].
  { intros row Hrow. apply parse_row_total. intros f _.
    apply parse_field_scalar. by eapply iterrows_scalar. }
  exists records. split; [done|].
  apply parse_rows_spec in Hrecords as (recs & -> & H).
  cbn [app]. symmetry. by eapply Forall2_length.
Qed.

Lemma parse_dataframe_total_witness :
  let df := Frame ["name"; "age"]
              [[PStr "Ann"; PStr "x7"]; [NaN; PNone]; [PStr " "; PInt 3]] in
  let schema := [Field "age" "number" false None; Field "tags" "list" false None] in
  scalar_cells df
  ∧ parse_dataframe df schema
    = Ok [[("age", PInt 0); ("tags", PList [])]; [("age", PInt 3); ("tags", PList [])]]
  ∧ ∃ records, parse_dataframe df schema = Ok records
      ∧ length records = length (kept_rows df).
Proof.
  intros df schema.
  assert (scalar_cells df) as Hdf.
  { unfold scalar_cells. simpl. repeat constructor. }
  split; [exact Hdf|]. split; [vm_compute; reflexivity|].
  exact (parse_dataframe_total df schema Hdf).
Defined.

(** X11. Every record [parse_dataframe] returns for a schema of distinct
    field names has exactly the schema's names as its keys, in schema
    order, whatever the columns of the table, and under each name a
    value of the field's type: a list of trimmed, non-empty, comma-free
    strings for "list"; an integer, or a finite float that is no
    integer, for "number"; a boolean for "boolean"; a string that is
    empty or not blank for any other type. *)
Theorem parse_dataframe_exported df schema records :
  NoDup (f_name <$> schema) →
  parse_dataframe df schema = Ok records →
  Forall (exported_record schema) records.
Proof.
  intros Hnd H. unfold parse_dataframe in H.
  apply parse_rows_spec in H as (recs & -> & H). cbn [app].
  apply Forall_forall. intros rec Hrec.
  apply list_elem_of_lookup in Hrec as [i Hi].
  destruct (Forall2_lookup_r _ _ _ _ _ H Hi) as (row & _ & Hrow).
  by eapply parse_row_exported.
Qed.

Lemma parse_dataframe_exported_witness :
  let df := Frame ["tags"; "other"; "price"]
              [[PStr " a, b ,,c "; PInt 1; PStr "12.50"]] in
  let schema := [Field "price" "number" false None; Field "tags" "list" false None;
                 Field "ok" "boolean" false None] in
  parse_dataframe df schema
  = Ok [[("price", PFloat (FFin false 125 (-1)));
         ("tags", PList [PStr "a"; PStr "b"; PStr "c"]); ("ok", PBool false)]]
  ∧ Forall (exported_record schema)
      [[("price", PFloat (FFin false 125 (-1)));
        ("tags", PList [PStr "a"; PStr "b"; PStr "c"]); ("ok", PBool false)]].
Proof.
  intros df schema.
  assert (parse_dataframe df schema
          = Ok [[("price", PFloat (FFin false 125 (-1)));
                 ("tags", PList [PStr "a"; PStr "b"; PStr "c"]); ("ok", PBool false)]])
    as H by (vm_compute; reflexivity).
  split; [exact H|].
  apply (parse_dataframe_exported df schema); [|exact H].
  compute_done.
Defined.

(** X12. A cell that holds a list of two or more values that are not
    themselves lists, under a column that is a schema field, makes
    [parse_dataframe] raise a ValueError: the row is not skipped, and
    the blank test of the cell has no truth value. *)
Theorem parse_dataframe_list_cell_raises df schema row f (l : list pyval) :
  row ∈ iterrows df → f ∈ schema →
  dict_get (f_name f) row = Some (PList l) →
  (1 < length l)%nat → Forall (fun x => isinstance_list x = false) l →
  parse_dataframe df schema = Raise ValueError.
Proof.
  intros Hrow Hf Hcell Hlen Hflat. unfold parse_dataframe.
  apply (parse_rows_raise _ _ row); [done| |].
  - apply dict_get_Some_elem in Hcell.
    unfold row_is_empty. apply orb_false_intro.
    + by apply (forallb_elem_false _ _ _ Hcell).
    + apply (forallb_elem_false _ _ _ Hcell). by apply first_not_space_not_blank.
  - apply (parse_row_raise row schema f ValueError Hf).
    unfold parse_field, row_get. rewrite Hcell. cbn [default from_option id].
    unfold cell_is_blank, pd_isna.
    destruct l as [|x [|y l]]; [simpl in Hlen; lia..|].
    apply Forall_cons in Hflat as [Hx _].
    assert (np_elements 63 (x :: y :: l) = x :: y :: l) as ->.
    { by destruct x. }
    done.
Qed.

Lemma parse_dataframe_list_cell_raises_witness :
  let df := pd_DataFrame [[("name", PList [PStr "a"; PStr "b"])]] in
  parse_dataframe df [Field "name" "string" true None] = Raise ValueError.
Proof.
  intros df.
  apply (parse_dataframe_list_cell_raises df _ [("name", PList [PStr "a"; PStr "b"])]
           (Field "name" "string" true None) [PStr "a"; PStr "b"]).
  - apply list_elem_of_singleton. reflexivity.
  - apply list_elem_of_singleton. reflexivity.
  - reflexivity.
  - simpl. lia.
  - repeat (apply Forall_cons; split; [done|]). apply Forall_nil_2.
Defined.

End export_theorems.

Section reinference.

Implicit Types (f : field) (schema : list field) (v : pyval) (r : dict pyval).

Lemma exported_guess t v : t ∈ four_types → exported t v → guess_field_type v = t.
Proof.
  intros Ht Hv. unfold exported in Hv.
  repeat (apply elem_of_cons in Ht as [->|Ht]); [..|by apply elem_of_nil in Ht];
    repeat case_bool_decide; try done.
  - by destruct Hv as (s & -> & _).
  - by destruct Hv as [[z ->]|(g & -> & _)].
  - by destruct Hv as [b ->].
  - by destruct Hv as (es & -> & _).
Qed.

(** An exported record, entry by entry. *)
Lemma exported_record_form schema r :
  NoDup (f_name <$> schema) → exported_record schema r →
  r = (fun f => (f_name f, default PNone (dict_get (f_name f) r))) <$> schema.
Proof.
  intros Hnd [Hkeys Hvals]. apply list_eq. intros i.
  rewrite list_lookup_fmap.
  assert (dict_keys r !! i = f_name <$> schema !! i) as Hi.
  { by rewrite Hkeys, list_lookup_fmap. }
  unfold dict_keys in Hi. rewrite list_lookup_fmap in Hi.
  destruct (r !! i) as [[k v]|] eqn:Er; destruct (schema !! i) as [f|] eqn:Ef;
    simpl in *; try done.
  injection Hi as ->. do 2 f_equal.
  rewrite (dict_get_elem (f_name f) v r); [done| |by eapply list_elem_of_lookup_2].
  by rewrite Hkeys.
Qed.

Lemma parse_rows_exported (rs : list Series) schema records :
  NoDup (f_name <$> schema) →
  parse_rows rs schema [] = Ok records → Forall (exported_record schema) records.
Proof.
  intros Hnd H. apply parse_rows_spec in H as (recs & -> & H). cbn [app].
  apply Forall_forall. intros rec Hrec.
  apply list_elem_of_lookup in Hrec as [i Hi].
  destruct (Forall2_lookup_r _ _ _ _ _ H Hi) as (row & _ & Hrow).
  by eapply parse_row_exported.
Qed.

(** X13. Schema inference recovers the schema from what was exported:
    for a schema of distinct field names whose types are among string,
    number, boolean and list, [generate_schema_from_json] on any record
    [parse_dataframe] returned gives fields with the schema's names
    and types, in schema order. *)
Theorem exported_record_reinferred (df : DataFrame) schema records r :
  NoDup (f_name <$> schema) →
  (∀ f, f ∈ schema → f_type f ∈ four_types) →
  parse_dataframe df schema = Ok records → r ∈ records →
  ∃ fs, generate_schema_from_json (PDict r) = Ok fs
    ∧ f_name <$> fs = f_name <$> schema
    ∧ f_type <$> fs = f_type <$> schema.
Proof.
  intros Hnd Htypes Hrecords Hr.
  pose proof (parse_rows_exported _ _ _ Hnd Hrecords) as Hall.
  rewrite Forall_forall in Hall. specialize (Hall r Hr).
  pose proof (exported_record_form schema r Hnd Hall) as Hform.
  destruct Hall as [Hkeys Hvals].
  exists (infer_field <$> r). split; [done|]. split; [by rewrite infer_names|].
  rewrite Hform at 1. rewrite <- !list_fmap_compose.
  apply list_eq. intros i. rewrite !list_lookup_fmap.
  destruct (schema !! i) as [f|] eqn:Ef; [|done]. simpl. f_equal.
  assert (f ∈ schema) as Hf by by eapply list_elem_of_lookup_2.
  destruct (Hvals f Hf) as (v & -> & Hv). simpl.
  apply exported_guess; [by apply Htypes|done].
Qed.

Lemma exported_record_reinferred_witness :
  let df := Frame ["tags"; "price"; "ok"] [[PStr "a, b"; PStr "12.50"; PStr "yes"]] in
  let schema := [Field "price" "number" true None; Field "tags" "list" false None;
                 Field "ok" "boolean" false (Some "text")] in
  let r := [("price", PFloat (FFin false 125 (-1)));
            ("tags", PList [PStr "a"; PStr "b"]); ("ok", PBool true)] in
  parse_dataframe df schema = Ok [r]
  ∧ ∃ fs, generate_schema_from_json (PDict r) = Ok fs
      ∧ f_name <$> fs = f_name <$> schema
      ∧ f_type <$> fs = f_type <$> schema.
Proof.
  intros df schema r.
  assert (parse_dataframe df schema = Ok [r]) as H by (vm_compute; reflexivity).
  split; [exact H|].
  apply (exported_record_reinferred df schema [r] r); [compute_done| |exact H|].
  - intros f Hf. unfold four_types.
    repeat (apply elem_of_cons in Hf as [->|Hf]); [..|by apply elem_of_nil in Hf];
      simpl; rewrite !elem_of_cons; tauto.
  - apply list_elem_of_singleton. reflexivity.
Defined.

End reinference.

Section reimport.

Implicit Types (f : field) (schema : list field) (v : pyval) (r : dict pyval).







End reimport.

Section reimport_theorem.

Implicit Types (f : field) (schema : list field) (v : pyval) (r : dict pyval).





End reimport_theorem.

(** * Further properties of the conversion *)

Section conversion.

Implicit Types (schema : list field) (item : dict pyval) (types : dict string).

Lemma dict_get_set {V : Type} k k' (x : V) (d : dict V) :
  dict_get k (dict_set k' x d) = if decide (k' = k) then Some x else dict_get k d.
Proof.
  induction d as [|[k0 x0] d IH]; simpl.
  - by destruct (decide (k' = k)).
  - destruct (decide (k0 = k')) as [->|Hne]; simpl.
    + by destruct (decide (k' = k)).
    + destruct (decide (k0 = k)) as [->|Hne']; simpl.
      * by rewrite decide_False by (intros ->; done).
      * exact IH.
Qed.

Lemma field_types_origin schema k t :
  dict_get k (field_types schema) = Some t →
  ∃ f, f ∈ schema ∧ f_name f = k ∧ f_type f = t.
Proof.
  unfold field_types.
  assert (∀ acc : dict string,
    dict_get k (fold_left (fun d f => dict_set (f_name f) (f_type f) d) schema acc) = Some t →
    dict_get k acc = Some t ∨ ∃ f, f ∈ schema ∧ f_name f = k ∧ f_type f = t) as H.
  { induction schema as [|g schema IH]; intros acc Hget; [by left|].
    cbn [fold_left] in Hget. destruct (IH _ Hget) as [Hacc|(f & Hf & ? & ?)].
    - rewrite dict_get_set in Hacc. destruct (decide (f_name g = k)) as [Hk|Hk].
      + right. exists g. split_and!; [by apply elem_of_cons; left|done|congruence].
      + by left.
    - right. exists f. split_and!; [by apply elem_of_cons; right|done..]. }
  intros Hget. by destruct (H [] Hget) as [|].
Qed.

Lemma convert_value_idem types k v :
  convert_value types k (convert_value types k v) = convert_value types k v.
Proof.
  unfold convert_value. destruct (dict_get k types) as [t|]; [|done].
  destruct v; try done. by case_bool_decide.
Qed.

(** X15. On records of distinct keys [convert_for_dataframe] is
    idempotent, it keeps the number of records and the keys of each in
    their order, and for a schema without a field of type "list" it
    returns the records unchanged. *)
Theorem convert_for_dataframe_idempotent (data : list (dict pyval)) schema :
  Forall (fun item => NoDup (dict_keys item)) data →
  let out := convert_for_dataframe data schema in
  convert_for_dataframe out schema = out
  ∧ dict_keys <$> out = dict_keys <$> data
  ∧ ((∀ f, f ∈ schema → f_type f ≠ "list") → out = data).
Proof.
  intros Hdata out. unfold out, convert_for_dataframe.
  set (types := field_types schema).
  assert (convert_item types <$> data = fmap (convert_entry types) <$> data) as ->.
  { apply Forall_fmap_ext. eapply Forall_impl; [exact Hdata|].
    intros item Hitem. by apply convert_item_entries. }
  assert (∀ item, dict_keys (convert_entry types <$> item) = dict_keys item) as Hkeys.
  { intros item. unfold dict_keys. by rewrite <- list_fmap_compose. }
  split_and!.
  - rewrite <- list_fmap_compose. apply Forall_fmap_ext.
    eapply Forall_impl; [exact Hdata|]. intros item Hitem. simpl.
    rewrite convert_item_entries by by rewrite Hkeys.
    rewrite <- list_fmap_compose. apply list_fmap_ext. intros i [k v] _.
    unfold convert_entry. simpl. by rewrite convert_value_idem.
  - rewrite <- list_fmap_compose. apply list_fmap_ext. intros i item _. apply Hkeys.
  - intros Hnolist. rewrite <- (list_fmap_id data) at 2.
    apply list_fmap_ext. intros i item _. simpl.
    rewrite <- (list_fmap_id item) at 2. apply list_fmap_ext. intros j [k v] _.
    unfold convert_entry, convert_value. simpl.
    destruct (dict_get k types) as [t|] eqn:E; [|done].
    destruct v; try done. case_bool_decide as Ht; [|done]. subst t.
    apply field_types_origin in E as (f & Hf & _ & Hlist). by destruct (Hnolist f Hf).
Qed.

Lemma convert_for_dataframe_idempotent_witness :
  let schema := [Field "tags" "list" false None; Field "n" "number" false None] in
  let data := [[("tags", PList [PStr "a"; PInt 2]); ("n", PList [PInt 1])];
               [("other", PNone)]] in
  convert_for_dataframe data schema
  = [[("tags", PStr "a, 2"); ("n", PList [PInt 1])]; [("other", PNone)]]
  ∧ convert_for_dataframe (convert_for_dataframe data schema) schema
    = convert_for_dataframe data schema.
Proof.
  intros schema data. split; [vm_compute; reflexivity|].
  apply (convert_for_dataframe_idempotent data schema).
  repeat (apply Forall_cons; split; [compute_done|]). apply Forall_nil_2.
Defined.

End conversion.

(** * Export, import and export again *)

Section cycle.

Implicit Types (s : Session) (n : string) (schema : list field).




End cycle.

(** * Numbers under a boolean field *)

Section booleans.

Implicit Types (s r : string) (c : ascii) (row : Series) (f : field).

Lemma lower_char_number c :
  Str.is_digit c = true ∨ c = "-"%char →
  Str.lower_char c = c ∧ c ≠ "t"%char ∧ c ≠ "y"%char.
Proof.
  intros [H| ->]; [|by vm_compute].
  destruct c as [[] [] [] [] [] [] [] []]; vm_compute in H; try discriminate;
    by vm_compute.
Qed.

(** Of the texts of numbers only ["1"] counts as true. *)
Lemma number_truthy s : number_first s → Str.lower s ∈ truthy_words → s = "1".
Proof.
  destruct s as [|c s]; [done|]. intros Hc Hin.
  apply lower_char_number in Hc as (Hl & Ht & Hy). unfold truthy_words in Hin.
  cbn [Str.lower] in Hin. rewrite Hl in Hin.
  repeat (apply elem_of_cons in Hin as [Hin|Hin]); try (by apply elem_of_nil in Hin);
    injection Hin; intros; try congruence.
  subst c. f_equal. by destruct s.
Qed.

Lemma of_uint_digit d : digit_first (NilZero.string_of_uint d).
Proof. by destruct d. Qed.

Lemma of_N_digit n : digit_first (Str.of_N n).
Proof. apply of_uint_digit. Qed.

Lemma of_Z_number z : number_first (Str.of_Z z).
Proof.
  unfold Str.of_Z. destruct (Z.to_int z) as [d|d]; simpl; [|by right].
  pose proof (of_uint_digit d) as H. destruct (NilZero.string_of_uint d); [done|by left].
Qed.

Lemma of_Z_one z : Str.of_Z z = "1" → z = 1.
Proof.
  unfold Str.of_Z. intros H. apply DecimalZ.to_int_inj.
  destruct z as [|p|p]; [done| |done]. simpl in *. f_equal.
  pose proof (NilZero.usu (Pos.to_uint p) (Unsigned.to_uint_nonnil p)) as Hu.
  rewrite H in Hu. by injection Hu as <-.
Qed.

Lemma digit_first_app s r :
  digit_first s → r ≠ EmptyString → starts_like_number (s +:+ r).
Proof.
  destruct s as [|c [|c' s']]; [done| |].
  - intros H Hr. destruct r; [done|]. by left.
  - intros H _. by left.
Qed.

Lemma digit_first_take n s : (0 < n)%nat → digit_first s → digit_first (Str.take n s).
Proof. destruct n, s; simpl; try done; lia. Qed.

Lemma minus_app s r :
  digit_first s → r ≠ EmptyString → starts_like_number ("-" +:+ s +:+ r).
Proof. destruct s; [done|]. intros _ _. by right. Qed.

Lemma app_not_empty s r : r ≠ EmptyString → s +:+ r ≠ EmptyString.
Proof. by destruct s, r. Qed.

Lemma float_repr_number neg m e : starts_like_number (Float.repr (FFin neg m e)).
Proof.
  unfold Float.repr. pose proof (of_N_digit m) as Hds.
  assert (∀ s r, digit_first s → r ≠ EmptyString →
            starts_like_number ((if neg then "-" else EmptyString) +:+ s +:+ r)) as Happ.
  { intros s r Hs Hr. destruct neg; [by apply minus_app|].
    change (starts_like_number (s +:+ r)). by apply digit_first_app. }
  assert (∀ c s r, String c s +:+ r ≠ EmptyString) as Hne by done.
  destruct (m =? 0)%N; [by apply (Happ "0" ".0")|].
  destruct (_ && _).
  - destruct (_ <=? 0) eqn:E1; [by apply (Happ "0"); [|apply Hne]|].
    destruct (_ <? _).
    + apply Happ; [|apply Hne]. apply digit_first_take; [lia|done].
    + apply Happ; [done|]. by apply app_not_empty.
  - apply Happ; [by apply digit_first_take; [lia|]|].
    destruct (_ =? _)%nat; [|apply Hne]. rewrite app_nil_l. apply Hne.
Qed.

Lemma float_repr_not_truthy g : Str.lower (Float.repr g) ∉ truthy_words.
Proof.
  destruct g as [|[]|neg m e]; [by compute_done..|].
  pose proof (float_repr_number neg m e) as H. intros Hin.
  destruct (Float.repr (FFin neg m e)) as [|c [|c' s]] eqn:E; [done..|].
  by apply number_truthy in Hin.
Qed.

(** X17. Under a field of type "boolean" a cell that holds a bool
    gives that bool, a cell that holds an integer gives true exactly
    for 1, and a cell that holds a float gives false whatever the
    float, 1.0 included; a missing cell gives false. *)
Theorem boolean_of_number_cell row f :
  f_type f = "boolean" →
  match row_get row (f_name f) (PStr EmptyString) with
  | PBool b => parse_field row f = Ok (PBool b)
  | PInt z => parse_field row f = Ok (PBool (bool_decide (z = 1)))
  | PFloat g => parse_field row f = Ok (PBool false)
  | PNone => parse_field row f = Ok (PBool false)
  | _ => True
  end.
Proof.
  intros Ht. unfold parse_field.
  destruct (row_get row (f_name f) (PStr EmptyString)) as [|b|z|g| | |] eqn:E;
    try done.
  - by rewrite Ht.
  - rewrite cell_is_blank_bool, Ht. done.
  - rewrite cell_is_blank_int, Ht. cbn [mbind result_bind]. do 2 f_equal.
    unfold coerce. cbn [coerce_boolean py_str py_repr bool_decide decide_rel].
    change (PBool (bool_decide (Str.lower (Str.of_Z z) ∈ truthy_words))
            = PBool (bool_decide (z = 1))).
    f_equal. apply bool_decide_ext. split.
    + intros Hin. apply of_Z_one. apply number_truthy; [apply of_Z_number|done].
    + intros ->. by compute_done.
  - rewrite Ht. destruct g as [|neg|neg m e]; [done| |].
    + destruct neg; done.
    + rewrite cell_is_blank_float by done. cbn [mbind result_bind]. f_equal.
      change (PBool (bool_decide (Str.lower (Float.repr (FFin neg m e)) ∈ truthy_words))
              = PBool false).
      f_equal. apply bool_decide_eq_false_2, float_repr_not_truthy.
Qed.

Lemma boolean_of_number_cell_witness :
  let f := Field "ok" "boolean" false None in
  parse_field [("ok", PInt 1)] f = Ok (PBool true)
  ∧ parse_field [("ok", PInt 2)] f = Ok (PBool false)
  ∧ parse_field [("ok", PFloat (FFin false 1 0))] f = Ok (PBool false).
Proof.
  intros f. split_and!.
  - exact (boolean_of_number_cell [("ok", PInt 1)] f eq_refl).
  - exact (boolean_of_number_cell [("ok", PInt 2)] f eq_refl).
  - exact (boolean_of_number_cell [("ok", PFloat (FFin false 1 0))] f eq_refl).
Defined.

End booleans.

(** * Cells under a number field *)

Section numerals.
Implicit Types (s r t : string) (c : ascii) (ds ip fp : list N).





























End numerals.


